(** * EphemeralForTestRecordStore: record store, undo changes and cursors

    A shallow embedding of
    [src/mongo/db/storage/ephemeral_for_test/ephemeral_for_test_record_store.cpp].

    The record map ([std::map<RecordId, EphemeralForTestRecord>]) is a list of
    bindings kept in increasing key order; an iterator is the key of the node
    it designates ([None] is [end()]).  Store operations run in a small state
    and error monad over the shared [Data] object and the list of [Change]s
    registered with the recovery unit: a call returns, throws
    ([uassertStatusOK]) or fails an [invariant].

    What the model leaves out, or fixes where the source leaves it open:
    - the per-store recursive mutex: every primitive runs to completion on
      its own, and a cursor reads the map as it is at each call;
    - the 64-bit counters [dataSize] and [nextId] are integers: signed
      overflow is undefined in the source, and the buffers of the records
      present are all in memory, so their sizes sum far below 2^63;
    - dereferencing an iterator whose node was erased is undefined in the
      source; here it yields nothing.  No statement below rests on it. *)

From Stdlib Require Import ZArith List Bool Lia.
From Stdlib Require String.
From Stdlib Require Import Sorting.Sorted.
From Stdlib Require Import Init.Byte.
Import ListNotations.
Open Scope Z_scope.

(* ------------------------------------------------------------------ *)
(** ** Values *)

(** Modelled from the spec: [RecordId] ("an ordered key unique within one
    store") is declared in record_id.h, which is not among the sources.  It
    wraps a signed 64-bit integer; the default-constructed id is the null
    id 0, and the normal ids lie strictly between 0 and the largest
    representable value. *)
Module RecordId.
Abbreviation t := Z.
Definition null : t := 0.
Definition kMaxRepr : Z := 2 ^ 63 - 1.
Definition isNull (r : t) : bool := r =? 0.
Definition isNormal (r : t) : bool := (0 <? r) && (r <? kMaxRepr).
End RecordId.

(** [RecordData]: a view of a byte buffer; its [size()] is the length. *)
Definition RecordData : Type := list byte.

Definition RecordData_size (d : RecordData) : Z := Z.of_nat (length d).

(** Modelled from the spec: the struct [EphemeralForTestRecord] ("an opaque
    byte payload plus its length") is declared in the header of the store,
    which is not among the sources; the fields are the ones the code reads
    ([rec->size], [rec.data.get()]). *)
Module EphemeralForTestRecord.
Record t : Type := mk { size : Z; data : list byte }.

(** [EphemeralForTestRecord rec(n); memcpy(rec.data.get(), src, n)] *)
Definition ofBytes (src : list byte) : t :=
  {| size := Z.of_nat (length src); data := src |}.

Definition toRecordData (r : t) : RecordData := data r.
End EphemeralForTestRecord.

Abbreviation EFTRecord := EphemeralForTestRecord.t.

(** The in/out element of [insertRecords]: [struct Record { id; data }]. *)
Module Rec.
Record t : Type := mk { id : RecordId.t; data : RecordData }.
End Rec.

(** [Status] and [StatusWith<T>].  The rendered text of a reason is kept as
    a term: the two reasons built by this file carry the values the stream
    prints. *)
Inductive ErrorCodes : Type :=
| BadValue
| OtherCode (n : Z).

Inductive Reason : Type :=
| ExceedsCappedMaxSize
    (* "object to insert exceeds cappedMaxSize" *)
| OutOfOrderOplogInsert (attempted last : RecordId.t)
    (* "attempted out-of-order oplog insert of .. (oplog last insert was .. )" *)
| OtherReason (msg : String.string).

Inductive Status : Type :=
| StatusOK
| StatusError (code : ErrorCodes) (reason : Reason).

Inductive StatusWith (A : Type) : Type :=
| SWValue (a : A)
| SWError (code : ErrorCodes) (reason : Reason).
Arguments SWValue {A} a.
Arguments SWError {A} code reason.

Definition isOK (s : Status) : bool :=
  match s with StatusOK => true | StatusError _ _ => false end.

(* ------------------------------------------------------------------ *)
(** ** The ordered record map *)

Definition Records : Type := list (RecordId.t * EFTRecord).

(** An iterator: the key of the designated node, [None] for [end()]. *)
Definition iterator : Type := option RecordId.t.

Module Map.

Definition keys (m : Records) : list RecordId.t := map fst m.

Definition ordered (m : Records) : Prop := StronglySorted Z.lt (keys m).

Fixpoint find (k : RecordId.t) (m : Records) : option EFTRecord :=
  match m with
  | [] => None
  | (k', v) :: tl => if k' =? k then Some v else find k tl
  end.

(** [m[k] = v] *)
Fixpoint assign (k : RecordId.t) (v : EFTRecord) (m : Records) : Records :=
  match m with
  | [] => [(k, v)]
  | (k', v') :: tl =>
      if k <? k' then (k, v) :: m
      else if k =? k' then (k, v) :: tl
      else (k', v') :: assign k v tl
  end.

(** [m.erase(k)]: the map without [k], and the number of erased nodes. *)
Fixpoint erase (k : RecordId.t) (m : Records) : Records :=
  match m with
  | [] => []
  | (k', v') :: tl => if k' =? k then tl else (k', v') :: erase k tl
  end.

Definition erase_count (k : RecordId.t) (m : Records) : Z :=
  match find k m with Some _ => 1 | None => 0 end.

Definition empty (m : Records) : bool :=
  match m with [] => true | _ :: _ => false end.

Definition size (m : Records) : Z := Z.of_nat (length m).

Definition begin (m : Records) : iterator :=
  match m with [] => None | (k, _) :: _ => Some k end.

(** key of [*m.rbegin()] *)
Fixpoint last_key (m : Records) : option RecordId.t :=
  match m with
  | [] => None
  | (k, _) :: tl => match tl with [] => Some k | _ :: _ => last_key tl end
  end.

(** first key [>= k] *)
Fixpoint lower_bound (k : RecordId.t) (m : Records) : iterator :=
  match m with
  | [] => None
  | (k', _) :: tl => if k <=? k' then Some k' else lower_bound k tl
  end.

(** first key [> k] *)
Fixpoint upper_bound (k : RecordId.t) (m : Records) : iterator :=
  match m with
  | [] => None
  | (k', _) :: tl => if k <? k' then Some k' else upper_bound k tl
  end.

(** greatest key [< k] *)
Fixpoint below (k : RecordId.t) (m : Records) : option RecordId.t :=
  match m with
  | [] => None
  | (k', _) :: tl =>
      if k' <? k
      then match below k tl with Some j => Some j | None => Some k' end
      else None
  end.

(** [++it], for [it != end()] *)
Definition incr (it : iterator) (m : Records) : iterator :=
  match it with
  | Some k => upper_bound k m
  | None => None
  end.

(** [--it] *)
Definition decr (it : iterator) (m : Records) : iterator :=
  match it with
  | Some k => below k m
  | None => last_key m
  end.

(** [{it->first, it->second.toRecordData()}] *)
Definition deref (it : iterator) (m : Records) : option Rec.t :=
  match it with
  | Some k =>
      match find k m with
      | Some r => Some (Rec.mk k (EphemeralForTestRecord.toRecordData r))
      | None => None
      end
  | None => None
  end.

Definition sumSizes (m : Records) : Z :=
  fold_right (fun p acc => EphemeralForTestRecord.size (snd p) + acc) 0 m.

End Map.

Arguments Map.sumSizes : simpl never.

Definition iterator_eqb (a b : iterator) : bool :=
  match a, b with
  | None, None => true
  | Some x, Some y => x =? y
  | _, _ => false
  end.

(* ------------------------------------------------------------------ *)
(** ** Shared state, undo changes and the monad of store operations *)

(** Modelled from the spec: the struct [Data] shared by the stores of one
    namespace ("an ordered mapping from RecordId to Record, a running total
    byte size, a monotonically increasing identifier allocator" and the
    oplog flag) is declared in the header, which is not among the sources.
    A new [Data] is empty, with size 0 and allocator 1. *)
Record Data : Type := mkData {
  records : Records;
  dataSize : Z;
  nextId : Z;
  isOplog : bool
}.

Definition Data_new (oplog : bool) : Data :=
  {| records := []; dataSize := 0; nextId := 1; isOplog := oplog |}.

Definition set_records (m : Records) (d : Data) : Data :=
  {| records := m; dataSize := dataSize d; nextId := nextId d; isOplog := isOplog d |}.

Definition set_dataSize (n : Z) (d : Data) : Data :=
  {| records := records d; dataSize := n; nextId := nextId d; isOplog := isOplog d |}.

Definition set_nextId (n : Z) (d : Data) : Data :=
  {| records := records d; dataSize := dataSize d; nextId := n; isOplog := isOplog d |}.

(** The three [RecoveryUnit::Change] classes, with their private fields. *)
Inductive Change : Type :=
| InsertChange (_loc : RecordId.t)
| RemoveChange (_loc : RecordId.t) (_rec : EFTRecord)
| TruncateChange (_dataSize : Z) (_records : Records).

(** How a call ends: it returns, it throws ([uassertStatusOK]), or an
    [invariant] fails and the process aborts.  [OutOfFuel] belongs to the
    model of the one [while] loop and is shown never to occur. *)
Inductive Result (A : Type) : Type :=
| Returned (a : A)
| Thrown (s : Status)
| InvariantFailed
| OutOfFuel.
Arguments Returned {A} a.
Arguments Thrown {A} s.
Arguments InvariantFailed {A}.
Arguments OutOfFuel {A}.

Definition St (S A : Type) : Type := S -> Result A * S.

Definition ret {S A : Type} (a : A) : St S A := fun s => (Returned a, s).

Definition bind {S A B : Type} (m : St S A) (f : A -> St S B) : St S B :=
  fun s =>
    match m s with
    | (Returned a, s') => f a s'
    | (Thrown e, s') => (Thrown e, s')
    | (InvariantFailed, s') => (InvariantFailed, s')
    | (OutOfFuel, s') => (OutOfFuel, s')
    end.

Declare Scope st_scope.
Delimit Scope st_scope with st.
Notation "x <- m ;; k" := (bind m (fun x => k))
  (at level 61, m at next level, right associativity) : st_scope.
Notation "m ;; k" := (bind m (fun _ => k))
  (at level 61, right associativity) : st_scope.
Open Scope st_scope.

Definition get {S : Type} : St S S := fun s => (Returned s, s).

Definition modify {S : Type} (f : S -> S) : St S unit := fun s => (Returned tt, f s).

(** [invariant(b)] *)
Definition invariant {S : Type} (b : bool) : St S unit :=
  fun s => if b then (Returned tt, s) else (InvariantFailed, s).

(** [uassertStatusOK(status)] *)
Definition uassertStatusOK {S : Type} (status : Status) : St S unit :=
  fun s => match status with
           | StatusOK => (Returned tt, s)
           | StatusError _ _ => (Thrown status, s)
           end.

(** *** Rollback of one change, on the shared [Data] *)

(** [swap(_dataSize, _data->dataSize); swap(_records, _data->records)] *)
Definition TruncateChange_swap (_dataSize : Z) (_records : Records) (d : Data)
  : Change * Data :=
  (TruncateChange (dataSize d) (records d),
   set_records _records (set_dataSize _dataSize d)).

(** [Change::rollback()]: the result, and the change object as the call
    leaves it. *)
Definition rollback (c : Change) : St Data Change :=
  match c with
  | InsertChange loc =>
      d <- get ;;
      match Map.find loc (records d) with
      | Some r =>
          modify (fun d => set_dataSize (dataSize d - EphemeralForTestRecord.size r) d) ;;
          modify (fun d => set_records (Map.erase loc (records d)) d) ;;
          ret c
      | None => ret c
      end
  | RemoveChange loc rec =>
      d <- get ;;
      match Map.find loc (records d) with
      | Some r =>
          modify (fun d => set_dataSize (dataSize d - EphemeralForTestRecord.size r) d)
      | None => ret tt
      end ;;
      modify (fun d => set_dataSize (dataSize d + EphemeralForTestRecord.size rec) d) ;;
      modify (fun d => set_records (Map.assign loc rec (records d)) d) ;;
      ret c
  | TruncateChange ds recs =>
      fun d => let (c', d') := TruncateChange_swap ds recs d in (Returned c', d')
  end.

(** Modelled from the spec: the transaction context (the recovery unit and
    its unit of work are not among the sources) "exposes register one
    Change", resolves each registered change once, and runs the rollbacks
    "in reverse registration order".  [_changes] is in registration order. *)
Record World : Type := mkWorld {
  _data : Data;
  _changes : list Change
}.

Definition M (A : Type) : Type := St World A.

Definition getData : M Data := fun w => (Returned (_data w), w).

Definition modifyData (f : Data -> Data) : M unit :=
  fun w => (Returned tt, {| _data := f (_data w); _changes := _changes w |}).

Definition registerChange (c : Change) : M unit :=
  fun w => (Returned tt, {| _data := _data w; _changes := _changes w ++ [c] |}).

Fixpoint rollbackEach (cs : list Change) : St Data unit :=
  match cs with
  | [] => ret tt
  | c :: rest => rollback c ;; rollbackEach rest
  end.

Definition abortUnitOfWork : M unit :=
  fun w =>
    let (r, d) := rollbackEach (rev (_changes w)) (_data w) in
    (r, {| _data := d; _changes := [] |}).

Definition commitUnitOfWork : M unit :=
  fun w => (Returned tt, {| _data := _data w; _changes := [] |}).

Definition World_new (oplog : bool) : World :=
  {| _data := Data_new oplog; _changes := [] |}.

(* ------------------------------------------------------------------ *)
(** ** The record store *)

(** [CappedCallback::aboutToDeleteCapped(opCtx, id, data)]: an external
    collaborator.  It is given the world at the time of the call (what the
    operation context lets it read) and answers with a status; it does not
    write to the store. *)
Definition CappedCallback : Type := World -> RecordId.t -> RecordData -> Status.

(** The members of [EphemeralForTestRecordStore] set by its constructor;
    [_data] lives in the [World]. *)
Record Store : Type := mkStore {
  _isCapped : bool;
  _cappedMaxSize : Z;
  _cappedMaxDocs : Z;
  _cappedCallback : option CappedCallback
}.

(** The invariants the constructor checks. *)
Definition Store_valid (s : Store) : bool :=
  if _isCapped s
  then (0 <? _cappedMaxSize s)
       && ((_cappedMaxDocs s =? -1) || (0 <? _cappedMaxDocs s))
  else (_cappedMaxSize s =? -1) && (_cappedMaxDocs s =? -1).

(** [mutablebson::DamageEvent] *)
Record DamageEvent : Type := mkDamage {
  sourceOffset : nat;
  targetOffset : nat;
  size : nat
}.

(** [memcpy(root + off, src, n)] into a buffer of fixed length: the bytes of
    [src] replace those of the buffer from [off] on.  The source's [memcpy]
    checks no bound: writing past the end of the record, or reading past the
    end of [damageSource], is undefined there.  Here such a copy is cut
    short (the bytes that do not fit are dropped, the bytes that are not
    there are not copied); the statements about the bytes written are made
    for damages within both bounds, where nothing is cut. *)
Fixpoint overwrite (target src : list byte) : list byte :=
  match target, src with
  | t :: ts, b :: bs => b :: overwrite ts bs
  | _, [] => target
  | [], _ :: _ => []
  end.

Definition memcpy_at (root : list byte) (off : nat) (src : list byte) : list byte :=
  firstn off root ++ overwrite (skipn off root) src.

Definition applyDamage (damageSource : list byte) (root : list byte) (where_ : DamageEvent)
  : list byte :=
  memcpy_at root (targetOffset where_)
            (firstn (size where_) (skipn (sourceOffset where_) damageSource)).

Section RecordStore.

(** [oploghack::extractKey], the oplog key extractor, an external
    collaborator. *)
Variable extractKey : list byte -> StatusWith RecordId.t.

(** [sizeof(EphemeralForTestRecord)], fixed by the platform. *)
Variable sizeofRecord : Z.

Variable s : Store.

(** Modelled from the spec: [numRecords] ("read current counts") is defined
    in the header, which is not among the sources: the size of the map. *)
Definition numRecords (d : Data) : Z := Map.size (records d).

Definition recordFor (loc : RecordId.t) : M EFTRecord :=
  d <- getData ;;
  match Map.find loc (records d) with
  | Some r => ret r
  | None => invariant false ;; ret (EphemeralForTestRecord.mk 0 [])
  end.

Definition dataFor (loc : RecordId.t) : M RecordData :=
  r <- recordFor loc ;;
  ret (EphemeralForTestRecord.toRecordData r).

Definition findRecord (loc : RecordId.t) : M (option RecordData) :=
  d <- getData ;;
  match Map.find loc (records d) with
  | None => ret None
  | Some r => ret (Some (EphemeralForTestRecord.toRecordData r))
  end.

Definition deleteRecord (loc : RecordId.t) : M unit :=
  rec <- recordFor loc ;;
  registerChange (RemoveChange loc rec) ;;
  modifyData (fun d => set_dataSize (dataSize d - EphemeralForTestRecord.size rec) d) ;;
  d <- getData ;;
  modifyData (fun d => set_records (Map.erase loc (records d)) d) ;;
  invariant (Map.erase_count loc (records d) =? 1).

Definition cappedAndNeedDelete (d : Data) : bool :=
  if negb (_isCapped s) then false
  else if dataSize d >? _cappedMaxSize s then true
  else if negb (_cappedMaxDocs s =? -1) && (numRecords d >? _cappedMaxDocs s) then true
  else false.

(** The [while] loop of [cappedDeleteAsNeeded]; every turn erases one record,
    so one turn per record and one more suffice. *)
Fixpoint cappedDeleteAsNeeded_loop (fuel : nat) : M unit :=
  d <- getData ;;
  if cappedAndNeedDelete d then
    match fuel with
    | O => fun w => (OutOfFuel, w)
    | S fuel' =>
        invariant (negb (Map.empty (records d))) ;;
        match records d with
        | [] => ret tt
        | (id, oldest) :: _ =>
            let data := EphemeralForTestRecord.toRecordData oldest in
            match _cappedCallback s with
            | Some cb => w <- get ;; uassertStatusOK (cb w id data)
            | None => ret tt
            end ;;
            deleteRecord id ;;
            cappedDeleteAsNeeded_loop fuel'
        end
    end
  else ret tt.

Definition cappedDeleteAsNeeded : M unit :=
  d <- getData ;;
  cappedDeleteAsNeeded_loop (S (length (records d))).

Definition extractAndCheckLocForOplog (d : Data) (data : list byte)
  : StatusWith RecordId.t :=
  match extractKey data with
  | SWError c r => SWError c r
  | SWValue key =>
      match Map.last_key (records d) with
      | Some last =>
          if key <=? last
          then SWError BadValue (OutOfOrderOplogInsert key last)
          else SWValue key
      | None => SWValue key
      end
  end.

(** [RecordId out = RecordId(_data->nextId++); invariant(out.isNormal())].
    The increment is written in [Z].  It is the increment of the source's
    [int64_t] as long as [nextId] is below the largest [int64_t]; at that
    value the id is not normal, the invariant fails, and what the source
    leaves in [nextId] is not defined by the language (a signed overflow). *)
Definition allocateLoc : M RecordId.t :=
  d <- getData ;;
  let out := nextId d in
  modifyData (set_nextId (nextId d + 1)) ;;
  invariant (RecordId.isNormal out) ;;
  ret out.

(** The lambda [insertSingleFn]: the status, and the record with its [id]
    set when the insert went through. *)
Definition insertSingleFn (record : Rec.t) : M (Status * Rec.t) :=
  let rec := EphemeralForTestRecord.ofBytes (Rec.data record) in
  d <- getData ;;
  if isOplog d then
    match extractAndCheckLocForOplog d (Rec.data record) with
    | SWError c r => ret (StatusError c r, record)
    | SWValue loc =>
        modifyData (fun d => set_dataSize (dataSize d + RecordData_size (Rec.data record)) d) ;;
        modifyData (fun d => set_records (Map.assign loc rec (records d)) d) ;;
        registerChange (InsertChange loc) ;;
        cappedDeleteAsNeeded ;;
        ret (StatusOK, Rec.mk loc (Rec.data record))
    end
  else
    loc <- allocateLoc ;;
    modifyData (fun d => set_dataSize (dataSize d + RecordData_size (Rec.data record)) d) ;;
    modifyData (fun d => set_records (Map.assign loc rec (records d)) d) ;;
    registerChange (InsertChange loc) ;;
    cappedDeleteAsNeeded ;;
    ret (StatusOK, Rec.mk loc (Rec.data record)).

(** The second [for] loop of [insertRecords]. *)
Fixpoint insertEach (inOutRecords : list Rec.t) : M (Status * list Rec.t) :=
  match inOutRecords with
  | [] => ret (StatusOK, [])
  | record :: rest =>
      r <- insertSingleFn record ;;
      match fst r with
      | StatusOK =>
          r' <- insertEach rest ;;
          ret (fst r', snd r :: snd r')
      | StatusError c e => ret (StatusError c e, snd r :: rest)
      end
  end.

Definition exceedsCappedMaxSize (record : Rec.t) : bool :=
  _isCapped s && (RecordData_size (Rec.data record) >? _cappedMaxSize s).

(** [insertRecords(opCtx, inOutRecords, timestamps)]; the timestamps are not
    read. *)
Definition insertRecords (inOutRecords : list Rec.t) : M (Status * list Rec.t) :=
  if existsb exceedsCappedMaxSize inOutRecords
  then ret (StatusError BadValue ExceedsCappedMaxSize, inOutRecords)
  else insertEach inOutRecords.

Definition updateRecord (loc : RecordId.t) (data : list byte) : M Status :=
  let len := Z.of_nat (length data) in
  oldRecord <- recordFor loc ;;
  let oldLen := EphemeralForTestRecord.size oldRecord in
  invariant (negb (_isCapped s) || (len =? oldLen)) ;;
  let newRecord := EphemeralForTestRecord.ofBytes data in
  registerChange (RemoveChange loc oldRecord) ;;
  modifyData (fun d => set_dataSize (dataSize d + (len - oldLen)) d) ;;
  modifyData (fun d => set_records (Map.assign loc newRecord (records d)) d) ;;
  cappedDeleteAsNeeded ;;
  ret StatusOK.

Definition updateWithDamagesSupported : bool := true.

(** [*oldRecord = newRecord] after the eviction loop ran: the node is
    written where it still exists (writing through the pointer to an evicted
    node is undefined in the source). *)
Definition assignThrough (loc : RecordId.t) (r : EFTRecord) (m : Records) : Records :=
  match Map.find loc m with
  | Some _ => Map.assign loc r m
  | None => m
  end.

(** [updateWithDamages(opCtx, loc, oldRec, damageSource, damages)]; [oldRec]
    is not read. *)
Definition updateWithDamages (loc : RecordId.t) (damageSource : list byte)
    (damages : list DamageEvent) : M (StatusWith RecordData) :=
  oldRecord <- recordFor loc ;;
  let len := EphemeralForTestRecord.size oldRecord in
  let newRecord :=
    EphemeralForTestRecord.mk len
      (firstn (Z.to_nat len) (EphemeralForTestRecord.data oldRecord)) in
  registerChange (RemoveChange loc oldRecord) ;;
  modifyData (fun d => set_records (Map.assign loc newRecord (records d)) d) ;;
  cappedDeleteAsNeeded ;;
  let damaged :=
    EphemeralForTestRecord.mk len
      (fold_left (applyDamage damageSource) damages
                 (EphemeralForTestRecord.data newRecord)) in
  modifyData (fun d => set_records (assignThrough loc damaged (records d)) d) ;;
  ret (SWValue (EphemeralForTestRecord.toRecordData damaged)).

(** [truncate]: the constructor of [TruncateChange] swaps the map and the
    size out; the change is then registered. *)
Definition truncate : M Status :=
  fun w =>
    let (c, d) := TruncateChange_swap 0 [] (_data w) in
    (Returned StatusOK, {| _data := d; _changes := _changes w ++ [c] |}).

(** The loop of [cappedTruncateAfter], over the nodes from [it] to the end. *)
Fixpoint cappedTruncateAfter_loop (pending : Records) : M unit :=
  match pending with
  | [] => ret tt
  | (id, record) :: rest =>
      match _cappedCallback s with
      | Some cb =>
          w <- get ;;
          uassertStatusOK (cb w id (EphemeralForTestRecord.toRecordData record))
      | None => ret tt
      end ;;
      registerChange (RemoveChange id record) ;;
      modifyData (fun d => set_dataSize (dataSize d - EphemeralForTestRecord.size record) d) ;;
      modifyData (fun d => set_records (Map.erase id (records d)) d) ;;
      cappedTruncateAfter_loop rest
  end.

Definition cappedTruncateAfter (endId : RecordId.t) (inclusive : bool) : M unit :=
  d <- getData ;;
  cappedTruncateAfter_loop
    (filter (fun p => if inclusive then endId <=? fst p else endId <? fst p) (records d)).

Definition storageSize (d : Data) : Z :=
  let recordOverhead := numRecords d * sizeofRecord in
  dataSize d + recordOverhead.

Definition oplogStartHack (startingPosition : RecordId.t) (d : Data)
  : option RecordId.t :=
  if negb (isOplog d) then None
  else if Map.empty (records d) then Some RecordId.null
  else
    match Map.lower_bound startingPosition (records d) with
    | Some k =>
        if k >? startingPosition then
          if iterator_eqb (Some k) (Map.begin (records d)) then Some RecordId.null
          else Map.below k (records d)
        else Some k
    | None =>
        if iterator_eqb None (Map.begin (records d)) then Some RecordId.null
        else Map.last_key (records d)
    end.

End RecordStore.

(* ------------------------------------------------------------------ *)
(** ** Cursors *)

(** A cursor keeps a reference to the live map of the store: every method
    takes the map as it is at the time of the call.  The methods return the
    cursor as the call leaves it. *)
Module Cursor.

Record t : Type := mk {
  _it : iterator;
  _needFirstSeek : bool;
  _lastMoveWasRestore : bool;
  _savedId : RecordId.t;
  _isCapped : bool
}.

(** [Cursor(opCtx, rs)] *)
Definition new (isCapped : bool) : t :=
  {| _it := None; _needFirstSeek := true; _lastMoveWasRestore := false;
     _savedId := RecordId.null; _isCapped := isCapped |}.

Definition next (c : t) (_records : Records) : option Rec.t * t :=
  let it :=
    if _needFirstSeek c then Map.begin _records
    else if negb (_lastMoveWasRestore c) && negb (iterator_eqb (_it c) None)
         then Map.incr (_it c) _records
         else _it c in
  let c' := {| _it := it; _needFirstSeek := false; _lastMoveWasRestore := false;
               _savedId := _savedId c; _isCapped := _isCapped c |} in
  if iterator_eqb it None then (None, c') else (Map.deref it _records, c').

Definition seekExact (c : t) (id : RecordId.t) (_records : Records) : option Rec.t * t :=
  let it := match Map.find id _records with Some _ => Some id | None => None end in
  let c' := {| _it := it; _needFirstSeek := false; _lastMoveWasRestore := false;
               _savedId := _savedId c; _isCapped := _isCapped c |} in
  if iterator_eqb it None then (None, c') else (Map.deref it _records, c').

Definition save (c : t) : t :=
  if negb (_needFirstSeek c) && negb (_lastMoveWasRestore c)
  then {| _it := _it c; _needFirstSeek := _needFirstSeek c;
          _lastMoveWasRestore := _lastMoveWasRestore c;
          _savedId := match _it c with None => RecordId.null | Some k => k end;
          _isCapped := _isCapped c |}
  else c.

Definition saveUnpositioned (c : t) : t :=
  {| _it := _it c; _needFirstSeek := _needFirstSeek c;
     _lastMoveWasRestore := _lastMoveWasRestore c;
     _savedId := RecordId.null; _isCapped := _isCapped c |}.

Definition restore (c : t) (_records : Records) : bool * t :=
  if RecordId.isNull (_savedId c)
  then (true, {| _it := None; _needFirstSeek := _needFirstSeek c;
                 _lastMoveWasRestore := _lastMoveWasRestore c;
                 _savedId := _savedId c; _isCapped := _isCapped c |})
  else
    let it := Map.lower_bound (_savedId c) _records in
    let moved :=
      match it with
      | None => true
      | Some k => negb (k =? _savedId c)
      end in
    (negb (_isCapped c && moved),
     {| _it := it; _needFirstSeek := _needFirstSeek c; _lastMoveWasRestore := moved;
        _savedId := _savedId c; _isCapped := _isCapped c |}).

End Cursor.

(** The reverse cursor holds a [const_reverse_iterator]: a forward iterator
    [base] whose designated element is the one before [base].  [rbegin()]
    has base [end()], [rend()] has base [begin()]. *)
Module ReverseCursor.

Record t : Type := mk {
  _it : iterator;   (* the base of the reverse iterator *)
  _needFirstSeek : bool;
  _lastMoveWasRestore : bool;
  _savedId : RecordId.t;
  _isCapped : bool
}.

Definition new (isCapped : bool) : t :=
  {| _it := None; _needFirstSeek := true; _lastMoveWasRestore := false;
     _savedId := RecordId.null; _isCapped := isCapped |}.

(** [it == _records.rend()] *)
Definition is_rend (base : iterator) (_records : Records) : bool :=
  iterator_eqb base (Map.begin _records).

(** [it->first], for [it != rend()] *)
Definition key_of (base : iterator) (_records : Records) : iterator :=
  Map.decr base _records.

Definition rderef (base : iterator) (_records : Records) : option Rec.t :=
  Map.deref (key_of base _records) _records.

Definition next (c : t) (_records : Records) : option Rec.t * t :=
  let it :=
    if _needFirstSeek c then None
    else if negb (_lastMoveWasRestore c) && negb (is_rend (_it c) _records)
         then Map.decr (_it c) _records
         else _it c in
  let c' := {| _it := it; _needFirstSeek := false; _lastMoveWasRestore := false;
               _savedId := _savedId c; _isCapped := _isCapped c |} in
  if is_rend it _records then (None, c') else (rderef it _records, c').

Definition seekExact (c : t) (id : RecordId.t) (_records : Records) : option Rec.t * t :=
  match Map.find id _records with
  | None =>
      (None, {| _it := Map.begin _records; _needFirstSeek := false;
                _lastMoveWasRestore := false;
                _savedId := _savedId c; _isCapped := _isCapped c |})
  | Some _ =>
      let it := Map.incr (Some id) _records in
      (rderef it _records,
       {| _it := it; _needFirstSeek := false; _lastMoveWasRestore := false;
          _savedId := _savedId c; _isCapped := _isCapped c |})
  end.

Definition save (c : t) (_records : Records) : t :=
  if negb (_needFirstSeek c) && negb (_lastMoveWasRestore c)
  then {| _it := _it c; _needFirstSeek := _needFirstSeek c;
          _lastMoveWasRestore := _lastMoveWasRestore c;
          _savedId :=
            if is_rend (_it c) _records then RecordId.null
            else match key_of (_it c) _records with
                 | Some k => k
                 | None => RecordId.null
                 end;
          _isCapped := _isCapped c |}
  else c.

Definition saveUnpositioned (c : t) : t :=
  {| _it := _it c; _needFirstSeek := _needFirstSeek c;
     _lastMoveWasRestore := _lastMoveWasRestore c;
     _savedId := RecordId.null; _isCapped := _isCapped c |}.

Definition restore (c : t) (_records : Records) : bool * t :=
  if RecordId.isNull (_savedId c)
  then (true, {| _it := Map.begin _records; _needFirstSeek := _needFirstSeek c;
                 _lastMoveWasRestore := _lastMoveWasRestore c;
                 _savedId := _savedId c; _isCapped := _isCapped c |})
  else
    let it := Map.upper_bound (_savedId c) _records in
    let moved :=
      is_rend it _records
      || match key_of it _records with
         | Some k => negb (k =? _savedId c)
         | None => true
         end in
    (negb (_isCapped c && moved),
     {| _it := it; _needFirstSeek := _needFirstSeek c; _lastMoveWasRestore := moved;
        _savedId := _savedId c; _isCapped := _isCapped c |}).

End ReverseCursor.

(** [getCursor(opCtx, forward)] *)
Definition SeekableRecordCursor : Type := (Cursor.t + ReverseCursor.t)%type.

Definition getCursor (s : Store) (forward : bool) : SeekableRecordCursor :=
  if forward then inl (Cursor.new (_isCapped s))
  else inr (ReverseCursor.new (_isCapped s)).

(* ------------------------------------------------------------------ *)
(** ** Concrete stores and payloads used by the examples *)

(** An extractor for the examples: the key is the first byte of the payload,
    and an empty payload is malformed. *)
Definition firstByteKey (payload : list byte) : StatusWith RecordId.t :=
  match payload with
  | [] => SWError BadValue (OtherReason String.EmptyString)
  | b :: _ => SWValue (Z.of_N (Byte.to_N b))
  end.

Definition plainStore : Store :=
  {| _isCapped := false; _cappedMaxSize := -1; _cappedMaxDocs := -1;
     _cappedCallback := None |}.

Definition capped8 : Store :=
  {| _isCapped := true; _cappedMaxSize := 8; _cappedMaxDocs := -1;
     _cappedCallback := None |}.

(** A callback that turns every deletion down, and the capped store of
    8 bytes with it. *)
Definition vetoAll : CappedCallback :=
  fun _ _ _ => StatusError BadValue (OtherReason String.EmptyString).

Definition capped8Veto : Store :=
  {| _isCapped := true; _cappedMaxSize := 8; _cappedMaxDocs := -1;
     _cappedCallback := Some vetoAll |}.

(** A payload of 9 bytes whose key is 3, and the capped oplog of 8 bytes
    that holds one record under the key 5. *)
Definition payloadKey3Big : list byte := [x03; x00; x00; x00; x00; x00; x00; x00; x00].

Definition cappedOplogWith5 : World :=
  {| _data := {| records := [(5, EphemeralForTestRecord.ofBytes [x05])];
                 dataSize := 1; nextId := 1; isOplog := true |};
     _changes := [InsertChange 5] |}.

Definition payloadA : list byte := [x41; x41; x41; x41; x41].
Definition payloadB : list byte := [x42; x42; x42; x42; x42].
Definition payloadC : list byte := [x43; x43; x43].
Definition payload8 : list byte := [x44; x44; x44; x44; x44; x44; x44; x44].

(** The capped store of 8 bytes after "A" then "B", 5 bytes each, were
    inserted: "A" was evicted. *)
Definition cappedAfterAB : World :=
  {| _data := {| records := [(2, EphemeralForTestRecord.ofBytes payloadB)];
                 dataSize := 5; nextId := 3; isOplog := false |};
     _changes := [InsertChange 1; InsertChange 2;
                  RemoveChange 1 (EphemeralForTestRecord.ofBytes payloadA)] |}.

(** The same store after one record of 8 bytes was inserted. *)
Definition cappedAfter8 : World :=
  {| _data := {| records := [(1, EphemeralForTestRecord.ofBytes payload8)];
                 dataSize := 8; nextId := 2; isOplog := false |};
     _changes := [InsertChange 1] |}.

Definition twoRecords : Records :=
  [(1, EphemeralForTestRecord.ofBytes payloadA);
   (2, EphemeralForTestRecord.ofBytes payloadB)].

Definition twoRecordWorld : World :=
  {| _data := {| records := twoRecords; dataSize := 10; nextId := 3; isOplog := false |};
     _changes := [] |}.

(** A map with a gap at 3, and cursors saved at 3. *)
Definition gapRecords : Records :=
  [(1, EphemeralForTestRecord.ofBytes payloadA);
   (2, EphemeralForTestRecord.ofBytes payloadB);
   (4, EphemeralForTestRecord.ofBytes payloadC)].

(** The values of the tests of [record_store_test_harness.cpp]: a
    non-capped store, each call in its own unit of work. *)
Module Harness.

Import String.

Definition cstr (text : string) : list byte :=
  (list_byte_of_string text ++ [x00])%list.

Definition eliot : list byte := cstr "eliot was here".
Definition eliotAgain : list byte := cstr "eliot was here again".

(** [insertRecord] then [uow.commit()]. *)
Definition insertCommitted (data : list byte) (w : World) : World :=
  snd (commitUnitOfWork (snd (insertRecords firstByteKey plainStore [Rec.mk 0 data] w))).

Definition afterOneInsert : World := insertCommitted eliot (World_new false).

(** Ten records "eliot0" .. "eliot9". *)
Definition eliotN (i : nat) : list byte :=
  cstr ("eliot" ++ String (Ascii.ascii_of_nat (48 + i)) EmptyString).

Definition tenRecords : World :=
  fold_left (fun w i => insertCommitted (eliotN i) w) (seq 0 10) (World_new false).

Definition aaa111bbb : list byte := cstr "aaa111bbb".
Definition aaa222bbb : list byte := cstr "aaa222bbb".
Definition damageSource222 : list byte := list_byte_of_string "222".

End Harness.

(* ------------------------------------------------------------------ *)
(** ** Vocabulary of the statements

    Intermediate worlds of the operations, the invariant of the shared
    state, runs of calls, and positions of cursors. *)

(** The size of the record at [k], 0 when there is none. *)
Definition found_size (k : RecordId.t) (m : Records) : Z :=
  match Map.find k m with
  | Some r => EphemeralForTestRecord.size r
  | None => 0
  end.

Definition removeChangeOf (p : RecordId.t * EFTRecord) : Change :=
  RemoveChange (fst p) (snd p).

(** [w'] is [w] after the records [evicted], the oldest ones, were deleted
    one by one. *)
Definition evicts (evicted : Records) (w w' : World) : Prop :=
  records (_data w) = evicted ++ records (_data w')
  /\ dataSize (_data w') = dataSize (_data w) - Map.sumSizes evicted
  /\ nextId (_data w') = nextId (_data w)
  /\ isOplog (_data w') = isOplog (_data w)
  /\ _changes w' = _changes w ++ map removeChangeOf evicted.

(** The world after the oldest record was deleted. *)
Definition afterDeleteOldest (w : World) (id : RecordId.t) (oldest : EFTRecord)
    (tl : Records) : World :=
  {| _data :=
       set_records tl
         (set_dataSize (dataSize (_data w) - EphemeralForTestRecord.size oldest) (_data w));
     _changes := _changes w ++ [RemoveChange id oldest] |}.

(** [_data->dataSize += n; _data->records[loc] = rec; registerChange(..)] *)
Definition afterInsert (w : World) (loc : RecordId.t) (rec : EFTRecord) : World :=
  {| _data :=
       set_records (Map.assign loc rec (records (_data w)))
         (set_dataSize (dataSize (_data w) + EphemeralForTestRecord.size rec) (_data w));
     _changes := _changes w ++ [InsertChange loc] |}.

(** [nextId++] *)
Definition bumpNextId (w : World) : World :=
  {| _data := set_nextId (nextId (_data w) + 1) (_data w); _changes := _changes w |}.

(** The world after the record at [loc] was replaced and the old one put in
    a [RemoveChange]. *)
Definition afterReplace (w : World) (loc : RecordId.t) (old new : EFTRecord) : World :=
  {| _data :=
       set_records (Map.assign loc new (records (_data w)))
         (set_dataSize
            (dataSize (_data w)
             + (EphemeralForTestRecord.size new - EphemeralForTestRecord.size old))
            (_data w));
     _changes := _changes w ++ [RemoveChange loc old] |}.

(** The tail of [insertSingleFn] once the id is known. *)
Definition finishInsert (s : Store) (loc : RecordId.t) (data : RecordData) (w : World)
  : Result (Status * Rec.t) * World :=
  match cappedDeleteAsNeeded s (afterInsert w loc (EphemeralForTestRecord.ofBytes data)) with
  | (Returned _, w') => (Returned (StatusOK, Rec.mk loc data), w')
  | (Thrown e, w') => (Thrown e, w')
  | (InvariantFailed, w') => (InvariantFailed, w')
  | (OutOfFuel, w') => (OutOfFuel, w')
  end.

(** The record with its payload, as the map holds it. *)
Definition entryOf (r : Rec.t) : RecordId.t * EFTRecord :=
  (Rec.id r, EphemeralForTestRecord.ofBytes (Rec.data r)).

(** A successful insert of one record: it got the id [Rec.id out], above
    every id present; the map is the old one with the new record at its end,
    less the evicted prefix. *)
Definition inserted (s : Store) (out : Rec.t) (evicted : Records) (w w' : World) : Prop :=
  Forall (fun k => k < Rec.id out) (Map.keys (records (_data w)))
  /\ records (_data w) ++ [entryOf out] = evicted ++ records (_data w')
  /\ dataSize (_data w')
     = dataSize (_data w) + RecordData_size (Rec.data out) - Map.sumSizes evicted
  /\ nextId (_data w) <= nextId (_data w')
  /\ isOplog (_data w') = isOplog (_data w)
  /\ _changes w'
     = _changes w ++ InsertChange (Rec.id out) :: map removeChangeOf evicted
  /\ cappedAndNeedDelete s (_data w') = false.

(** *** Evictions, one by one *)

(** From [w] to [w'] the records [evicted] were deleted one after the other,
    as a turn of the [while] loop of [cappedDeleteAsNeeded] does it: each one
    in a world where [cappedAndNeedDelete] holds, each one the record with
    the lowest key of that world, and each one after the callback, when the
    store has one, answered OK for it in that world. *)
Inductive evictsWhileNeeded (s : Store) : Records -> World -> World -> Prop :=
| evictsWhileNeeded_done w : evictsWhileNeeded s [] w w
| evictsWhileNeeded_turn w id oldest tl evicted w' :
    cappedAndNeedDelete s (_data w) = true ->
    records (_data w) = (id, oldest) :: tl ->
    match _cappedCallback s with
    | Some cb => cb w id (EphemeralForTestRecord.toRecordData oldest) = StatusOK
    | None => True
    end ->
    evictsWhileNeeded s evicted (afterDeleteOldest w id oldest tl) w' ->
    evictsWhileNeeded s ((id, oldest) :: evicted) w w'.

(** The records [outs] were inserted one after the other, as the lambda
    [insertSingleFn] does it: the record is put into the map under its id
    (the extracted key in an oplog, the value of the allocator otherwise,
    which is then advanced), its [InsertChange] is registered, and then
    records are evicted as above until [cappedAndNeedDelete] fails. *)
Inductive insertedEach (s : Store) : World -> list Rec.t -> World -> Prop :=
| insertedEach_nil w : insertedEach s w [] w
| insertedEach_cons w w0 out evicted w1 outs w2 :
    (isOplog (_data w) = true /\ w0 = w)
    \/ (isOplog (_data w) = false /\ w0 = bumpNextId w
        /\ Rec.id out = nextId (_data w)) ->
    evictsWhileNeeded s evicted
      (afterInsert w0 (Rec.id out) (EphemeralForTestRecord.ofBytes (Rec.data out))) w1 ->
    cappedAndNeedDelete s (_data w1) = false ->
    insertedEach s w1 outs w2 ->
    insertedEach s w (out :: outs) w2.

(** The capped bound in the words of the specification, on the map alone:
    the total size of the records is above [cappedMaxSize], or
    [cappedMaxDocs] is set and the number of records is above it. *)
Definition overBounds (s : Store) (m : Records) : bool :=
  _isCapped s
  && ((Map.sumSizes m >? _cappedMaxSize s)
      || (negb (_cappedMaxDocs s =? -1) && (Map.size m >? _cappedMaxDocs s))).

(** "While the store is over its bounds, delete the record with the lowest
    key": what is left of an ordered map. *)
Fixpoint evictOldest (s : Store) (m : Records) : Records :=
  match m with
  | [] => []
  | _ :: tl => if overBounds s m then evictOldest s tl else m
  end.

(** The records that survive when the records [log] are inserted in turn
    into the map [m0], the eviction running after every insert. *)
Definition survivors (s : Store) (log : list Rec.t) (m0 : Records) : Records :=
  fold_left (fun m out => evictOldest s (m ++ [entryOf out])) log m0.

(** *** Damages *)

(** The damage writes the byte at offset [i] of the record. *)
Definition damageCovers (ev : DamageEvent) (i : nat) : bool :=
  (targetOffset ev <=? i)%nat && (i <? targetOffset ev + size ev)%nat.

(** Every damage lies within a record of [recordLen] bytes and reads within
    a source of [sourceLen] bytes. *)
Definition damagesInBounds (recordLen sourceLen : nat) (damages : list DamageEvent)
  : Prop :=
  Forall (fun ev => (targetOffset ev + size ev <= recordLen)%nat
                    /\ (sourceOffset ev + size ev <= sourceLen)%nat) damages.

(** The byte at offset [i] once the damages were applied in order: the byte
    of the source that the last damage covering [i] copies there, the old
    byte when no damage covers [i]. *)
Definition byteAfterDamages (damageSource : list byte) (damages : list DamageEvent)
    (old : list byte) (i : nat) : option byte :=
  match List.find (fun ev => damageCovers ev i) (rev damages) with
  | Some ev => nth_error damageSource (sourceOffset ev + (i - targetOffset ev))
  | None => nth_error old i
  end.

(** *** The invariant of the shared state *)

(** The map is ordered, the byte counter is the sum of the sizes of the
    records present, and in a store that allocates its ids every id in use is
    below the allocator. *)
Definition wfRecords (oplog : bool) (nid : Z) (m : Records) (ds : Z) : Prop :=
  Map.ordered m
  /\ ds = Map.sumSizes m
  /\ (oplog = false -> Forall (fun k => k < nid) (Map.keys m)).

Definition wfData (d : Data) : Prop :=
  wfRecords (isOplog d) (nextId d) (records d) (dataSize d).

(** What a registered change holds is consistent as well. *)
Definition wfChange (oplog : bool) (nid : Z) (c : Change) : Prop :=
  match c with
  | InsertChange _ => True
  | RemoveChange loc _ => oplog = false -> loc < nid
  | TruncateChange ds recs => wfRecords oplog nid recs ds
  end.

Definition wfWorld (w : World) : Prop :=
  wfData (_data w)
  /\ Forall (wfChange (isOplog (_data w)) (nextId (_data w))) (_changes w).

(** The callback, when there is one, lets every deletion through. *)
Definition callbackAccepts (s : Store) : Prop :=
  match _cappedCallback s with
  | Some cb => forall w id data, cb w id data = StatusOK
  | None => True
  end.

(** *** Runs of calls *)

(** A run of [insertRecords] calls that all returned OK, with the records
    they returned (ids set), in order. *)
Inductive insertsOk (extractKey : list byte -> StatusWith RecordId.t) (s : Store)
  : World -> list (list Rec.t) -> list Rec.t -> World -> Prop :=
| insertsOk_nil w : insertsOk extractKey s w [] [] w
| insertsOk_cons w batch batches outs w1 log w2 :
    insertRecords extractKey s batch w = (Returned (StatusOK, outs), w1) ->
    insertsOk extractKey s w1 batches log w2 ->
    insertsOk extractKey s w (batch :: batches) (outs ++ log) w2.

(** The map ends with the last record of the log. *)
Definition endsWith (log : list Rec.t) (m : Records) : Prop :=
  forall older newest, log = older ++ [newest] ->
  exists kept, m = kept ++ [entryOf newest].

(** The mutating calls of the store, and the end of a unit of work.  The
    eviction loop runs inside the inserts and the updates. *)
Inductive Op : Type :=
| OpInsertRecords (inOutRecords : list Rec.t)
| OpUpdateRecord (loc : RecordId.t) (data : list byte)
| OpUpdateWithDamages (loc : RecordId.t) (damageSource : list byte)
    (damages : list DamageEvent)
| OpDeleteRecord (loc : RecordId.t)
| OpTruncate
| OpCappedTruncateAfter (endId : RecordId.t) (inclusive : bool)
| OpCommit
| OpRollback.

(** The world a call leaves, however the call ends. *)
Definition step (extractKey : list byte -> StatusWith RecordId.t) (s : Store)
    (w : World) (op : Op) : World :=
  match op with
  | OpInsertRecords batch => snd (insertRecords extractKey s batch w)
  | OpUpdateRecord loc data => snd (updateRecord s loc data w)
  | OpUpdateWithDamages loc src damages => snd (updateWithDamages s loc src damages w)
  | OpDeleteRecord loc => snd (deleteRecord loc w)
  | OpTruncate => snd (truncate w)
  | OpCappedTruncateAfter endId inclusive => snd (cappedTruncateAfter s endId inclusive w)
  | OpCommit => snd (commitUnitOfWork w)
  | OpRollback => snd (abortUnitOfWork w)
  end.

Definition runOps (extractKey : list byte -> StatusWith RecordId.t) (s : Store)
    (ops : list Op) (w : World) : World :=
  fold_left (step extractKey s) ops w.

(** A history of one unit of work on the capped store of 8 bytes. *)
Definition mixedHistory : list Op :=
  [OpInsertRecords [Rec.mk 0 payloadA; Rec.mk 0 payloadB];
   OpUpdateRecord 3 payloadA;
   OpUpdateWithDamages 3 payloadC [mkDamage 0 1 3];
   OpInsertRecords [Rec.mk 0 payloadC];
   OpDeleteRecord 3;
   OpTruncate;
   OpInsertRecords [Rec.mk 0 payload8];
   OpCappedTruncateAfter 4 true].

(** *** Undoing a unit of work *)

(** The same map and the same byte counter. *)
Definition sameContents (d1 d2 : Data) : Prop :=
  records d1 = records d2 /\ dataSize d1 = dataSize d2.

(** From [w] to [w'] the changes [new] were registered, and rolling them
    back, last registered first, gives the contents of [w] again. *)
Definition undoes (new : list Change) (w w' : World) : Prop :=
  _changes w' = _changes w ++ new
  /\ sameContents (snd (rollbackEach (rev new) (_data w'))) (_data w).

Definition isCommit (op : Op) : bool :=
  match op with OpCommit => true | _ => false end.

(** *** The allocator of ids *)

(** From [d] to [d'] the allocator did not go back and the oplog flag is the
    same. *)
Definition allocatorAdvances (d d' : Data) : Prop :=
  nextId d <= nextId d' /\ isOplog d' = isOplog d.

(** The ids [first], [first + 1], ... handed out to [n] records. *)
Definition consecutiveIds (first : RecordId.t) (n : nat) : list RecordId.t :=
  map (fun i => first + Z.of_nat i) (seq 0 n).

(** *** Positions of cursors *)

(** [it] designates the first key at or above [k], or is [end()] when there
    is none. *)
Definition firstKeyAtLeast (k : RecordId.t) (m : Records) (it : iterator) : Prop :=
  match it with
  | Some j =>
      In j (Map.keys m) /\ k <= j
      /\ forall i, In i (Map.keys m) -> k <= i -> j <= i
  | None => forall i, In i (Map.keys m) -> i < k
  end.

(** [it] designates the first key above [k]. *)
Definition firstKeyAbove (k : RecordId.t) (m : Records) (it : iterator) : Prop :=
  match it with
  | Some j =>
      In j (Map.keys m) /\ k < j
      /\ forall i, In i (Map.keys m) -> k < i -> j <= i
  | None => forall i, In i (Map.keys m) -> i <= k
  end.

(** [it] designates the first key at or below [k] in descending order, or
    nothing when there is none. *)
Definition firstKeyAtMost (k : RecordId.t) (m : Records) (it : iterator) : Prop :=
  match it with
  | Some j =>
      In j (Map.keys m) /\ j <= k
      /\ forall i, In i (Map.keys m) -> i <= k -> i <= j
  | None => forall i, In i (Map.keys m) -> k < i
  end.

(** What a cursor returns for a node of the map:
    [{it->first, it->second.toRecordData()}]. *)
Definition recordAt (p : RecordId.t * EFTRecord) : Rec.t :=
  Rec.mk (fst p) (EphemeralForTestRecord.toRecordData (snd p)).

(** The results of successive [next()] calls, one per map: the cursor reads
    the live map, which may change between the calls. *)
Fixpoint Cursor_nexts (c : Cursor.t) (ms : list Records) : list (option Rec.t) :=
  match ms with
  | [] => []
  | m :: rest => fst (Cursor.next c m) :: Cursor_nexts (snd (Cursor.next c m)) rest
  end.

Fixpoint ReverseCursor_nexts (c : ReverseCursor.t) (ms : list Records)
  : list (option Rec.t) :=
  match ms with
  | [] => []
  | m :: rest =>
      fst (ReverseCursor.next c m) :: ReverseCursor_nexts (snd (ReverseCursor.next c m)) rest
  end.

(* ------------------------------------------------------------------ *)
(** ** Facts about the ordered map *)

Module MapFacts.

Import Map.

Lemma ordered_nil : ordered [].
Proof. constructor. Qed.

Lemma ordered_inv k v m :
  ordered ((k, v) :: m) -> ordered m /\ Forall (Z.lt k) (keys m).
Proof.
  unfold ordered; simpl; intros H.
  apply StronglySorted_inv in H. exact H.
Qed.

Lemma ordered_cons k v m :
  ordered m -> Forall (Z.lt k) (keys m) -> ordered ((k, v) :: m).
Proof.
  unfold ordered; simpl; intros; constructor; assumption.
Qed.

Lemma find_none_iff k m : find k m = None <-> ~ In k (keys m).
Proof.
  induction m as [|[k' v] m IH]; simpl.
  - tauto.
  - destruct (Z.eqb_spec k' k) as [->|N].
    + split; [discriminate | intros H; exfalso; apply H; now left].
    + rewrite IH. split; intros H.
      * intros [E|I]; [congruence | tauto].
      * intros I; apply H; now right.
Qed.

Lemma find_some_in k m r : find k m = Some r -> In k (keys m).
Proof.
  intros H. destruct (in_dec Z.eq_dec k (keys m)) as [I|N]; [exact I|].
  apply find_none_iff in N. congruence.
Qed.

Lemma find_below_head k k' v m :
  ordered ((k', v) :: m) -> k < k' -> find k ((k', v) :: m) = None.
Proof.
  intros O L. apply find_none_iff. simpl. intros [E|I]; [lia|].
  apply ordered_inv in O as [_ F].
  rewrite Forall_forall in F. specialize (F _ I). lia.
Qed.

Lemma keys_assign_Forall (P : Z -> Prop) k v m :
  P k -> Forall P (keys m) -> Forall P (keys (assign k v m)).
Proof.
  intros Pk. induction m as [|[k' v'] m IH]; simpl; intros F.
  - constructor; [exact Pk | constructor].
  - inversion F; subst.
    destruct (k <? k'); [|destruct (k =? k')]; simpl;
      repeat constructor; auto.
Qed.

Lemma keys_erase_Forall (P : Z -> Prop) k m :
  Forall P (keys m) -> Forall P (keys (erase k m)).
Proof.
  induction m as [|[k' v'] m IH]; simpl; intros F; [constructor|].
  inversion F; subst.
  destruct (k' =? k); simpl; [assumption | constructor; auto].
Qed.

Lemma ordered_assign k v m : ordered m -> ordered (assign k v m).
Proof.
  induction m as [|[k' v'] m IH]; simpl; intros O.
  - apply ordered_cons; [apply ordered_nil | constructor].
  - pose proof (ordered_inv _ _ _ O) as [Om F].
    destruct (Z.ltb_spec k k') as [L|G].
    + apply ordered_cons; [exact O|].
      simpl. constructor; [exact L|].
      eapply Forall_impl; [|exact F]. simpl; intros; lia.
    + destruct (Z.eqb_spec k k') as [->|N].
      * apply ordered_cons; assumption.
      * apply ordered_cons; [auto|].
        apply keys_assign_Forall; [lia | exact F].
Qed.

Lemma ordered_erase k m : ordered m -> ordered (erase k m).
Proof.
  induction m as [|[k' v'] m IH]; simpl; intros O; [exact O|].
  pose proof (ordered_inv _ _ _ O) as [Om F].
  destruct (k' =? k); [exact Om|].
  apply ordered_cons; [auto | apply keys_erase_Forall; exact F].
Qed.

Lemma sumSizes_app m1 m2 : sumSizes (m1 ++ m2) = sumSizes m1 + sumSizes m2.
Proof.
  induction m1 as [|p m1 IH]; simpl; [reflexivity|].
  unfold sumSizes in *; simpl. rewrite IH. lia.
Qed.

Lemma sumSizes_cons p m :
  sumSizes (p :: m) = EphemeralForTestRecord.size (snd p) + sumSizes m.
Proof. reflexivity. Qed.

Lemma sumSizes_assign k v m :
  ordered m ->
  sumSizes (assign k v m)
  = sumSizes m + EphemeralForTestRecord.size v - found_size k m.
Proof.
  induction m as [|[k' v'] m IH]; intros O.
  - unfold found_size; simpl. unfold sumSizes; simpl. lia.
  - pose proof (ordered_inv _ _ _ O) as [Om F].
    simpl assign.
    destruct (Z.ltb_spec k k') as [L|G].
    + unfold found_size. rewrite (find_below_head _ _ _ _ O L).
      rewrite sumSizes_cons. simpl. lia.
    + unfold found_size; simpl find.
      destruct (Z.eqb_spec k k') as [->|N].
      * rewrite Z.eqb_refl. rewrite !sumSizes_cons. simpl. lia.
      * destruct (Z.eqb_spec k' k) as [E|_]; [congruence|].
        rewrite !sumSizes_cons, (IH Om). unfold found_size. simpl. lia.
Qed.

Lemma sumSizes_erase k m :
  sumSizes (erase k m) = sumSizes m - found_size k m.
Proof.
  induction m as [|[k' v'] m IH]; unfold found_size; simpl.
  - reflexivity.
  - destruct (Z.eqb_spec k' k) as [->|N].
    + rewrite sumSizes_cons. simpl. lia.
    + rewrite !sumSizes_cons, IH. unfold found_size. simpl. lia.
Qed.

Lemma assign_last k v m :
  Forall (fun k' => k' < k) (keys m) -> assign k v m = m ++ [(k, v)].
Proof.
  induction m as [|[k' v'] m IH]; simpl; intros F; [reflexivity|].
  inversion F; subst.
  destruct (Z.ltb_spec k k'); [lia|].
  destruct (Z.eqb_spec k k'); [lia|].
  now rewrite IH.
Qed.

Lemma last_key_app m k v : last_key (m ++ [(k, v)]) = Some k.
Proof.
  induction m as [|[k' v'] m IH]; simpl; [reflexivity|].
  destruct (m ++ [(k, v)]) eqn:E; [destruct m; discriminate | exact IH].
Qed.

Lemma last_key_none m : last_key m = None -> m = [].
Proof.
  induction m as [|[k v] m IH]; simpl; [reflexivity|].
  destruct m; [discriminate|]. intros H. specialize (IH H). discriminate.
Qed.

Lemma last_key_max m l :
  ordered m -> last_key m = Some l -> Forall (fun k => k <= l) (keys m).
Proof.
  induction m as [|[k v] m IH]; simpl; intros O H; [constructor|].
  pose proof (ordered_inv _ _ _ O) as [Om F].
  destruct m as [|p m'].
  - inversion H; subst. constructor; [lia | constructor].
  - specialize (IH Om H). constructor; [|exact IH].
    inversion F; subst. inversion IH; subst. lia.
Qed.

Lemma find_app_last m k v :
  ~ In k (keys m) -> find k (m ++ [(k, v)]) = Some v.
Proof.
  induction m as [|[k' v'] m IH]; simpl; intros N.
  - now rewrite Z.eqb_refl.
  - destruct (Z.eqb_spec k' k) as [E|_]; [exfalso; apply N; now left|].
    apply IH. intros I; apply N; now right.
Qed.

Lemma find_app_old m k j v :
  In j (keys m) -> find j (m ++ [(k, v)]) = find j m.
Proof.
  induction m as [|[k' v'] m IH]; simpl; intros I; [contradiction|].
  destruct (Z.eqb_spec k' j) as [E|N]; [reflexivity|].
  apply IH. destruct I; [congruence | assumption].
Qed.

End MapFacts.

(* ------------------------------------------------------------------ *)
(** ** The eviction loop *)

Section Eviction.

Variable s : Store.

Lemma evicts_refl w : evicts [] w w.
Proof.
  unfold evicts; simpl. rewrite app_nil_r.
  repeat split; try reflexivity. unfold Map.sumSizes; simpl; lia.
Qed.

Lemma deleteRecord_oldest w id oldest tl :
  records (_data w) = (id, oldest) :: tl ->
  deleteRecord id w = (Returned tt, afterDeleteOldest w id oldest tl).
Proof.
  intros E.
  unfold deleteRecord, recordFor, bind, getData, registerChange, modifyData,
    invariant, ret, Map.erase_count; simpl.
  rewrite E; simpl. rewrite Z.eqb_refl; simpl.
  rewrite E; simpl. rewrite Z.eqb_refl; simpl.
  reflexivity.
Qed.

Lemma evicts_step w id oldest tl evicted w' :
  records (_data w) = (id, oldest) :: tl ->
  evicts evicted (afterDeleteOldest w id oldest tl) w' ->
  evicts ((id, oldest) :: evicted) w w'.
Proof.
  intros E (R & D & N & O & C). unfold afterDeleteOldest in *; simpl in *.
  unfold evicts. rewrite E, R, D, N, O, C.
  repeat split; try reflexivity.
  - rewrite MapFacts.sumSizes_cons. simpl. lia.
  - rewrite <- app_assoc. reflexivity.
Qed.

Lemma loop_unfold fuel w :
  cappedDeleteAsNeeded_loop s fuel w =
  if cappedAndNeedDelete s (_data w) then
    match fuel with
    | O => (OutOfFuel, w)
    | S fuel' =>
        match records (_data w) with
        | [] => (InvariantFailed, w)
        | (id, oldest) :: tl =>
            match _cappedCallback s with
            | Some cb =>
                match cb w id (EphemeralForTestRecord.toRecordData oldest) with
                | StatusOK =>
                    cappedDeleteAsNeeded_loop s fuel' (afterDeleteOldest w id oldest tl)
                | StatusError c e => (Thrown (StatusError c e), w)
                end
            | None =>
                cappedDeleteAsNeeded_loop s fuel' (afterDeleteOldest w id oldest tl)
            end
        end
    end
  else (Returned tt, w).
Proof.
  destruct fuel as [|fuel']; simpl; unfold bind at 1; unfold getData at 1;
    destruct (cappedAndNeedDelete s (_data w)); try reflexivity.
  destruct (records (_data w)) as [|[id oldest] tl] eqn:E;
    unfold bind, invariant, ret; simpl; [reflexivity|].
  destruct (_cappedCallback s) as [cb|]; unfold uassertStatusOK, get.
  - destruct (cb w id (EphemeralForTestRecord.toRecordData oldest)); [|reflexivity].
    rewrite (deleteRecord_oldest w id oldest tl E). reflexivity.
  - rewrite (deleteRecord_oldest w id oldest tl E). reflexivity.
Qed.

(** Whatever the loop does, it only deletes a prefix of the map, each
    deletion with its [RemoveChange]; when it returns the store is within its
    bounds. *)
Lemma loop_shape fuel : forall w r w',
  cappedDeleteAsNeeded_loop s fuel w = (r, w') ->
  exists evicted,
    evicts evicted w w'
    /\ (r = Returned tt -> cappedAndNeedDelete s (_data w') = false).
Proof.
  induction fuel as [|fuel IH]; intros w r w' H; rewrite loop_unfold in H.
  - destruct (cappedAndNeedDelete s (_data w)) eqn:N;
      inversion H; subst; exists []; split;
      try apply evicts_refl; try discriminate; auto.
  - destruct (cappedAndNeedDelete s (_data w)) eqn:N.
    2:{ inversion H; subst. exists []. split; [apply evicts_refl | auto]. }
    destruct (records (_data w)) as [|[id oldest] tl] eqn:E.
    { inversion H; subst. exists []. split; [apply evicts_refl | discriminate]. }
    assert (K : forall r w', cappedDeleteAsNeeded_loop s fuel
                  (afterDeleteOldest w id oldest tl) = (r, w') ->
            exists evicted, evicts evicted w w'
              /\ (r = Returned tt -> cappedAndNeedDelete s (_data w') = false)).
    { intros r0 w0 H0. destruct (IH _ _ _ H0) as (ev & Ev & Done).
      exists ((id, oldest) :: ev). split; [|exact Done].
      eapply evicts_step; eauto. }
    destruct (_cappedCallback s) as [cb|]; [|now apply K].
    destruct (cb w id (EphemeralForTestRecord.toRecordData oldest)); [now apply K|].
    inversion H; subst. exists []. split; [apply evicts_refl | discriminate].
Qed.

(** The loop terminates: with one unit of fuel per record and one more it
    never runs out. *)
Lemma loop_fuel fuel : forall w,
  (length (records (_data w)) < fuel)%nat ->
  fst (cappedDeleteAsNeeded_loop s fuel w) <> OutOfFuel.
Proof.
  induction fuel as [|fuel IH]; intros w L; [lia|].
  rewrite loop_unfold.
  destruct (cappedAndNeedDelete s (_data w)); [|discriminate].
  destruct (records (_data w)) as [|[id oldest] tl] eqn:E; [discriminate|].
  assert (L' : (length (records (_data (afterDeleteOldest w id oldest tl))) < fuel)%nat)
    by (simpl in *; lia).
  destruct (_cappedCallback s) as [cb|]; [|now apply IH].
  destruct (cb w id (EphemeralForTestRecord.toRecordData oldest)); [now apply IH|].
  discriminate.
Qed.

Lemma cappedDeleteAsNeeded_eq w :
  cappedDeleteAsNeeded s w
  = cappedDeleteAsNeeded_loop s (S (length (records (_data w)))) w.
Proof. reflexivity. Qed.

Lemma cappedDeleteAsNeeded_shape w r w' :
  cappedDeleteAsNeeded s w = (r, w') ->
  exists evicted,
    evicts evicted w w'
    /\ (r = Returned tt -> cappedAndNeedDelete s (_data w') = false).
Proof. rewrite cappedDeleteAsNeeded_eq. apply loop_shape. Qed.

Lemma cappedDeleteAsNeeded_terminates w :
  fst (cappedDeleteAsNeeded s w) <> OutOfFuel.
Proof. rewrite cappedDeleteAsNeeded_eq. apply loop_fuel. lia. Qed.

End Eviction.

(* ------------------------------------------------------------------ *)
(** ** The invariant of the shared state *)

Section Invariant.

Import MapFacts.

Lemma wfRecords_mono oplog nid nid' m ds :
  nid <= nid' -> wfRecords oplog nid m ds -> wfRecords oplog nid' m ds.
Proof.
  intros L (O & D & F). repeat split; auto.
  intros E. eapply Forall_impl; [|exact (F E)]. simpl; intros; lia.
Qed.

Lemma wfChange_mono oplog nid nid' c :
  nid <= nid' -> wfChange oplog nid c -> wfChange oplog nid' c.
Proof.
  intros L. destruct c; simpl; auto.
  - intros H E. specialize (H E). lia.
  - apply wfRecords_mono; exact L.
Qed.

Lemma ordered_app_r a b : Map.ordered (a ++ b) -> Map.ordered b.
Proof.
  induction a as [|[k v] a IH]; simpl; intros O; [exact O|].
  apply ordered_inv in O as [O _]. auto.
Qed.

Lemma ordered_app_lt a b k j :
  Map.ordered (a ++ b) -> In k (Map.keys a) -> In j (Map.keys b) -> k < j.
Proof.
  induction a as [|[k' v] a IH]; simpl; intros O Ik Ij; [contradiction|].
  apply ordered_inv in O as [O F].
  destruct Ik as [->|Ik]; [|eauto].
  rewrite Forall_forall in F. apply F.
  unfold Map.keys. rewrite map_app. apply in_or_app. now right.
Qed.

Lemma wfWorld_evicts evicted w w' :
  wfWorld w -> evicts evicted w w' -> wfWorld w'.
Proof.
  intros [(O & D & F) C] (R & D' & N & I & C').
  unfold wfWorld, wfData, wfRecords. rewrite N, I, C', D'.
  rewrite R in O, D, F. repeat split.
  - eapply ordered_app_r; exact O.
  - rewrite D, sumSizes_app. lia.
  - intros E. specialize (F E). unfold Map.keys in F. rewrite map_app in F.
    apply Forall_app in F. tauto.
  - apply Forall_app. split; [exact C|].
    apply Forall_forall. intros c Hc. apply in_map_iff in Hc as ([k r] & <- & Hp).
    simpl. intros E. specialize (F E). rewrite Forall_forall in F. apply F.
    unfold Map.keys. rewrite map_app. apply in_or_app. left.
    change k with (fst (k, r)). now apply in_map.
Qed.

Lemma wfWorld_afterInsert w loc rec :
  wfWorld w ->
  Map.find loc (records (_data w)) = None ->
  (isOplog (_data w) = false -> loc < nextId (_data w)) ->
  wfWorld (afterInsert w loc rec).
Proof.
  intros [(O & D & F) C] Fresh L.
  unfold wfWorld, wfData, wfRecords, afterInsert; simpl. repeat split.
  - now apply ordered_assign.
  - rewrite sumSizes_assign by exact O. unfold found_size. rewrite Fresh. lia.
  - intros E. apply keys_assign_Forall; auto.
  - apply Forall_app. split; [exact C | repeat constructor].
Qed.

Lemma wfWorld_bumpNextId w : wfWorld w -> wfWorld (bumpNextId w).
Proof.
  intros [W C]. unfold wfWorld, wfData, bumpNextId; simpl. split.
  - eapply wfRecords_mono; [|exact W]. lia.
  - eapply Forall_impl; [|exact C]. intros c. apply wfChange_mono. lia.
Qed.

Lemma fresh_nextId w :
  wfWorld w -> isOplog (_data w) = false ->
  Map.find (nextId (_data w)) (records (_data w)) = None.
Proof.
  intros [(_ & _ & F) _] E. apply find_none_iff. intros I.
  specialize (F E). rewrite Forall_forall in F. specialize (F _ I). lia.
Qed.

Lemma fresh_above_last m key :
  Map.ordered m ->
  match Map.last_key m with Some last => last < key | None => True end ->
  Forall (fun k => k < key) (Map.keys m).
Proof.
  intros O H. destruct (Map.last_key m) as [last|] eqn:E.
  - eapply Forall_impl; [|exact (last_key_max _ _ O E)]. simpl; intros; lia.
  - apply last_key_none in E. subst. constructor.
Qed.

Lemma Forall_lt_fresh m key :
  Forall (fun k => k < key) (Map.keys m) -> Map.find key m = None.
Proof.
  intros F. apply find_none_iff. intros I.
  rewrite Forall_forall in F. specialize (F _ I). lia.
Qed.

End Invariant.

(* ------------------------------------------------------------------ *)
(** ** The newest record survives the eviction loop *)

Section NewestSurvives.

Import MapFacts.

Variable s : Store.
Hypothesis valid : Store_valid s = true.

Lemma no_need_singleton d x :
  records d = [x] ->
  dataSize d = EphemeralForTestRecord.size (snd x) ->
  (_isCapped s = true -> EphemeralForTestRecord.size (snd x) <= _cappedMaxSize s) ->
  cappedAndNeedDelete s d = false.
Proof.
  intros R D Fit. unfold cappedAndNeedDelete, numRecords, Map.size.
  unfold Store_valid in valid.
  destruct (_isCapped s); simpl; [|reflexivity].
  specialize (Fit eq_refl). rewrite R, D; simpl.
  apply andb_true_iff in valid as [_ V].
  destruct (Z.gtb_spec (EphemeralForTestRecord.size (snd x)) (_cappedMaxSize s)); [lia|].
  destruct (Z.eqb_spec (_cappedMaxDocs s) (-1)); simpl; [reflexivity|].
  destruct (Z.ltb_spec 0 (_cappedMaxDocs s)); [|discriminate].
  destruct (Z.gtb_spec 1 (_cappedMaxDocs s)); [lia | reflexivity].
Qed.

(** Started on a map whose last record fits the store on its own, the loop
    keeps that record, never fails an invariant, never runs out of fuel, and
    returns when the callback accepts. *)
Lemma loop_keeps_last fuel : forall w pre x,
  records (_data w) = pre ++ [x] ->
  dataSize (_data w) = Map.sumSizes (records (_data w)) ->
  (_isCapped s = true -> EphemeralForTestRecord.size (snd x) <= _cappedMaxSize s) ->
  (length pre < fuel)%nat ->
  exists r w' kept,
    cappedDeleteAsNeeded_loop s fuel w = (r, w')
    /\ records (_data w') = kept ++ [x]
    /\ r <> InvariantFailed /\ r <> OutOfFuel
    /\ (callbackAccepts s -> r = Returned tt).
Proof.
  induction fuel as [|fuel IH]; intros w pre x R D Fit L; [lia|].
  rewrite loop_unfold.
  destruct (cappedAndNeedDelete s (_data w)) eqn:N.
  2:{ exists (Returned tt), w, pre. repeat split; auto; discriminate. }
  destruct pre as [|[id oldest] pre']; simpl in R.
  { rewrite no_need_singleton with (x := x) in N; [discriminate|exact R| |exact Fit].
    rewrite D, R. unfold Map.sumSizes; simpl. lia. }
  rewrite R.
  assert (K : exists r w' kept,
             cappedDeleteAsNeeded_loop s fuel
               (afterDeleteOldest w id oldest (pre' ++ [x])) = (r, w')
             /\ records (_data w') = kept ++ [x]
             /\ r <> InvariantFailed /\ r <> OutOfFuel
             /\ (callbackAccepts s -> r = Returned tt)).
  { apply IH with (pre := pre'); simpl; auto; [|simpl in L; lia].
    rewrite D, R. rewrite sumSizes_cons. simpl. lia. }
  unfold callbackAccepts in *.
  destruct (_cappedCallback s) as [cb|]; [|exact K].
  destruct (cb w id (EphemeralForTestRecord.toRecordData oldest)) eqn:Cb; [exact K|].
  exists (Thrown (StatusError code reason)), w, ((id, oldest) :: pre').
  rewrite R. repeat split; try discriminate.
  intros A. rewrite A in Cb. discriminate.
Qed.

Lemma cappedDeleteAsNeeded_keeps_last w pre x :
  records (_data w) = pre ++ [x] ->
  dataSize (_data w) = Map.sumSizes (records (_data w)) ->
  (_isCapped s = true -> EphemeralForTestRecord.size (snd x) <= _cappedMaxSize s) ->
  exists r w' kept,
    cappedDeleteAsNeeded s w = (r, w')
    /\ records (_data w') = kept ++ [x]
    /\ r <> InvariantFailed /\ r <> OutOfFuel
    /\ (callbackAccepts s -> r = Returned tt).
Proof.
  intros R D Fit. rewrite cappedDeleteAsNeeded_eq.
  apply loop_keeps_last with (pre := pre); auto.
  rewrite R, length_app; simpl. lia.
Qed.

End NewestSurvives.

(* ------------------------------------------------------------------ *)
(** ** Inserts *)

Section Insert.

Import MapFacts.

Variable extractKey : list byte -> StatusWith RecordId.t.
Variable s : Store.

Lemma insertSingleFn_unfold record w :
  insertSingleFn extractKey s record w =
  if isOplog (_data w) then
    match extractAndCheckLocForOplog extractKey (_data w) (Rec.data record) with
    | SWError c e => (Returned (StatusError c e, record), w)
    | SWValue loc => finishInsert s loc (Rec.data record) w
    end
  else if RecordId.isNormal (nextId (_data w))
       then finishInsert s (nextId (_data w)) (Rec.data record) (bumpNextId w)
       else (InvariantFailed, bumpNextId w).
Proof.
  unfold insertSingleFn, finishInsert.
  unfold bind at 1. unfold getData at 1.
  destruct (isOplog (_data w)) eqn:O.
  - destruct (extractAndCheckLocForOplog extractKey (_data w) (Rec.data record));
      [|reflexivity].
    unfold bind, modifyData, registerChange, ret; simpl.
    unfold afterInsert, RecordData_size; simpl.
    destruct (cappedDeleteAsNeeded s _) as [[ | | | ] w']; reflexivity.
  - unfold allocateLoc, bind, getData, modifyData, invariant, registerChange, ret; simpl.
    destruct (RecordId.isNormal (nextId (_data w))); [|reflexivity].
    unfold afterInsert, bumpNextId, RecordData_size; simpl.
    destruct (cappedDeleteAsNeeded s _) as [[ | | | ] w']; reflexivity.
Qed.

(** The key an oplog insert is given passed the ordering check. *)
Lemma extractAndCheck_value d data loc :
  extractAndCheckLocForOplog extractKey d data = SWValue loc ->
  extractKey data = SWValue loc
  /\ match Map.last_key (records d) with Some last => last < loc | None => True end.
Proof.
  unfold extractAndCheckLocForOplog.
  destruct (extractKey data) as [key|]; [|discriminate].
  destruct (Map.last_key (records d)) as [last|].
  - destruct (Z.leb_spec key last) as [?|G]; [discriminate|].
    intros Hx; inversion Hx; subst. auto.
  - intros Hx; inversion Hx; subst. auto.
Qed.

Lemma finishInsert_wf loc data w :
  wfWorld w ->
  Forall (fun k => k < loc) (Map.keys (records (_data w))) ->
  (isOplog (_data w) = false -> loc < nextId (_data w)) ->
  wfWorld (snd (finishInsert s loc data w)).
Proof.
  intros W F L. unfold finishInsert.
  destruct (cappedDeleteAsNeeded s _) as [r w'] eqn:E.
  apply cappedDeleteAsNeeded_shape in E as (ev & Ev & _).
  assert (W' : wfWorld w').
  { eapply wfWorld_evicts; [|exact Ev].
    apply wfWorld_afterInsert; auto. now apply Forall_lt_fresh. }
  destruct r; exact W'.
Qed.

Lemma finishInsert_returned loc data w st out w' :
  wfWorld w ->
  Forall (fun k => k < loc) (Map.keys (records (_data w))) ->
  finishInsert s loc data w = (Returned (st, out), w') ->
  st = StatusOK /\ out = Rec.mk loc data
  /\ exists evicted,
      evicts evicted (afterInsert w loc (EphemeralForTestRecord.ofBytes data)) w'
      /\ records (_data w) ++ [(loc, EphemeralForTestRecord.ofBytes data)]
         = evicted ++ records (_data w')
      /\ cappedAndNeedDelete s (_data w') = false.
Proof.
  intros W F. unfold finishInsert.
  destruct (cappedDeleteAsNeeded s _) as [r w1] eqn:E.
  apply cappedDeleteAsNeeded_shape in E as (ev & Ev & Done).
  destruct r; intros H; inversion H; subst.
  split; [reflexivity|]. split; [reflexivity|].
  exists ev. split; [exact Ev|]. split.
  - destruct Ev as (R & _). simpl in R. rewrite <- R.
    symmetry. now apply assign_last.
  - apply Done. now destruct a.
Qed.

Lemma insertSingleFn_wf record w :
  wfWorld w -> wfWorld (snd (insertSingleFn extractKey s record w)).
Proof.
  intros W. rewrite insertSingleFn_unfold.
  destruct (isOplog (_data w)) eqn:O.
  - destruct (extractAndCheckLocForOplog extractKey (_data w) (Rec.data record))
      as [loc|] eqn:X; [|exact W].
    apply extractAndCheck_value in X as [_ X].
    apply finishInsert_wf; auto.
    + apply fresh_above_last; [apply W | exact X].
    + rewrite O. discriminate.
  - destruct (RecordId.isNormal (nextId (_data w))).
    + apply finishInsert_wf; [now apply wfWorld_bumpNextId | |simpl; lia].
      simpl. destruct W as [(_ & _ & F) _]. auto.
    + now apply wfWorld_bumpNextId.
Qed.

Lemma insertSingleFn_ok record w out w' :
  wfWorld w ->
  insertSingleFn extractKey s record w = (Returned (StatusOK, out), w') ->
  Rec.data out = Rec.data record
  /\ exists evicted, inserted s out evicted w w'.
Proof.
  intros W. rewrite insertSingleFn_unfold.
  destruct (isOplog (_data w)) eqn:O.
  - destruct (extractAndCheckLocForOplog extractKey (_data w) (Rec.data record))
      as [loc|] eqn:X; [|discriminate].
    apply extractAndCheck_value in X as [_ X].
    assert (F : Forall (fun k => k < loc) (Map.keys (records (_data w))))
      by (apply fresh_above_last; [apply W | exact X]).
    intros H. apply finishInsert_returned in H as (_ & -> & ev & Ev & R & Done); auto.
    split; [reflexivity|]. exists ev.
    destruct Ev as (_ & D & N & I & C). simpl in *.
    unfold inserted, entryOf; simpl. rewrite D, N, I, C, O.
    repeat split; auto; try lia.
    rewrite <- app_assoc. reflexivity.
  - destruct (RecordId.isNormal (nextId (_data w))); [|discriminate].
    assert (F : Forall (fun k => k < nextId (_data w)) (Map.keys (records (_data w))))
      by (apply W; exact O).
    intros H. apply finishInsert_returned in H as (_ & -> & ev & Ev & R & Done);
      [|now apply wfWorld_bumpNextId|exact F].
    split; [reflexivity|]. exists ev.
    destruct Ev as (_ & D & N & I & C). simpl in *.
    unfold inserted, entryOf; simpl. rewrite D, N, I, C, O.
    repeat split; auto; try lia.
    rewrite <- app_assoc. reflexivity.
Qed.

End Insert.

Section InsertBatch.

Import MapFacts.

Variable extractKey : list byte -> StatusWith RecordId.t.
Variable s : Store.

(** A record is turned down without any change to the world or the record,
    and only by the oplog check. *)
Lemma insertSingleFn_error record w c e out w' :
  insertSingleFn extractKey s record w = (Returned (StatusError c e, out), w') ->
  w' = w /\ out = record /\ isOplog (_data w) = true
  /\ extractAndCheckLocForOplog extractKey (_data w) (Rec.data record) = SWError c e.
Proof.
  rewrite insertSingleFn_unfold.
  destruct (isOplog (_data w)).
  - destruct (extractAndCheckLocForOplog extractKey (_data w) (Rec.data record)).
    + unfold finishInsert. destruct (cappedDeleteAsNeeded s _) as [[ | | | ] w1];
        intros H; inversion H.
    + intros H; inversion H; subst. auto.
  - destruct (RecordId.isNormal (nextId (_data w))); [|discriminate].
    unfold finishInsert. destruct (cappedDeleteAsNeeded s _) as [[ | | | ] w1];
      intros H; inversion H.
Qed.

Lemma insertEach_cons record rest w :
  insertEach extractKey s (record :: rest) w =
  match insertSingleFn extractKey s record w with
  | (Returned (StatusOK, out), w1) =>
      match insertEach extractKey s rest w1 with
      | (Returned (st, outs), w2) => (Returned (st, out :: outs), w2)
      | (Thrown x, w2) => (Thrown x, w2)
      | (InvariantFailed, w2) => (InvariantFailed, w2)
      | (OutOfFuel, w2) => (OutOfFuel, w2)
      end
  | (Returned (StatusError c e, out), w1) =>
      (Returned (StatusError c e, out :: rest), w1)
  | (Thrown x, w1) => (Thrown x, w1)
  | (InvariantFailed, w1) => (InvariantFailed, w1)
  | (OutOfFuel, w1) => (OutOfFuel, w1)
  end.
Proof.
  simpl. unfold bind at 1.
  destruct (insertSingleFn extractKey s record w) as [[[st out]| | | ] w1];
    try reflexivity.
  destruct st; simpl; [|reflexivity].
  unfold bind, ret.
  destruct (insertEach extractKey s rest w1) as [[[st' outs]| | | ] w2]; reflexivity.
Qed.

Lemma insertEach_wf batch : forall w,
  wfWorld w -> wfWorld (snd (insertEach extractKey s batch w)).
Proof.
  induction batch as [|record rest IH]; intros w W; [exact W|].
  rewrite insertEach_cons.
  pose proof (insertSingleFn_wf extractKey s record w W) as W1.
  destruct (insertSingleFn extractKey s record w) as [[[st out]| | | ] w1];
    simpl in W1; try exact W1.
  destruct st; [|exact W1].
  specialize (IH w1 W1).
  destruct (insertEach extractKey s rest w1) as [[[st' outs]| | | ] w2]; exact IH.
Qed.

(** A batch that went through: the map is the old one with the records of
    the batch at its end, in order, less an evicted prefix. *)
Lemma insertEach_ok batch : forall w outs w',
  wfWorld w ->
  insertEach extractKey s batch w = (Returned (StatusOK, outs), w') ->
  map Rec.data outs = map Rec.data batch
  /\ isOplog (_data w') = isOplog (_data w)
  /\ (batch <> [] -> cappedAndNeedDelete s (_data w') = false)
  /\ (batch = [] -> w' = w)
  /\ exists evicted,
       records (_data w) ++ map (entryOf) outs = evicted ++ records (_data w').
Proof.
  induction batch as [|record rest IH]; intros w outs w' W H.
  - inversion H; subst. repeat split; auto; try contradiction.
    exists []. simpl. now rewrite app_nil_r.
  - rewrite insertEach_cons in H.
    pose proof (insertSingleFn_wf extractKey s record w W) as W1.
    destruct (insertSingleFn extractKey s record w) as [[[st out]| | | ] w1] eqn:E1;
      try discriminate.
    destruct st; [|discriminate]. simpl in W1.
    apply insertSingleFn_ok in E1 as (Dout & ev1 & Ins); [|exact W].
    destruct (insertEach extractKey s rest w1) as [[[st' outs']| | | ] w2] eqn:E2;
      try discriminate.
    inversion H; subst.
    destruct (IH _ _ _ W1 E2) as (Dm & O2 & Need & Nil & ev2 & R2).
    destruct Ins as (_ & R1 & _ & _ & O1 & _ & Need1).
    repeat split.
    + simpl. now rewrite Dout, Dm.
    + congruence.
    + intros _. destruct rest as [|r0 rest'].
      * rewrite (Nil eq_refl). exact Need1.
      * apply Need. discriminate.
    + discriminate.
    + exists (ev1 ++ ev2). simpl.
      change (entryOf out :: map entryOf outs')
        with ([entryOf out] ++ map entryOf outs').
      rewrite app_assoc, R1, <- app_assoc, R2, app_assoc. reflexivity.
Qed.

(** A batch that was turned down: the records before the failing one went
    through, the failing one changed nothing, the ones after it were not
    looked at. *)
Lemma insertEach_error batch : forall w c e outs w',
  insertEach extractKey s batch w = (Returned (StatusError c e, outs), w') ->
  exists pre failing post pre',
    batch = pre ++ failing :: post
    /\ insertEach extractKey s pre w = (Returned (StatusOK, pre'), w')
    /\ insertSingleFn extractKey s failing w'
       = (Returned (StatusError c e, failing), w')
    /\ outs = pre' ++ failing :: post.
Proof.
  induction batch as [|record rest IH]; intros w c e outs w' H.
  - inversion H.
  - rewrite insertEach_cons in H.
    destruct (insertSingleFn extractKey s record w) as [[[st out]| | | ] w1] eqn:E1;
      try discriminate.
    destruct st.
    + destruct (insertEach extractKey s rest w1) as [[[st' outs']| | | ] w2] eqn:E2;
        try discriminate.
      inversion H; subst.
      destruct (IH _ _ _ _ _ E2) as (pre & failing & post & pre' & -> & Hp & Hf & ->).
      exists (record :: pre), failing, post, (out :: pre').
      repeat split; auto.
      rewrite insertEach_cons, E1, Hp. reflexivity.
    + inversion H; subst.
      pose proof (insertSingleFn_error _ _ _ _ _ _ E1) as (-> & -> & _).
      exists [], record, rest, []. repeat split; auto.
Qed.

Lemma insertEach_app pre : forall rest w pre' w1,
  insertEach extractKey s pre w = (Returned (StatusOK, pre'), w1) ->
  insertEach extractKey s (pre ++ rest) w =
  match insertEach extractKey s rest w1 with
  | (Returned (st, outs), w2) => (Returned (st, pre' ++ outs), w2)
  | (Thrown x, w2) => (Thrown x, w2)
  | (InvariantFailed, w2) => (InvariantFailed, w2)
  | (OutOfFuel, w2) => (OutOfFuel, w2)
  end.
Proof.
  induction pre as [|record pre IH]; intros rest w pre' w1 H.
  - inversion H; subst. simpl app.
    destruct (insertEach extractKey s rest w1) as [[[st outs]| | | ] w2]; reflexivity.
  - rewrite insertEach_cons in H. simpl app. rewrite insertEach_cons.
    destruct (insertSingleFn extractKey s record w) as [[[st out]| | | ] w0];
      try discriminate.
    destruct st; [|discriminate].
    destruct (insertEach extractKey s pre w0) as [[[st' outs']| | | ] w2] eqn:E2;
      try discriminate.
    inversion H; subst.
    rewrite (IH rest _ _ _ E2).
    destruct (insertEach extractKey s rest w1) as [[[st outs]| | | ] w3]; reflexivity.
Qed.

End InsertBatch.

(* ------------------------------------------------------------------ *)
(** ** The oplog ordering guard *)

Section OplogGuard.

Import MapFacts.

Variable extractKey : list byte -> StatusWith RecordId.t.
Variable s : Store.

Lemma insertSingleFn_isOplog record w :
  isOplog (_data (snd (insertSingleFn extractKey s record w))) = isOplog (_data w).
Proof.
  rewrite insertSingleFn_unfold.
  assert (K : forall loc w0, isOplog (_data w0) = isOplog (_data w) ->
            isOplog (_data (snd (finishInsert s loc (Rec.data record) w0)))
            = isOplog (_data w)).
  { intros loc w0 E0. unfold finishInsert.
    destruct (cappedDeleteAsNeeded s _) as [r w1] eqn:E.
    apply cappedDeleteAsNeeded_shape in E as (ev & (_ & _ & _ & I & _) & _).
    simpl in I. destruct r; simpl; congruence. }
  destruct (isOplog (_data w)) eqn:O.
  - destruct (extractAndCheckLocForOplog extractKey (_data w) (Rec.data record));
      [apply K; exact O | exact O].
  - destruct (RecordId.isNormal (nextId (_data w))); [apply K; exact O | exact O].
Qed.

Lemma insertEach_isOplog batch : forall w,
  isOplog (_data (snd (insertEach extractKey s batch w))) = isOplog (_data w).
Proof.
  induction batch as [|record rest IH]; intros w; [reflexivity|].
  rewrite insertEach_cons.
  pose proof (insertSingleFn_isOplog record w) as I1.
  destruct (insertSingleFn extractKey s record w) as [[[st out]| | | ] w1];
    simpl in I1; try exact I1.
  destruct st; [|exact I1].
  specialize (IH w1).
  destruct (insertEach extractKey s rest w1) as [[[st' outs]| | | ] w2];
    simpl in *; congruence.
Qed.

(** The guard itself. *)
Lemma insertSingleFn_out_of_order record w key last :
  isOplog (_data w) = true ->
  extractKey (Rec.data record) = SWValue key ->
  Map.last_key (records (_data w)) = Some last ->
  key <= last ->
  insertSingleFn extractKey s record w
  = (Returned (StatusError BadValue (OutOfOrderOplogInsert key last), record), w).
Proof.
  intros O K L Le. rewrite insertSingleFn_unfold, O.
  unfold extractAndCheckLocForOplog. rewrite K, L.
  destruct (Z.leb_spec key last); [reflexivity | lia].
Qed.

(** An oplog insert with a key above the last one goes through, and the new
    key is then the last one, evictions or not. *)
Lemma oplog_insert_accepted data w key :
  Store_valid s = true ->
  callbackAccepts s ->
  wfWorld w ->
  isOplog (_data w) = true ->
  extractKey data = SWValue key ->
  match Map.last_key (records (_data w)) with Some last => last < key | None => True end ->
  (_isCapped s = true -> RecordData_size data <= _cappedMaxSize s) ->
  exists w',
    insertRecords extractKey s [Rec.mk 0 data] w
    = (Returned (StatusOK, [Rec.mk key data]), w')
    /\ Map.last_key (records (_data w')) = Some key
    /\ wfWorld w' /\ isOplog (_data w') = true.
Proof.
  intros V A W O K L Fit.
  assert (F : Forall (fun k => k < key) (Map.keys (records (_data w))))
    by (apply fresh_above_last; [apply W | exact L]).
  pose proof (wfWorld_afterInsert w key (EphemeralForTestRecord.ofBytes data) W
                (Forall_lt_fresh _ _ F)) as W1.
  destruct (cappedDeleteAsNeeded_keeps_last s V
              (afterInsert w key (EphemeralForTestRecord.ofBytes data))
              (records (_data w)) (key, EphemeralForTestRecord.ofBytes data))
    as (r & w' & kept & E & R & _ & _ & Ret).
  { simpl. now apply assign_last. }
  { apply W1. rewrite O. discriminate. }
  { exact Fit. }
  specialize (Ret A). subst r.
  exists w'. unfold insertRecords. cbn [existsb]. unfold exceedsCappedMaxSize.
  assert (X : _isCapped s && (RecordData_size data >? _cappedMaxSize s) = false).
  { destruct (_isCapped s); [|reflexivity]. simpl.
    specialize (Fit eq_refl). destruct (Z.gtb_spec (RecordData_size data) (_cappedMaxSize s));
      [lia | reflexivity]. }
  cbn [Rec.data]. rewrite X. cbn [orb].
  rewrite insertEach_cons, insertSingleFn_unfold, O.
  unfold extractAndCheckLocForOplog. simpl Rec.data. rewrite K.
  assert (Chk : match Map.last_key (records (_data w)) with
                | Some last =>
                    if key <=? last
                    then SWError BadValue (OutOfOrderOplogInsert key last)
                    else SWValue key
                | None => SWValue key
                end = SWValue key).
  { destruct (Map.last_key (records (_data w))) as [last|]; [|reflexivity].
    destruct (Z.leb_spec key last); [lia | reflexivity]. }
  rewrite Chk. unfold finishInsert. rewrite E. simpl.
  split; [reflexivity|]. split; [|split].
  - rewrite R. apply last_key_app.
  - apply cappedDeleteAsNeeded_shape in E as (ev & Ev & _).
    eapply wfWorld_evicts; [|exact Ev]. apply W1. rewrite O. discriminate.
  - apply cappedDeleteAsNeeded_shape in E as (ev & (_ & _ & _ & I & _) & _).
    simpl in I. congruence.
Qed.

End OplogGuard.

Lemma wfWorld_new oplog : wfWorld (World_new oplog).
Proof.
  unfold wfWorld, wfData, wfRecords; simpl. repeat split.
  - apply MapFacts.ordered_nil.
  - intros _. constructor.
  - constructor.
Qed.

(** C1 (amended).  [insertRecords] first checks the size of every record
    of the batch against [cappedMaxSize] (capped stores): when one record is
    too large the call returns the capacity error and nothing is changed,
    out-of-order keys or not.  Otherwise, in an oplog store, it turns down
    with the out-of-order error (code [BadValue], reason
    [OutOfOrderOplogInsert]) the first record whose extracted key is not
    above the greatest key stored, and the world is then exactly as the
    preceding records of the batch left it: the failing record changed
    nothing.  In particular, on a store the constructor accepts, whose
    callback lets every deletion through and whose [cappedMaxSize], when it
    is capped, is not below the sizes of the three records, keys 5, 10 and 7
    inserted in turn into an empty oplog store: 5 and 10 go through, 7 is
    turned down, and the greatest key stored is 10. *)
Theorem oplog_out_of_order_insert_rejected :
  forall (extractKey : list byte -> StatusWith RecordId.t) (s : Store),
    (forall w pre failing post pre' w1 key last,
        isOplog (_data w) = true ->
        existsb (exceedsCappedMaxSize s) (pre ++ failing :: post) = false ->
        insertRecords extractKey s pre w = (Returned (StatusOK, pre'), w1) ->
        extractKey (Rec.data failing) = SWValue key ->
        Map.last_key (records (_data w1)) = Some last ->
        key <= last ->
        insertSingleFn extractKey s failing w1
        = (Returned (StatusError BadValue (OutOfOrderOplogInsert key last), failing), w1)
        /\ insertRecords extractKey s (pre ++ failing :: post) w
           = (Returned (StatusError BadValue (OutOfOrderOplogInsert key last),
                        pre' ++ failing :: post), w1))
    /\ (forall batch w,
           existsb (exceedsCappedMaxSize s) batch = true ->
           insertRecords extractKey s batch w
           = (Returned (StatusError BadValue ExceedsCappedMaxSize, batch), w))
    /\ (forall p5 p10 p7,
           Store_valid s = true ->
           callbackAccepts s ->
           extractKey p5 = SWValue 5 ->
           extractKey p10 = SWValue 10 ->
           extractKey p7 = SWValue 7 ->
           (_isCapped s = true ->
            RecordData_size p5 <= _cappedMaxSize s
            /\ RecordData_size p10 <= _cappedMaxSize s
            /\ RecordData_size p7 <= _cappedMaxSize s) ->
           exists w5 w10,
             insertRecords extractKey s [Rec.mk 0 p5] (World_new true)
             = (Returned (StatusOK, [Rec.mk 5 p5]), w5)
             /\ insertRecords extractKey s [Rec.mk 0 p10] w5
                = (Returned (StatusOK, [Rec.mk 10 p10]), w10)
             /\ insertRecords extractKey s [Rec.mk 0 p7] w10
                = (Returned (StatusError BadValue (OutOfOrderOplogInsert 7 10),
                             [Rec.mk 0 p7]), w10)
             /\ Map.last_key (records (_data w10)) = Some 10).
Proof.
  intros extractKey s. split; [|split].
  - intros w pre failing post pre' w1 key last O Fit Pre K L Le.
    unfold insertRecords in Pre.
    destruct (existsb (exceedsCappedMaxSize s) pre); [discriminate|].
    assert (O1 : isOplog (_data w1) = true).
    { pose proof (insertEach_isOplog extractKey s pre w) as I.
      rewrite Pre in I. simpl in I. congruence. }
    pose proof (insertSingleFn_out_of_order extractKey s failing w1 key last O1 K L Le)
      as Rej.
    split; [exact Rej|].
    unfold insertRecords. rewrite Fit.
    rewrite (insertEach_app extractKey s pre (failing :: post) w pre' w1 Pre).
    rewrite insertEach_cons, Rej. reflexivity.
  - intros batch w Big. unfold insertRecords. rewrite Big. reflexivity.
  - intros p5 p10 p7 V A K5 K10 K7 Fit.
    destruct (oplog_insert_accepted extractKey s p5 (World_new true) 5 V A
                (wfWorld_new true) eq_refl K5 I)
      as (w5 & E5 & L5 & W5 & O5); [intros C; apply (Fit C)|].
    destruct (oplog_insert_accepted extractKey s p10 w5 10 V A W5 O5 K10)
      as (w10 & E10 & L10 & W10 & O10);
      [rewrite L5; lia | intros C; apply (Fit C)|].
    exists w5, w10. repeat split; auto.
    unfold insertRecords. cbn [existsb]. unfold exceedsCappedMaxSize. cbn [Rec.data].
    assert (X : _isCapped s && (RecordData_size p7 >? _cappedMaxSize s) = false).
    { destruct (_isCapped s); [|reflexivity]. simpl.
      destruct (Fit eq_refl) as (_ & _ & F7).
      destruct (Z.gtb_spec (RecordData_size p7) (_cappedMaxSize s)); [lia | reflexivity]. }
    rewrite X. cbn [orb].
    rewrite insertEach_cons.
    rewrite (insertSingleFn_out_of_order extractKey s (Rec.mk 0 p7) w10 7 10 O10 K7 L10);
      [reflexivity | lia].
Qed.

Lemma oplog_out_of_order_insert_rejected_witness :
  insertRecords firstByteKey plainStore
    [Rec.mk 0 [x05]; Rec.mk 0 [x0a]; Rec.mk 0 [x07]; Rec.mk 0 [x0b]] (World_new true)
  = (Returned (StatusError BadValue (OutOfOrderOplogInsert 7 10),
               [Rec.mk 5 [x05]; Rec.mk 10 [x0a]; Rec.mk 0 [x07]; Rec.mk 0 [x0b]]),
     {| _data := {| records := [(5, EphemeralForTestRecord.ofBytes [x05]);
                                (10, EphemeralForTestRecord.ofBytes [x0a])];
                    dataSize := 2; nextId := 1; isOplog := true |};
        _changes := [InsertChange 5; InsertChange 10] |})
  /\ exists w5 w10,
       insertRecords firstByteKey capped8 [Rec.mk 0 [x05]] (World_new true)
       = (Returned (StatusOK, [Rec.mk 5 [x05]]), w5)
       /\ insertRecords firstByteKey capped8 [Rec.mk 0 [x0a]] w5
          = (Returned (StatusOK, [Rec.mk 10 [x0a]]), w10)
       /\ insertRecords firstByteKey capped8 [Rec.mk 0 [x07]] w10
          = (Returned (StatusError BadValue (OutOfOrderOplogInsert 7 10),
                       [Rec.mk 0 [x07]]), w10)
       /\ Map.last_key (records (_data w10)) = Some 10.
Proof.
  split.
  - refine (proj2 (proj1 (oplog_out_of_order_insert_rejected firstByteKey plainStore)
                     (World_new true) [Rec.mk 0 [x05]; Rec.mk 0 [x0a]] (Rec.mk 0 [x07])
                     [Rec.mk 0 [x0b]] [Rec.mk 5 [x05]; Rec.mk 10 [x0a]]
                     {| _data := {| records := [(5, EphemeralForTestRecord.ofBytes [x05]);
                                                (10, EphemeralForTestRecord.ofBytes [x0a])];
                                    dataSize := 2; nextId := 1; isOplog := true |};
                        _changes := [InsertChange 5; InsertChange 10] |}
                     7 10 _ _ _ _ _ _)).
    + reflexivity.
    + reflexivity.
    + reflexivity.
    + reflexivity.
    + reflexivity.
    + lia.
  - apply (proj2 (proj2 (oplog_out_of_order_insert_rejected firstByteKey capped8))
             [x05] [x0a] [x07]).
    + reflexivity.
    + exact I.
    + reflexivity.
    + reflexivity.
    + reflexivity.
    + intros _. vm_compute. repeat split; discriminate.
Defined.

(** C1, as stated, fails on a capped oplog: the store of 8 bytes holds the
    key 5; a record of 9 bytes with the key 3, alone or after a record that
    fits, gets the capacity error from the check of the sizes, not the
    out-of-order error, and so does a batch whose out-of-order record fits
    when a later record is too large. *)
Lemma oplog_oversized_record_gets_capacity_error :
  insertRecords firstByteKey capped8 [Rec.mk 0 [x05]] (World_new true)
  = (Returned (StatusOK, [Rec.mk 5 [x05]]), cappedOplogWith5)
  /\ firstByteKey payloadKey3Big = SWValue 3
  /\ Map.last_key (records (_data cappedOplogWith5)) = Some 5
  /\ insertRecords firstByteKey capped8 [Rec.mk 0 payloadKey3Big] cappedOplogWith5
     = (Returned (StatusError BadValue ExceedsCappedMaxSize, [Rec.mk 0 payloadKey3Big]),
        cappedOplogWith5)
  /\ insertRecords firstByteKey capped8 [Rec.mk 0 [x03]; Rec.mk 0 payloadKey3Big]
       cappedOplogWith5
     = (Returned (StatusError BadValue ExceedsCappedMaxSize,
                  [Rec.mk 0 [x03]; Rec.mk 0 payloadKey3Big]),
        cappedOplogWith5).
Proof. repeat split. Qed.

(* ------------------------------------------------------------------ *)
(** ** Capped stores: the bound, and which records survive *)

Section CappedBound.

Import MapFacts.

Variable extractKey : list byte -> StatusWith RecordId.t.
Variable s : Store.
Hypothesis valid : Store_valid s = true.

Lemma need_false_bounds d :
  _isCapped s = true ->
  cappedAndNeedDelete s d = false ->
  dataSize d <= _cappedMaxSize s
  /\ (_cappedMaxDocs s <> -1 -> numRecords d <= _cappedMaxDocs s).
Proof.
  unfold cappedAndNeedDelete. intros -> H. simpl in H.
  destruct (Z.gtb_spec (dataSize d) (_cappedMaxSize s)); [discriminate|].
  split; [lia|]. intros N.
  destruct (Z.eqb_spec (_cappedMaxDocs s) (-1)); [contradiction|]. simpl in H.
  destruct (Z.gtb_spec (numRecords d) (_cappedMaxDocs s)); [discriminate | lia].
Qed.

Lemma need_false_new oplog : cappedAndNeedDelete s (Data_new oplog) = false.
Proof.
  unfold cappedAndNeedDelete, Store_valid, numRecords, Map.size in *.
  destruct (_isCapped s); simpl; [|reflexivity].
  apply andb_true_iff in valid as [V1 V2].
  destruct (Z.ltb_spec 0 (_cappedMaxSize s)); [|discriminate].
  destruct (Z.gtb_spec 0 (_cappedMaxSize s)); [lia|].
  destruct (Z.eqb_spec (_cappedMaxDocs s) (-1)); simpl; [reflexivity|].
  simpl in V2. destruct (Z.ltb_spec 0 (_cappedMaxDocs s)); [|discriminate].
  destruct (Z.gtb_spec 0 (_cappedMaxDocs s)); [lia | reflexivity].
Qed.

Lemma insertSingleFn_keeps record w out w' :
  wfWorld w ->
  exceedsCappedMaxSize s record = false ->
  insertSingleFn extractKey s record w = (Returned (StatusOK, out), w') ->
  exists kept, records (_data w') = kept ++ [entryOf out].
Proof.
  intros W Fit. rewrite insertSingleFn_unfold.
  assert (Fit' : _isCapped s = true ->
                 EphemeralForTestRecord.size
                   (EphemeralForTestRecord.ofBytes (Rec.data record))
                 <= _cappedMaxSize s).
  { intros C. unfold exceedsCappedMaxSize in Fit. rewrite C in Fit. simpl in *.
    unfold RecordData_size in Fit.
    destruct (Z.gtb_spec (Z.of_nat (length (Rec.data record))) (_cappedMaxSize s));
      [discriminate | lia]. }
  assert (K : forall loc w0, wfWorld w0 ->
            Forall (fun k => k < loc) (Map.keys (records (_data w0))) ->
            finishInsert s loc (Rec.data record) w0 = (Returned (StatusOK, out), w') ->
            exists kept, records (_data w') = kept ++ [entryOf out]).
  { intros loc w0 W0 F H.
    destruct (cappedDeleteAsNeeded_keeps_last s valid
                (afterInsert w0 loc (EphemeralForTestRecord.ofBytes (Rec.data record)))
                (records (_data w0))
                (loc, EphemeralForTestRecord.ofBytes (Rec.data record)))
      as (r & w1 & kept & E & R & _); auto.
    { simpl. now apply assign_last. }
    { simpl. destruct W0 as [(O0 & D0 & _) _].
      rewrite sumSizes_assign by exact O0. unfold found_size.
      rewrite (Forall_lt_fresh _ _ F). simpl. lia. }
    unfold finishInsert in H. rewrite E in H.
    destruct r; inversion H; subst. exists kept. exact R. }
  destruct (isOplog (_data w)) eqn:O.
  - destruct (extractAndCheckLocForOplog extractKey (_data w) (Rec.data record))
      as [loc|] eqn:X; [|discriminate].
    apply extractAndCheck_value in X as [_ X].
    apply K; auto. apply fresh_above_last; [apply W | exact X].
  - destruct (RecordId.isNormal (nextId (_data w))); [|discriminate].
    apply K; [now apply wfWorld_bumpNextId|].
    simpl. apply W. exact O.
Qed.

End CappedBound.

Section CappedRun.

Import MapFacts.

Variable extractKey : list byte -> StatusWith RecordId.t.
Variable s : Store.
Hypothesis valid : Store_valid s = true.

Lemma last_of_cons {A : Type} (x : A) (l older : list A) (newest : A) :
  l <> [] -> x :: l = older ++ [newest] -> exists older', l = older' ++ [newest].
Proof.
  intros N E. destruct older as [|y older']; simpl in E.
  - inversion E; subst. contradiction.
  - inversion E; subst. now exists older'.
Qed.

Lemma insertEach_keeps batch : forall w outs w',
  wfWorld w ->
  existsb (exceedsCappedMaxSize s) batch = false ->
  insertEach extractKey s batch w = (Returned (StatusOK, outs), w') ->
  endsWith outs (records (_data w')).
Proof.
  induction batch as [|record rest IH]; intros w outs w' W Fit H;
    unfold endsWith; intros older newest E.
  - unfold insertEach, ret in H. injection H as Ho Hw.
    rewrite <- Ho in E. destruct older; inversion E.
  - simpl in Fit. apply orb_false_iff in Fit as [Fit1 FitR].
    rewrite insertEach_cons in H.
    pose proof (insertSingleFn_wf extractKey s record w W) as W1.
    destruct (insertSingleFn extractKey s record w) as [[[st out]| | | ] w1] eqn:E1;
      try discriminate.
    destruct st; [|discriminate]. simpl in W1.
    destruct (insertEach extractKey s rest w1) as [[[st' outs']| | | ] w2] eqn:E2;
      try discriminate.
    injection H as Hs Ho Hw. subst st' w2. rewrite <- Ho in E.
    destruct (insertEach_ok extractKey s rest w1 outs' w' W1 E2) as (Dm & _ & _ & Nil & _).
    destruct rest as [|r0 rest'].
    + rewrite (Nil eq_refl) in *. destruct outs'; [|discriminate].
      destruct older as [|y older']; simpl in E; inversion E; subst.
      * exact (insertSingleFn_keeps extractKey s valid record w newest w1 W Fit1 E1).
      * destruct older'; discriminate.
    + assert (N : outs' <> []) by (destruct outs'; discriminate).
      destruct (last_of_cons _ _ _ _ N E) as (older' & E').
      eapply IH; eauto.
Qed.

(** One call that returned OK keeps everything the bound and the order of
    eviction rest on. *)
Lemma insertRecords_ok_step batch w outs w' log0 :
  wfWorld w ->
  cappedAndNeedDelete s (_data w) = false ->
  (exists ev, map entryOf log0 = ev ++ records (_data w)) ->
  endsWith log0 (records (_data w)) ->
  insertRecords extractKey s batch w = (Returned (StatusOK, outs), w') ->
  wfWorld w'
  /\ cappedAndNeedDelete s (_data w') = false
  /\ (exists ev, map entryOf (log0 ++ outs) = ev ++ records (_data w'))
  /\ endsWith (log0 ++ outs) (records (_data w')).
Proof.
  intros W N (ev0 & S0) L0. unfold insertRecords.
  destruct (existsb (exceedsCappedMaxSize s) batch) eqn:Fit; [discriminate|].
  intros H.
  pose proof (insertEach_wf extractKey s batch w W) as W'.
  rewrite H in W'. simpl in W'.
  destruct (insertEach_ok extractKey s batch w outs w' W H)
    as (Dm & _ & Need & Nil & ev & R).
  pose proof (insertEach_keeps batch w outs w' W Fit H) as Keep.
  destruct batch as [|r0 batch'].
  - rewrite (Nil eq_refl) in *. destruct outs; [|discriminate].
    rewrite app_nil_r.
    split; [exact W|]. split; [exact N|]. split; [exists ev0; exact S0 | exact L0].
  - split; [exact W'|]. split; [apply Need; discriminate|]. split.
    + exists (ev0 ++ ev). rewrite map_app, S0, <- !app_assoc, R. reflexivity.
    + assert (No : outs <> []) by (destruct outs; discriminate).
      intros older newest E.
      destruct (exists_last No) as (older' & newest' & ->).
      rewrite app_assoc in E. apply app_inj_tail in E as [_ <-].
      eapply Keep. reflexivity.
Qed.

Lemma insertsOk_inv w batches log w' :
  insertsOk extractKey s w batches log w' ->
  forall log0,
    wfWorld w ->
    cappedAndNeedDelete s (_data w) = false ->
    (exists ev, map entryOf log0 = ev ++ records (_data w)) ->
    endsWith log0 (records (_data w)) ->
    wfWorld w'
    /\ cappedAndNeedDelete s (_data w') = false
    /\ (exists ev, map entryOf (log0 ++ log) = ev ++ records (_data w'))
    /\ endsWith (log0 ++ log) (records (_data w')).
Proof.
  induction 1 as [w|w batch batches outs w1 log w2 H Run IH]; intros log0 W N S0 L0.
  - rewrite app_nil_r. auto.
  - destruct (insertRecords_ok_step batch w outs w1 log0 W N S0 L0 H)
      as (W1 & N1 & S1 & L1).
    rewrite app_assoc. apply IH; auto.
Qed.

End CappedRun.

(* ------------------------------------------------------------------ *)
(** ** What an insert evicts *)

Section EvictionMinimal.

Import MapFacts.

Variable s : Store.

(** However the loop ends, it deleted records only while the test held,
    the oldest one each time, each one with the consent of the callback;
    when it returns the test fails, and when it throws the callback refused
    the record that is now the oldest one. *)
Lemma loop_minimal fuel : forall w r w',
  cappedDeleteAsNeeded_loop s fuel w = (r, w') ->
  exists evicted,
    evictsWhileNeeded s evicted w w'
    /\ (r = Returned tt -> cappedAndNeedDelete s (_data w') = false)
    /\ (forall st, r = Thrown st ->
          cappedAndNeedDelete s (_data w') = true
          /\ exists cb id oldest tl,
               _cappedCallback s = Some cb
               /\ records (_data w') = (id, oldest) :: tl
               /\ cb w' id (EphemeralForTestRecord.toRecordData oldest) = st
               /\ st <> StatusOK).
Proof.
  induction fuel as [|fuel IH]; intros w r w' H; rewrite loop_unfold in H.
  - destruct (cappedAndNeedDelete s (_data w)) eqn:N;
      injection H as Hr Hw; subst r w'; exists []; split;
      try apply evictsWhileNeeded_done; split; try discriminate; auto.
  - destruct (cappedAndNeedDelete s (_data w)) eqn:N.
    2:{ injection H as Hr Hw; subst r w'. exists []. split;
        [apply evictsWhileNeeded_done|]. split; [auto | discriminate]. }
    destruct (records (_data w)) as [|[id oldest] tl] eqn:E.
    { injection H as Hr Hw; subst r w'. exists []. split;
        [apply evictsWhileNeeded_done|]. split; discriminate. }
    destruct (_cappedCallback s) as [cb|] eqn:Cb.
    + destruct (cb w id (EphemeralForTestRecord.toRecordData oldest)) as [|c e] eqn:Ans.
      * destruct (IH _ _ _ H) as (ev & Ev & Done & Veto).
        exists ((id, oldest) :: ev). split; [|split; assumption].
        eapply evictsWhileNeeded_turn; eauto. now rewrite Cb.
      * injection H as Hr Hw; subst r w'. exists []. split;
          [apply evictsWhileNeeded_done|]. split; [discriminate|].
        intros st Est. injection Est as <-. split; [exact N|].
        exists cb, id, oldest, tl. repeat split; auto. discriminate.
    + destruct (IH _ _ _ H) as (ev & Ev & Done & Veto).
      exists ((id, oldest) :: ev). split; [|split; assumption].
      eapply evictsWhileNeeded_turn; eauto. now rewrite Cb.
Qed.

Lemma cappedDeleteAsNeeded_minimal w r w' :
  cappedDeleteAsNeeded s w = (r, w') ->
  exists evicted,
    evictsWhileNeeded s evicted w w'
    /\ (r = Returned tt -> cappedAndNeedDelete s (_data w') = false)
    /\ (forall st, r = Thrown st ->
          cappedAndNeedDelete s (_data w') = true
          /\ exists cb id oldest tl,
               _cappedCallback s = Some cb
               /\ records (_data w') = (id, oldest) :: tl
               /\ cb w' id (EphemeralForTestRecord.toRecordData oldest) = st
               /\ st <> StatusOK).
Proof. rewrite cappedDeleteAsNeeded_eq. apply loop_minimal. Qed.

Lemma evictsWhileNeeded_evicts evicted w w' :
  evictsWhileNeeded s evicted w w' -> evicts evicted w w'.
Proof.
  induction 1 as [w|w id oldest tl evicted w' N E Cb Ev IH].
  - apply evicts_refl.
  - eapply evicts_step; eauto.
Qed.

(** With nothing to evict nothing is evicted. *)
Lemma evictsWhileNeeded_none evicted w w' :
  evictsWhileNeeded s evicted w w' ->
  cappedAndNeedDelete s (_data w) = false ->
  evicted = [] /\ w' = w.
Proof.
  destruct 1 as [w|w id oldest tl evicted w' N E Cb Ev]; intros N0; [auto | congruence].
Qed.

Lemma need_overBounds d :
  dataSize d = Map.sumSizes (records d) ->
  cappedAndNeedDelete s d = overBounds s (records d).
Proof.
  intros D. unfold cappedAndNeedDelete, overBounds, numRecords. rewrite D.
  destruct (_isCapped s); simpl; [|reflexivity].
  destruct (Map.sumSizes (records d) >? _cappedMaxSize s); simpl; [reflexivity|].
  destruct (negb (_cappedMaxDocs s =? -1) && (Map.size (records d) >? _cappedMaxDocs s));
    reflexivity.
Qed.

(** The loop, when it returns, leaves what "delete the oldest record while
    the store is over its bounds" leaves. *)
Lemma evictsWhileNeeded_evictOldest evicted w w' :
  evictsWhileNeeded s evicted w w' ->
  dataSize (_data w) = Map.sumSizes (records (_data w)) ->
  cappedAndNeedDelete s (_data w') = false ->
  records (_data w') = evictOldest s (records (_data w)).
Proof.
  induction 1 as [w|w id oldest tl evicted w' N E Cb Ev IH]; intros D Done.
  - rewrite (need_overBounds _ D) in Done.
    destruct (records (_data w)) as [|p tl]; [reflexivity|].
    cbn [evictOldest]. now rewrite Done.
  - rewrite (need_overBounds _ D) in N. rewrite E in *.
    cbn [evictOldest]. rewrite N. apply IH; [|exact Done].
    simpl. rewrite D, sumSizes_cons. simpl. lia.
Qed.

Variable extractKey : list byte -> StatusWith RecordId.t.

Lemma finishInsert_minimal loc data w0 out w1 :
  finishInsert s loc data w0 = (Returned (StatusOK, out), w1) ->
  out = Rec.mk loc data
  /\ exists evicted,
       evictsWhileNeeded s evicted
         (afterInsert w0 loc (EphemeralForTestRecord.ofBytes data)) w1
       /\ cappedAndNeedDelete s (_data w1) = false.
Proof.
  unfold finishInsert.
  destruct (cappedDeleteAsNeeded s _) as [r w2] eqn:E.
  destruct (cappedDeleteAsNeeded_minimal _ _ _ E) as (ev & Ev & Done & _).
  destruct r as [[]| | | ]; try discriminate.
  intros H. injection H as Ho Hw. subst out w2.
  split; [reflexivity|]. exists ev. split; [exact Ev | now apply Done].
Qed.

Lemma insertSingleFn_minimal record w out w1 :
  insertSingleFn extractKey s record w = (Returned (StatusOK, out), w1) ->
  Rec.data out = Rec.data record /\ insertedEach s w [out] w1.
Proof.
  rewrite insertSingleFn_unfold.
  destruct (isOplog (_data w)) eqn:O.
  - destruct (extractAndCheckLocForOplog extractKey (_data w) (Rec.data record))
      as [loc|]; [|discriminate].
    intros H. apply finishInsert_minimal in H as (-> & ev & Ev & Done).
    split; [reflexivity|].
    eapply insertedEach_cons;
      [left; split; [exact O | reflexivity] | exact Ev | exact Done |].
    apply insertedEach_nil.
  - destruct (RecordId.isNormal (nextId (_data w))); [|discriminate].
    intros H. apply finishInsert_minimal in H as (-> & ev & Ev & Done).
    split; [reflexivity|].
    eapply insertedEach_cons;
      [right; split; [exact O | split; reflexivity] | exact Ev | exact Done |].
    apply insertedEach_nil.
Qed.

Lemma insertedEach_app w a w1 b w2 :
  insertedEach s w a w1 -> insertedEach s w1 b w2 -> insertedEach s w (a ++ b) w2.
Proof.
  induction 1 as [w|w w0 out ev w1 outs w3 K Ev Done Rest IH]; intros B; [exact B|].
  simpl. eapply insertedEach_cons; eauto.
Qed.

Lemma insertEach_minimal batch : forall w outs w',
  insertEach extractKey s batch w = (Returned (StatusOK, outs), w') ->
  insertedEach s w outs w'.
Proof.
  induction batch as [|record rest IH]; intros w outs w' H.
  - injection H as Ho Hw. subst outs w'. apply insertedEach_nil.
  - rewrite insertEach_cons in H.
    destruct (insertSingleFn extractKey s record w) as [[[st out]| | | ] w1] eqn:E1;
      try discriminate.
    destruct st; [|discriminate].
    destruct (insertEach extractKey s rest w1) as [[[st' outs']| | | ] w2] eqn:E2;
      try discriminate.
    injection H as Hs Ho Hw. subst st' outs w2.
    apply insertSingleFn_minimal in E1 as [_ I1].
    exact (insertedEach_app _ _ _ _ _ I1 (IH _ _ _ E2)).
Qed.

Lemma insertsOk_minimal w batches log w' :
  insertsOk extractKey s w batches log w' -> insertedEach s w log w'.
Proof.
  induction 1 as [w|w batch batches outs w1 log w2 H Run IH];
    [apply insertedEach_nil|].
  unfold insertRecords in H.
  destruct (existsb (exceedsCappedMaxSize s) batch); [discriminate|].
  exact (insertedEach_app _ _ _ _ _ (insertEach_minimal _ _ _ _ H) IH).
Qed.

Lemma insertSingleFn_survivors record w out w1 :
  wfWorld w ->
  insertSingleFn extractKey s record w = (Returned (StatusOK, out), w1) ->
  records (_data w1) = evictOldest s (records (_data w) ++ [entryOf out]).
Proof.
  intros W H.
  destruct (insertSingleFn_ok extractKey s record w out w1 W H) as (_ & ev0 & F & _).
  assert (K : forall w0 loc data,
            records (_data w0) = records (_data w) ->
            dataSize (_data w0) = dataSize (_data w) ->
            Forall (fun k => k < loc) (Map.keys (records (_data w))) ->
            finishInsert s loc data w0 = (Returned (StatusOK, out), w1) ->
            records (_data w1) = evictOldest s (records (_data w) ++ [entryOf out])).
  { intros w0 loc data R0 D0 Fl Fin.
    apply finishInsert_minimal in Fin as (-> & ev & Ev & Done).
    rewrite (evictsWhileNeeded_evictOldest _ _ _ Ev); [|simpl|exact Done].
    - simpl. rewrite R0. unfold entryOf. simpl. now rewrite (assign_last _ _ _ Fl).
    - rewrite R0, D0, (assign_last _ _ _ Fl), sumSizes_app, sumSizes_cons.
      destruct W as [(_ & D & _) _]. rewrite D.
      change (Map.sumSizes []) with 0. simpl. lia. }
  rewrite insertSingleFn_unfold in H.
  destruct (isOplog (_data w)) eqn:O.
  - destruct (extractAndCheckLocForOplog extractKey (_data w) (Rec.data record))
      as [loc|] eqn:X; [|discriminate].
    apply extractAndCheck_value in X as [_ X].
    apply (K w loc (Rec.data record)); auto.
    apply fresh_above_last; [apply W | exact X].
  - destruct (RecordId.isNormal (nextId (_data w))); [|discriminate].
    apply (K (bumpNextId w) (nextId (_data w)) (Rec.data record)); auto.
    apply W. exact O.
Qed.

Lemma insertEach_survivors batch : forall w outs w',
  wfWorld w ->
  insertEach extractKey s batch w = (Returned (StatusOK, outs), w') ->
  records (_data w') = survivors s outs (records (_data w)).
Proof.
  induction batch as [|record rest IH]; intros w outs w' W H.
  - injection H as Ho Hw. subst outs w'. reflexivity.
  - rewrite insertEach_cons in H.
    pose proof (insertSingleFn_wf extractKey s record w W) as W1.
    destruct (insertSingleFn extractKey s record w) as [[[st out]| | | ] w1] eqn:E1;
      try discriminate.
    destruct st; [|discriminate]. simpl in W1.
    destruct (insertEach extractKey s rest w1) as [[[st' outs']| | | ] w2] eqn:E2;
      try discriminate.
    injection H as Hs Ho Hw. subst st' outs w2.
    unfold survivors. cbn [fold_left].
    rewrite <- (insertSingleFn_survivors _ _ _ _ W E1).
    exact (IH _ _ _ W1 E2).
Qed.

Lemma insertsOk_survivors w batches log w' :
  insertsOk extractKey s w batches log w' ->
  wfWorld w ->
  records (_data w') = survivors s log (records (_data w)).
Proof.
  induction 1 as [w|w batch batches outs w1 log w2 H Run IH]; intros W;
    [reflexivity|].
  unfold insertRecords in H.
  destruct (existsb (exceedsCappedMaxSize s) batch); [discriminate|].
  pose proof (insertEach_wf extractKey s batch w W) as W1.
  rewrite H in W1. simpl in W1.
  rewrite (IH W1), (insertEach_survivors _ _ _ _ W H).
  unfold survivors. now rewrite fold_left_app.
Qed.

End EvictionMinimal.

(** C2 (amended).  In a capped store with [cappedMaxSize = S], after any
    run of [insertRecords] calls that returned OK, started on the empty
    store: the byte counter [dataSize] is at most [S] and is the total size
    of the records present; when [cappedMaxDocs] is set the number of
    records is at most it; [storageSize()] is the byte counter plus
    [sizeof(EphemeralForTestRecord)] per record.  The records present are
    the most recently inserted ones: the map is the log of all inserted
    records less a prefix (the oldest ones), the newest record is in it, and
    it is exactly what is left when, after every insert, the record with the
    lowest key is deleted while the total size is above [cappedMaxSize] or,
    when [cappedMaxDocs] is set, the number of records is above it.  Every
    one of these deletions was made in a world in which the test of the loop
    held, on the record with the lowest key of that world, after the
    callback of the store, if any, answered OK for it, and after each insert
    the loop went on until the test failed. *)
Theorem capped_bound_after_inserts :
  forall (extractKey : list byte -> StatusWith RecordId.t) (sizeofRecord : Z)
         (s : Store) (oplog : bool) batches log w,
    _isCapped s = true ->
    Store_valid s = true ->
    insertsOk extractKey s (World_new oplog) batches log w ->
    dataSize (_data w) <= _cappedMaxSize s
    /\ (_cappedMaxDocs s <> -1 -> numRecords (_data w) <= _cappedMaxDocs s)
    /\ dataSize (_data w) = Map.sumSizes (records (_data w))
    /\ storageSize sizeofRecord (_data w)
       = Map.sumSizes (records (_data w)) + numRecords (_data w) * sizeofRecord
    /\ (exists evicted, map entryOf log = evicted ++ records (_data w))
    /\ endsWith log (records (_data w))
    /\ records (_data w) = survivors s log []
    /\ insertedEach s (World_new oplog) log w
    /\ (forall d,
           cappedAndNeedDelete s d
           = (dataSize d >? _cappedMaxSize s)
             || (negb (_cappedMaxDocs s =? -1) && (numRecords d >? _cappedMaxDocs s))).
Proof.
  intros extractKey sizeofRecord s oplog batches log w C V Run.
  destruct (insertsOk_inv extractKey s V _ _ _ _ Run [])
    as (W & N & S & L).
  - apply wfWorld_new.
  - apply need_false_new; exact V.
  - exists []. reflexivity.
  - intros older newest E. destruct older; discriminate.
  - destruct (need_false_bounds s (_data w) C N) as [B1 B2].
    destruct W as [(_ & D & _) _].
    split; [exact B1|]. split; [exact B2|]. split; [exact D|].
    split; [unfold storageSize; rewrite D; reflexivity|].
    split; [exact S|]. split; [exact L|].
    split; [|split].
    + exact (insertsOk_survivors s extractKey _ _ _ _ Run (wfWorld_new oplog)).
    + exact (insertsOk_minimal s extractKey _ _ _ _ Run).
    + intros d. unfold cappedAndNeedDelete. rewrite C. simpl.
      destruct (dataSize d >? _cappedMaxSize s); simpl; [reflexivity|].
      destruct (negb (_cappedMaxDocs s =? -1) && (numRecords d >? _cappedMaxDocs s));
        reflexivity.
Qed.

Lemma cappedAfterAB_run :
  insertsOk firstByteKey capped8 (World_new false)
    [[Rec.mk 0 payloadA]; [Rec.mk 0 payloadB]]
    ([Rec.mk 1 payloadA] ++ [Rec.mk 2 payloadB] ++ []) cappedAfterAB.
Proof.
  eapply insertsOk_cons; [reflexivity|].
  eapply insertsOk_cons; [reflexivity|].
  apply insertsOk_nil.
Qed.

Lemma cappedAfter8_run :
  insertsOk firstByteKey capped8 (World_new false)
    [[Rec.mk 0 payload8]] ([Rec.mk 1 payload8] ++ []) cappedAfter8.
Proof.
  eapply insertsOk_cons; [reflexivity | apply insertsOk_nil].
Qed.

(** "A" then "B", 5 bytes each, into the capped store of 8 bytes: "A" is
    evicted when "B" comes, and only "A". *)
Lemma capped_bound_after_inserts_witness :
  dataSize (_data cappedAfterAB) <= 8
  /\ (_cappedMaxDocs capped8 <> -1 ->
      numRecords (_data cappedAfterAB) <= _cappedMaxDocs capped8)
  /\ dataSize (_data cappedAfterAB) = Map.sumSizes (records (_data cappedAfterAB))
  /\ storageSize 24 (_data cappedAfterAB)
     = Map.sumSizes (records (_data cappedAfterAB))
       + numRecords (_data cappedAfterAB) * 24
  /\ (exists evicted,
        map entryOf ([Rec.mk 1 payloadA] ++ [Rec.mk 2 payloadB] ++ [])
        = evicted ++ records (_data cappedAfterAB))
  /\ endsWith ([Rec.mk 1 payloadA] ++ [Rec.mk 2 payloadB] ++ [])
       (records (_data cappedAfterAB))
  /\ records (_data cappedAfterAB)
     = survivors capped8 ([Rec.mk 1 payloadA] ++ [Rec.mk 2 payloadB] ++ []) []
  /\ insertedEach capped8 (World_new false)
       ([Rec.mk 1 payloadA] ++ [Rec.mk 2 payloadB] ++ []) cappedAfterAB.
Proof.
  pose proof (capped_bound_after_inserts firstByteKey 24 capped8 false
                [[Rec.mk 0 payloadA]; [Rec.mk 0 payloadB]]
                ([Rec.mk 1 payloadA] ++ [Rec.mk 2 payloadB] ++ []) cappedAfterAB
                eq_refl eq_refl cappedAfterAB_run)
    as (B1 & B2 & D & St & Sfx & Last & Sv & Each & _).
  repeat split; assumption.
Defined.

(** C2, as stated, fails: one record of 8 bytes in the capped store of 8
    bytes is kept, and [storageSize()] is then above 8 whatever the positive
    size of the record struct. *)
Lemma capped_storageSize_exceeds_max :
  insertsOk firstByteKey capped8 (World_new false)
    [[Rec.mk 0 payload8]] ([Rec.mk 1 payload8] ++ []) cappedAfter8
  /\ (forall sizeofRecord, 0 < sizeofRecord ->
      _cappedMaxSize capped8 < storageSize sizeofRecord (_data cappedAfter8)).
Proof.
  split; [exact cappedAfter8_run|].
  intros sz Pos. unfold storageSize, numRecords, Map.size, cappedAfter8, capped8.
  cbn [_data dataSize records length _cappedMaxSize]. lia.
Qed.

(* ------------------------------------------------------------------ *)
(** ** Every operation keeps the invariant *)

Section Preservation.

Import MapFacts.

Variable extractKey : list byte -> StatusWith RecordId.t.
Variable s : Store.

Ltac run_step :=
  unfold bind, getData, modifyData, registerChange, invariant, ret; simpl.

Lemma find_assign_same k v m : Map.find k (Map.assign k v m) = Some v.
Proof.
  induction m as [|[k' v'] m IH]; simpl.
  - now rewrite Z.eqb_refl.
  - destruct (Z.ltb_spec k k') as [L|G]; simpl.
    + now rewrite Z.eqb_refl.
    + destruct (Z.eqb_spec k k') as [->|N]; simpl.
      * now rewrite Z.eqb_refl.
      * destruct (Z.eqb_spec k' k); [congruence | exact IH].
Qed.

Lemma find_suffix a b k r :
  Map.ordered (a ++ b) -> Map.find k b = Some r -> Map.find k (a ++ b) = Some r.
Proof.
  intros O F. induction a as [|[k' v'] a IH]; simpl; [exact F|].
  destruct (Z.eqb_spec k' k) as [->|N].
  - exfalso. pose proof (find_some_in _ _ _ F) as I.
    assert (k < k); [|lia].
    apply (ordered_app_lt ((k, v') :: a) b); auto. now left.
  - apply IH. simpl in O. apply ordered_inv in O. tauto.
Qed.

Lemma insertRecords_wf batch w :
  wfWorld w -> wfWorld (snd (insertRecords extractKey s batch w)).
Proof.
  intros W. unfold insertRecords.
  destruct (existsb (exceedsCappedMaxSize s) batch); [exact W|].
  now apply insertEach_wf.
Qed.

Lemma cappedDeleteAsNeeded_wf w :
  wfWorld w -> wfWorld (snd (cappedDeleteAsNeeded s w)).
Proof.
  intros W. destruct (cappedDeleteAsNeeded s w) as [r w'] eqn:E.
  apply cappedDeleteAsNeeded_shape in E as (ev & Ev & _).
  eapply wfWorld_evicts; eauto.
Qed.

Lemma wfWorld_afterReplace w loc old new :
  wfWorld w ->
  Map.find loc (records (_data w)) = Some old ->
  wfWorld (afterReplace w loc old new).
Proof.
  intros [(O & D & F) C] Found.
  assert (L : isOplog (_data w) = false -> loc < nextId (_data w)).
  { intros E. specialize (F E). rewrite Forall_forall in F.
    apply F. eapply find_some_in; eauto. }
  unfold wfWorld, wfData, wfRecords, afterReplace; simpl. repeat split.
  - now apply ordered_assign.
  - rewrite sumSizes_assign by exact O. unfold found_size. rewrite Found. lia.
  - intros E. apply keys_assign_Forall; auto.
  - apply Forall_app. split; [exact C|]. repeat constructor. exact L.
Qed.

Lemma deleteRecord_wf loc w :
  wfWorld w -> wfWorld (snd (deleteRecord loc w)).
Proof.
  intros W. unfold deleteRecord, recordFor. run_step.
  destruct (Map.find loc (records (_data w))) as [old|] eqn:Found; simpl; [|exact W].
  unfold Map.erase_count. rewrite Found. simpl.
  destruct W as [(O & D & F) C].
  unfold wfWorld, wfData, wfRecords; simpl. repeat split.
  - now apply ordered_erase.
  - rewrite sumSizes_erase. unfold found_size. rewrite Found. lia.
  - intros E. apply keys_erase_Forall; auto.
  - apply Forall_app. split; [exact C|]. repeat constructor.
    simpl. intros E. specialize (F E). rewrite Forall_forall in F.
    apply F. eapply find_some_in; eauto.
Qed.

Lemma updateRecord_wf loc data w :
  wfWorld w -> wfWorld (snd (updateRecord s loc data w)).
Proof.
  intros W. unfold updateRecord, recordFor.
  unfold bind at 1. unfold bind at 1. unfold getData at 1.
  destruct (Map.find loc (records (_data w))) as [old|] eqn:Found; [|exact W].
  unfold ret at 1. unfold bind at 1. unfold invariant at 1.
  destruct (negb (_isCapped s)
            || (Z.of_nat (length data) =? EphemeralForTestRecord.size old));
    [|exact W].
  unfold bind at 1. unfold registerChange at 1.
  unfold bind at 1. unfold modifyData at 1.
  unfold bind at 1. unfold modifyData at 1. simpl _data. simpl _changes.
  unfold bind, ret.
  match goal with
  | |- context [cappedDeleteAsNeeded s ?w1] =>
      change w1 with (afterReplace w loc old (EphemeralForTestRecord.ofBytes data));
      pose proof (cappedDeleteAsNeeded_wf _
                    (wfWorld_afterReplace w loc old
                       (EphemeralForTestRecord.ofBytes data) W Found)) as W2;
      destruct (cappedDeleteAsNeeded s
                  (afterReplace w loc old (EphemeralForTestRecord.ofBytes data)))
        as [[ | | | ] w2]; exact W2
  end.
Qed.

End Preservation.

Section PreservationMore.

Import MapFacts.

Variable s : Store.

Lemma set_dataSize_same d : set_dataSize (dataSize d) d = d.
Proof. destruct d; reflexivity. Qed.

Lemma wfWorld_assignThrough w loc r :
  wfWorld w ->
  (forall r', Map.find loc (records (_data w)) = Some r' ->
              EphemeralForTestRecord.size r' = EphemeralForTestRecord.size r) ->
  wfWorld {| _data := set_records (assignThrough loc r (records (_data w))) (_data w);
             _changes := _changes w |}.
Proof.
  intros [(O & D & F) C] Same. unfold assignThrough.
  destruct (Map.find loc (records (_data w))) as [r'|] eqn:Found.
  - specialize (Same r' eq_refl).
    unfold wfWorld, wfData, wfRecords; simpl. repeat split; auto.
    + now apply ordered_assign.
    + rewrite sumSizes_assign by exact O. unfold found_size. rewrite Found. lia.
    + intros E. specialize (F E). apply keys_assign_Forall; auto.
      rewrite Forall_forall in F. apply F. eapply find_some_in; eauto.
  - unfold wfWorld, wfData, wfRecords; simpl. repeat split; auto.
Qed.

Lemma updateWithDamages_wf loc damageSource damages w :
  wfWorld w -> wfWorld (snd (updateWithDamages s loc damageSource damages w)).
Proof.
  intros W. unfold updateWithDamages, recordFor.
  unfold bind at 1. unfold bind at 1. unfold getData at 1.
  destruct (Map.find loc (records (_data w))) as [old|] eqn:Found; [|exact W].
  unfold ret at 1.
  unfold bind at 1. unfold registerChange at 1.
  unfold bind at 1. unfold modifyData at 1. simpl _data. simpl _changes.
  set (len := EphemeralForTestRecord.size old).
  set (newRecord := EphemeralForTestRecord.mk len
                      (firstn (Z.to_nat len) (EphemeralForTestRecord.data old))).
  set (w1 := {| _data := set_records (Map.assign loc newRecord (records (_data w))) (_data w);
                _changes := _changes w ++ [RemoveChange loc old] |}).
  assert (W1 : wfWorld w1).
  { pose proof (wfWorld_afterReplace w loc old newRecord W Found) as X.
    unfold afterReplace in X.
    assert (Z0 : dataSize (_data w)
                 + (EphemeralForTestRecord.size newRecord
                    - EphemeralForTestRecord.size old) = dataSize (_data w))
      by (subst newRecord len; simpl; lia).
    rewrite Z0, set_dataSize_same in X. exact X. }
  unfold bind at 1.
  destruct (cappedDeleteAsNeeded s w1) as [r w2] eqn:E.
  apply cappedDeleteAsNeeded_shape in E as (ev & Ev & _).
  pose proof (wfWorld_evicts _ _ _ W1 Ev) as W2.
  destruct r; try exact W2.
  unfold bind, modifyData, ret. simpl.
  apply wfWorld_assignThrough; [exact W2|].
  intros r' F'. simpl.
  destruct Ev as (R & _).
  assert (X : Map.find loc (records (_data w1)) = Some r').
  { rewrite R. apply find_suffix; [|exact F']. rewrite <- R. apply W1. }
  subst w1. simpl in X. rewrite find_assign_same in X. inversion X. reflexivity.
Qed.

Lemma truncate_wf w : wfWorld w -> wfWorld (snd (truncate w)).
Proof.
  intros [(O & D & F) C]. unfold truncate, TruncateChange_swap; simpl.
  unfold wfWorld, wfData, wfRecords; simpl. repeat split.
  - apply ordered_nil.
  - intros _. constructor.
  - apply Forall_app. split; [exact C|]. repeat constructor; assumption.
Qed.

(** Rolling one change back keeps the invariant of the data, and leaves the
    allocator and the oplog flag alone. *)
Lemma rollback_wf c d :
  wfData d -> wfChange (isOplog d) (nextId d) c ->
  wfData (snd (rollback c d))
  /\ isOplog (snd (rollback c d)) = isOplog d
  /\ nextId (snd (rollback c d)) = nextId d
  /\ exists c', fst (rollback c d) = Returned c'.
Proof.
  intros (O & D & F) Wc. destruct c as [loc|loc rec|ds recs]; simpl.
  - unfold bind, get, modify, ret.
    destruct (Map.find loc (records d)) as [r|] eqn:Found; simpl.
    + split; [|split; [reflexivity|split; [reflexivity|eauto]]].
      unfold wfData, wfRecords; simpl. split; [now apply ordered_erase|split].
      * rewrite sumSizes_erase. unfold found_size. rewrite Found. lia.
      * intros E. apply keys_erase_Forall; auto.
    + split; [|split; [reflexivity|split; [reflexivity|eauto]]].
      unfold wfData, wfRecords; auto.
  - unfold bind, get, modify, ret. simpl in Wc.
    assert (S : Map.sumSizes (Map.assign loc rec (records d))
                = Map.sumSizes (records d) + EphemeralForTestRecord.size rec
                  - found_size loc (records d))
      by (now apply sumSizes_assign).
    unfold found_size in S.
    destruct (Map.find loc (records d)) as [r|] eqn:Found; simpl.
    + split; [|split; [reflexivity|split; [reflexivity|eauto]]].
      unfold wfData, wfRecords; simpl. split; [now apply ordered_assign|split].
      * lia.
      * intros E. apply keys_assign_Forall; auto.
    + split; [|split; [reflexivity|split; [reflexivity|eauto]]].
      unfold wfData, wfRecords; simpl. split; [now apply ordered_assign|split].
      * lia.
      * intros E. apply keys_assign_Forall; auto.
  - destruct Wc as (O' & D' & F').
    split; [|split; [reflexivity|split; [reflexivity|eauto]]].
    unfold wfData, wfRecords; simpl. auto.
Qed.

Lemma rollbackEach_wf cs : forall d,
  wfData d -> Forall (wfChange (isOplog d) (nextId d)) cs ->
  wfData (snd (rollbackEach cs d))
  /\ fst (rollbackEach cs d) = Returned tt.
Proof.
  induction cs as [|c cs IH]; intros d W F; simpl; [auto|].
  inversion F as [|? ? Fc Fcs]; subst.
  destruct (rollback_wf c d W Fc) as (W1 & I1 & N1 & c' & R1).
  unfold bind. destruct (rollback c d) as [r d1]. simpl in *. subst r.
  apply IH; [exact W1|]. rewrite I1, N1. exact Fcs.
Qed.

Lemma abortUnitOfWork_wf w : wfWorld w -> wfWorld (snd (abortUnitOfWork w)).
Proof.
  intros [W C]. unfold abortUnitOfWork.
  destruct (rollbackEach_wf (rev (_changes w)) (_data w) W) as [W' _].
  { apply Forall_rev. exact C. }
  destruct (rollbackEach (rev (_changes w)) (_data w)) as [r d].
  split; [exact W' | constructor].
Qed.

Lemma commitUnitOfWork_wf w : wfWorld w -> wfWorld (snd (commitUnitOfWork w)).
Proof.
  intros [W C]. split; [exact W | constructor].
Qed.

End PreservationMore.

Section CappedTruncateAfter.

Import MapFacts.

Variable s : Store.

Lemma erase_middle keep id r rest :
  Map.ordered (keep ++ (id, r) :: rest) ->
  Map.erase id (keep ++ (id, r) :: rest) = keep ++ rest.
Proof.
  induction keep as [|[k v] keep IH]; simpl; intros O.
  - now rewrite Z.eqb_refl.
  - destruct (Z.eqb_spec k id) as [->|N].
    + exfalso. assert (id < id); [|lia].
      apply (ordered_app_lt ((id, v) :: keep) ((id, r) :: rest)); simpl; auto.
    + f_equal. apply IH. apply ordered_inv in O. tauto.
Qed.

Lemma filter_all {A : Type} (P : A -> bool) (l : list A) :
  Forall (fun x => P x = true) l -> filter P l = l.
Proof.
  induction 1 as [|x l Px F IH]; simpl; [reflexivity|].
  now rewrite Px, IH.
Qed.

(** In an ordered map the nodes from a bound on are a suffix. *)
Lemma filter_from_bound (endId : RecordId.t) (inclusive : bool) m :
  Map.ordered m ->
  exists keep,
    m = keep ++ filter (fun p => if inclusive then endId <=? fst p else endId <? fst p) m.
Proof.
  induction m as [|[k v] m IH]; intros O; [now exists []|].
  pose proof (ordered_inv _ _ _ O) as [Om F].
  simpl filter. simpl fst.
  destruct (if inclusive then endId <=? k else endId <? k) eqn:P.
  - exists []. simpl. f_equal. symmetry. apply filter_all.
    unfold Map.keys in F. rewrite Forall_map in F.
    eapply Forall_impl; [|exact F]. simpl. intros [k' v'] L. simpl in *.
    destruct inclusive.
    + apply Z.leb_le in P. apply Z.leb_le. lia.
    + apply Z.ltb_lt in P. apply Z.ltb_lt. lia.
  - destruct (IH Om) as (keep & E). exists ((k, v) :: keep).
    simpl. f_equal. exact E.
Qed.

Lemma cappedTruncateAfter_loop_wf pending : forall w keep,
  records (_data w) = keep ++ pending ->
  wfWorld w ->
  wfWorld (snd (cappedTruncateAfter_loop s pending w)).
Proof.
  induction pending as [|[id record] rest IH]; intros w keep R W; [exact W|].
  simpl. unfold bind at 1.
  assert (O : Map.ordered (keep ++ (id, record) :: rest))
    by (rewrite <- R; apply W).
  assert (Found : Map.find id (records (_data w)) = Some record).
  { rewrite R. apply find_suffix; [exact O|]. simpl. now rewrite Z.eqb_refl. }
  assert (K : wfWorld
                (snd (cappedTruncateAfter_loop s rest
                        {| _data :=
                             set_records (Map.erase id (records (_data w)))
                               (set_dataSize
                                  (dataSize (_data w) - EphemeralForTestRecord.size record)
                                  (_data w));
                           _changes := _changes w ++ [RemoveChange id record] |}))).
  { apply IH with (keep := keep).
    - simpl. rewrite R. now apply erase_middle.
    - pose proof (deleteRecord_wf id w W) as X.
      unfold deleteRecord, recordFor, bind, getData, registerChange, modifyData,
        invariant, ret, Map.erase_count in X.
      simpl in X. rewrite Found in X. simpl in X. rewrite Found in X. exact X. }
  destruct (_cappedCallback s) as [cb|]; unfold uassertStatusOK, ret, get.
  - unfold bind at 1.
    destruct (cb w id (EphemeralForTestRecord.toRecordData record)); [|exact W].
    unfold bind, registerChange, modifyData. simpl. exact K.
  - unfold bind, registerChange, modifyData. simpl. exact K.
Qed.

Lemma cappedTruncateAfter_wf endId inclusive w :
  wfWorld w -> wfWorld (snd (cappedTruncateAfter s endId inclusive w)).
Proof.
  intros W. unfold cappedTruncateAfter, bind, getData.
  destruct (filter_from_bound endId inclusive (records (_data w))) as (keep & E);
    [apply W|].
  now apply cappedTruncateAfter_loop_wf with (keep := keep).
Qed.

End CappedTruncateAfter.

(* ------------------------------------------------------------------ *)
(** ** Histories of operations *)

Lemma step_wf extractKey s w op : wfWorld w -> wfWorld (step extractKey s w op).
Proof.
  intros W. destruct op; simpl.
  - now apply insertRecords_wf.
  - now apply updateRecord_wf.
  - now apply updateWithDamages_wf.
  - now apply deleteRecord_wf.
  - now apply truncate_wf.
  - now apply cappedTruncateAfter_wf.
  - now apply commitUnitOfWork_wf.
  - now apply abortUnitOfWork_wf.
Qed.

Lemma runOps_wf extractKey s ops : forall w,
  wfWorld w -> wfWorld (runOps extractKey s ops w).
Proof.
  induction ops as [|op ops IH]; intros w W; [exact W|].
  simpl. apply IH. now apply step_wf.
Qed.

(** C4 (amended).  After every history of inserts, updates, deletes,
    truncates, evictions (they run inside inserts and updates) and
    rollbacks, started on the empty store, the byte counter of the store is
    the sum of the sizes of the records present; [storageSize()] returns
    that sum plus [sizeof(EphemeralForTestRecord)] for every record
    present. *)
Theorem dataSize_is_sum_of_record_sizes :
  forall (extractKey : list byte -> StatusWith RecordId.t) (sizeofRecord : Z)
         (s : Store) (oplog : bool) (ops : list Op),
    dataSize (_data (runOps extractKey s ops (World_new oplog)))
    = Map.sumSizes (records (_data (runOps extractKey s ops (World_new oplog))))
    /\ storageSize sizeofRecord (_data (runOps extractKey s ops (World_new oplog)))
       = Map.sumSizes (records (_data (runOps extractKey s ops (World_new oplog))))
         + numRecords (_data (runOps extractKey s ops (World_new oplog))) * sizeofRecord.
Proof.
  intros extractKey sizeofRecord s oplog ops.
  pose proof (runOps_wf extractKey s ops (World_new oplog) (wfWorld_new oplog))
    as [(_ & D & _) _].
  split; [exact D|]. unfold storageSize. rewrite D. reflexivity.
Qed.

(** C4, as stated, fails: after one record of 5 bytes was inserted the sum
    of the sizes is 5, and [storageSize()] is not 5 whatever the positive
    size of the record struct. *)
Lemma storageSize_is_not_sum_of_sizes :
  Map.sumSizes
    (records (_data (runOps firstByteKey plainStore
                       [OpInsertRecords [Rec.mk 0 payloadA]] (World_new false)))) = 5
  /\ (forall sizeofRecord, 0 < sizeofRecord ->
      storageSize sizeofRecord
        (_data (runOps firstByteKey plainStore
                  [OpInsertRecords [Rec.mk 0 payloadA]] (World_new false)))
      <> 5).
Proof.
  split; [reflexivity|].
  intros sz Pos. unfold storageSize, numRecords, Map.size.
  change (runOps firstByteKey plainStore [OpInsertRecords [Rec.mk 0 payloadA]]
            (World_new false))
    with {| _data := {| records := [(1, EphemeralForTestRecord.ofBytes payloadA)];
                        dataSize := 5; nextId := 2; isOplog := false |};
            _changes := [InsertChange 1] |}.
  cbn [_data dataSize records length]. lia.
Qed.

(* ------------------------------------------------------------------ *)
(** ** Errors returned by [insertRecords] *)

Lemma existsb_app_false {A : Type} (P : A -> bool) (l1 l2 : list A) :
  existsb P (l1 ++ l2) = false -> existsb P l1 = false.
Proof.
  rewrite existsb_app. intros H. apply orb_false_iff in H. tauto.
Qed.

(** C5 (amended).  When [insertRecords] returns the capacity error
    (a record of the batch is larger than [cappedMaxSize]), the world is
    exactly as before the call.  When it returns another error (the
    out-of-order error of an oplog store, or the error of the key
    extractor), the world is the one the records of the batch before the
    failing record left: they went through and stay inserted, with their
    changes registered; the failing record changed nothing, and the records
    after it were not looked at. *)
Theorem insertRecords_error_state :
  forall (extractKey : list byte -> StatusWith RecordId.t) (s : Store)
         (batch : list Rec.t) (w : World),
    (existsb (exceedsCappedMaxSize s) batch = true ->
     insertRecords extractKey s batch w
     = (Returned (StatusError BadValue ExceedsCappedMaxSize, batch), w))
    /\ (forall c e outs w',
           existsb (exceedsCappedMaxSize s) batch = false ->
           insertRecords extractKey s batch w = (Returned (StatusError c e, outs), w') ->
           exists pre failing post pre',
             batch = pre ++ failing :: post
             /\ insertRecords extractKey s pre w = (Returned (StatusOK, pre'), w')
             /\ insertSingleFn extractKey s failing w'
                = (Returned (StatusError c e, failing), w')
             /\ outs = pre' ++ failing :: post).
Proof.
  intros extractKey s batch w. split.
  - intros Big. unfold insertRecords. rewrite Big. reflexivity.
  - intros c e outs w' Fit. unfold insertRecords at 1. rewrite Fit. intros H.
    destruct (insertEach_error extractKey s batch w c e outs w' H)
      as (pre & failing & post & pre' & -> & Hp & Hf & ->).
    exists pre, failing, post, pre'. repeat split; auto.
    unfold insertRecords. rewrite (existsb_app_false _ _ _ Fit). exact Hp.
Qed.

Lemma insertRecords_error_state_witness :
  (insertRecords firstByteKey capped8 [Rec.mk 0 payloadA; Rec.mk 0 (payload8 ++ payloadA)]
     (World_new false)
   = (Returned (StatusError BadValue ExceedsCappedMaxSize,
                [Rec.mk 0 payloadA; Rec.mk 0 (payload8 ++ payloadA)]),
      World_new false))
  /\ exists pre failing post pre',
       [Rec.mk 0 [x05]; Rec.mk 0 [x03]; Rec.mk 0 [x09]] = pre ++ failing :: post
       /\ insertRecords firstByteKey plainStore pre (World_new true)
          = (Returned (StatusOK, pre'),
             {| _data := {| records := [(5, EphemeralForTestRecord.ofBytes [x05])];
                            dataSize := 1; nextId := 1; isOplog := true |};
                _changes := [InsertChange 5] |})
       /\ insertSingleFn firstByteKey plainStore failing
            {| _data := {| records := [(5, EphemeralForTestRecord.ofBytes [x05])];
                           dataSize := 1; nextId := 1; isOplog := true |};
               _changes := [InsertChange 5] |}
          = (Returned (StatusError BadValue (OutOfOrderOplogInsert 3 5), failing),
             {| _data := {| records := [(5, EphemeralForTestRecord.ofBytes [x05])];
                            dataSize := 1; nextId := 1; isOplog := true |};
                _changes := [InsertChange 5] |})
       /\ [Rec.mk 5 [x05]; Rec.mk 0 [x03]; Rec.mk 0 [x09]] = pre' ++ failing :: post.
Proof.
  split.
  - apply (proj1 (insertRecords_error_state firstByteKey capped8
                    [Rec.mk 0 payloadA; Rec.mk 0 (payload8 ++ payloadA)]
                    (World_new false))).
    reflexivity.
  - apply (proj2 (insertRecords_error_state firstByteKey plainStore
                    [Rec.mk 0 [x05]; Rec.mk 0 [x03]; Rec.mk 0 [x09]]
                    (World_new true))).
    + reflexivity.
    + reflexivity.
Defined.

(** C5, as stated, fails: the batch with keys 5 then 3 is turned down in an
    oplog store, and when the call returns the record with key 5 is in the
    map, counted in the byte size, with its change registered. *)
Lemma insertRecords_error_keeps_prefix :
  insertRecords firstByteKey plainStore [Rec.mk 0 [x05]; Rec.mk 0 [x03]] (World_new true)
  = (Returned (StatusError BadValue (OutOfOrderOplogInsert 3 5),
               [Rec.mk 5 [x05]; Rec.mk 0 [x03]]),
     {| _data := {| records := [(5, EphemeralForTestRecord.ofBytes [x05])];
                    dataSize := 1; nextId := 1; isOplog := true |};
        _changes := [InsertChange 5] |})
  /\ records (_data (World_new true)) = []
  /\ dataSize (_data (World_new true)) = 0
  /\ _changes (World_new true) = [].
Proof. repeat split. Qed.

(* ------------------------------------------------------------------ *)
(** ** Rollback of a change *)

(** C6 (amended).  The rollback of a change never signals an invariant
    violation: it always returns.  The rollback of an insert whose id is no
    longer in the map leaves the data as they are; the rollback of a remove
    or update whose id is no longer in the map puts the saved record back
    and adds its size; the rollback of a truncate swaps the saved map and
    size back in. *)
Theorem rollback_always_returns :
  forall (c : Change) (d : Data),
    exists c' d',
      rollback c d = (Returned c', d')
      /\ match c with
         | InsertChange loc =>
             match Map.find loc (records d) with
             | None => d' = d
             | Some r =>
                 d' = set_records (Map.erase loc (records d))
                        (set_dataSize (dataSize d - EphemeralForTestRecord.size r) d)
             end
         | RemoveChange loc rec =>
             match Map.find loc (records d) with
             | None =>
                 d' = set_records (Map.assign loc rec (records d))
                        (set_dataSize (dataSize d + EphemeralForTestRecord.size rec) d)
             | Some r =>
                 d' = set_records (Map.assign loc rec (records d))
                        (set_dataSize
                           (dataSize d - EphemeralForTestRecord.size r
                            + EphemeralForTestRecord.size rec) d)
             end
         | TruncateChange ds recs =>
             d' = set_records recs (set_dataSize ds d)
             /\ c' = TruncateChange (dataSize d) (records d)
         end.
Proof.
  intros c d. destruct c as [loc|loc rec|ds recs]; simpl;
    unfold bind, get, modify, ret.
  - destruct (Map.find loc (records d)); simpl; eauto.
  - destruct (Map.find loc (records d)); simpl; eauto.
  - eauto.
Qed.

(** C6, as stated, fails: the rollback of an insert whose id is absent from
    the map returns, and leaves the data as they were. *)
Lemma insert_rollback_absent_is_silent :
  Map.find 7 (records (Data_new false)) = None
  /\ rollback (InsertChange 7) (Data_new false)
     = (Returned (InsertChange 7), Data_new false).
Proof. split; reflexivity. Qed.

(* ------------------------------------------------------------------ *)
(** ** Truncate *)

(** C7.  [truncate] returns OK and leaves an empty map and a byte size of
    0: it swaps the map and the size into the [TruncateChange] it registers.
    Rolling that change back puts the map and the size back: the data are
    again exactly the data before the truncate, and aborting the unit of work
    after a truncate ends as aborting it before the truncate. *)
Theorem truncate_then_rollback_is_identity :
  forall (w : World),
    truncate w
    = (Returned StatusOK,
       {| _data := set_records [] (set_dataSize 0 (_data w));
          _changes := _changes w
                      ++ [TruncateChange (dataSize (_data w)) (records (_data w))] |})
    /\ records (_data (snd (truncate w))) = []
    /\ dataSize (_data (snd (truncate w))) = 0
    /\ rollback (TruncateChange (dataSize (_data w)) (records (_data w)))
         (_data (snd (truncate w)))
       = (Returned (TruncateChange 0 []), _data w)
    /\ abortUnitOfWork (snd (truncate w)) = abortUnitOfWork w.
Proof.
  intros [[m ds nid o] cs]. unfold truncate, TruncateChange_swap; simpl.
  repeat split.
  unfold abortUnitOfWork; simpl. rewrite rev_app_distr. simpl.
  unfold bind at 1. simpl. reflexivity.
Qed.

(* ------------------------------------------------------------------ *)
(** ** Calls with an id that is not in the store *)

(** C10.  [deleteRecord], [updateRecord] and [updateWithDamages] look the
    record up with [recordFor]: when the id is not in the map the invariant
    of [recordFor] fails, the call neither returns nor throws, and nothing
    was changed; when the id is in the map [recordFor] returns its record and
    [deleteRecord] returns. *)
Theorem absent_id_fails_invariant :
  forall (s : Store) (loc : RecordId.t) (data damageSource : list byte)
         (damages : list DamageEvent) (w : World),
    match Map.find loc (records (_data w)) with
    | None =>
        recordFor loc w = (InvariantFailed, w)
        /\ deleteRecord loc w = (InvariantFailed, w)
        /\ updateRecord s loc data w = (InvariantFailed, w)
        /\ updateWithDamages s loc damageSource damages w = (InvariantFailed, w)
    | Some r =>
        recordFor loc w = (Returned r, w)
        /\ fst (deleteRecord loc w) = Returned tt
    end.
Proof.
  intros s loc data damageSource damages w.
  destruct (Map.find loc (records (_data w))) as [r|] eqn:Found.
  - unfold deleteRecord, recordFor, bind, getData, registerChange, modifyData,
      invariant, ret, Map.erase_count; simpl.
    rewrite Found; simpl. rewrite Found. split; reflexivity.
  - unfold deleteRecord, updateRecord, updateWithDamages, recordFor, bind, getData,
      invariant, ret; simpl.
    rewrite Found. repeat split.
Qed.

(* ------------------------------------------------------------------ *)
(** ** Bounds in the ordered map *)

Section Bounds.

Import MapFacts.

Lemma lower_bound_spec k m :
  Map.ordered m -> firstKeyAtLeast k m (Map.lower_bound k m).
Proof.
  induction m as [|[k' v] m IH]; simpl; intros O.
  - intros i [].
  - pose proof (ordered_inv _ _ _ O) as [Om F]. rewrite Forall_forall in F.
    destruct (Z.leb_spec k k') as [L|G]; simpl.
    + split; [now left|]. split; [exact L|].
      intros i [<-|I] _; [lia|]. specialize (F _ I). lia.
    + specialize (IH Om). destruct (Map.lower_bound k m) as [j|]; simpl in *.
      * destruct IH as (I & L & Min). split; [now right|]. split; [exact L|].
        intros i [<-|Ii] Li; [lia | auto].
      * intros i [<-|Ii]; [lia | auto].
Qed.

Lemma upper_bound_spec k m :
  Map.ordered m -> firstKeyAbove k m (Map.upper_bound k m).
Proof.
  induction m as [|[k' v] m IH]; simpl; intros O.
  - intros i [].
  - pose proof (ordered_inv _ _ _ O) as [Om F]. rewrite Forall_forall in F.
    destruct (Z.ltb_spec k k') as [L|G]; simpl.
    + split; [now left|]. split; [exact L|].
      intros i [<-|I] _; [lia|]. specialize (F _ I). lia.
    + specialize (IH Om). destruct (Map.upper_bound k m) as [j|]; simpl in *.
      * destruct IH as (I & L & Min). split; [now right|]. split; [exact L|].
        intros i [<-|Ii] Li; [lia | auto].
      * intros i [<-|Ii]; [lia | auto].
Qed.

(** [below k m] is the greatest key under [k]. *)
Lemma below_spec k m :
  Map.ordered m ->
  match Map.below k m with
  | Some j =>
      In j (Map.keys m) /\ j < k
      /\ forall i, In i (Map.keys m) -> i < k -> i <= j
  | None => forall i, In i (Map.keys m) -> k <= i
  end.
Proof.
  induction m as [|[k' v] m IH]; simpl; intros O.
  - intros i [].
  - pose proof (ordered_inv _ _ _ O) as [Om F]. rewrite Forall_forall in F.
    specialize (IH Om).
    destruct (Z.ltb_spec k' k) as [L|G].
    + destruct (Map.below k m) as [j|].
      * destruct IH as (I & Lj & Max). split; [now right|]. split; [exact Lj|].
        intros i [<-|Ii] Li; [|auto]. specialize (F _ I). lia.
      * split; [now left|]. split; [exact L|].
        intros i [<-|Ii] Li; [lia|]. specialize (IH _ Ii). lia.
    + intros i [<-|Ii]; [lia|]. specialize (F _ Ii). lia.
Qed.

Lemma last_key_spec m :
  Map.ordered m ->
  match Map.last_key m with
  | Some j => In j (Map.keys m) /\ forall i, In i (Map.keys m) -> i <= j
  | None => m = []
  end.
Proof.
  intros O. destruct (Map.last_key m) as [j|] eqn:E.
  - split.
    + clear O. induction m as [|[k v] m IH]; simpl in *; [discriminate|].
      destruct m; [inversion E; now left | right; auto].
    + pose proof (last_key_max _ _ O E) as F. rewrite Forall_forall in F. exact F.
  - now apply last_key_none.
Qed.

(** What a reverse iterator with base [upper_bound k] designates. *)
Lemma decr_upper_bound_spec k m :
  Map.ordered m -> firstKeyAtMost k m (Map.decr (Map.upper_bound k m) m).
Proof.
  intros O. pose proof (upper_bound_spec k m O) as U.
  destruct (Map.upper_bound k m) as [u|]; simpl in *.
  - destruct U as (Iu & Lu & Min).
    pose proof (below_spec u m O) as B.
    destruct (Map.below u m) as [j|]; simpl.
    + destruct B as (Ij & Lj & Max). split; [exact Ij|]. split.
      * destruct (Z.le_gt_cases j k) as [?|G]; [assumption|].
        specialize (Min _ Ij). lia.
      * intros i Ii Li. apply Max; [exact Ii | lia].
    + intros i Ii. specialize (B _ Ii). lia.
  - pose proof (last_key_spec m O) as L.
    destruct (Map.last_key m) as [j|]; simpl.
    + destruct L as (Ij & Max). split; [exact Ij|]. split; auto.
    + subst m. intros i [].
Qed.

Lemma lower_bound_present k m :
  Map.ordered m -> In k (Map.keys m) -> Map.lower_bound k m = Some k.
Proof.
  intros O I. pose proof (lower_bound_spec k m O) as L.
  destruct (Map.lower_bound k m) as [j|]; simpl in L.
  - destruct L as (_ & Lj & Min). specialize (Min _ I). f_equal. lia.
  - specialize (L _ I). lia.
Qed.

Lemma find_present k m : In k (Map.keys m) -> exists r, Map.find k m = Some r.
Proof.
  intros I. destruct (Map.find k m) as [r|] eqn:E; [now exists r|].
  apply find_none_iff in E. contradiction.
Qed.

Lemma iterator_eqb_refl it : iterator_eqb it it = true.
Proof. destruct it; simpl; [apply Z.eqb_refl | reflexivity]. Qed.

Lemma decr_begin m : Map.decr (Map.begin m) m = None.
Proof.
  destruct m as [|[k v] m]; simpl; [reflexivity|].
  now rewrite Z.ltb_irrefl.
Qed.

Lemma is_rend_key_of base m :
  ReverseCursor.is_rend base m = true -> ReverseCursor.key_of base m = None.
Proof.
  unfold ReverseCursor.is_rend, ReverseCursor.key_of. intros E.
  assert (base = Map.begin m).
  { destruct base as [b|], (Map.begin m) as [g|]; simpl in E; try discriminate; auto.
    apply Z.eqb_eq in E. now subst. }
  subst. apply decr_begin.
Qed.

End Bounds.

(* ------------------------------------------------------------------ *)
(** ** Cursors: restore *)

(** C3.  A cursor holds a saved key (not the null id) that has no exact
    match in the map at restore time.  On a capped store [restore()] returns
    false.  On a non-capped store it returns true and the cursor is at the
    nearest key left: a forward cursor at the first key at or above the saved
    key ([end()] when there is none), a reverse cursor at the first key at or
    below it (nothing when there is none); the next [next()] of a cursor that
    was advanced before yields the record there. *)
Theorem restore_when_saved_key_is_gone :
  forall (m : Records),
    Map.ordered m ->
    (forall c : Cursor.t,
        RecordId.isNull (Cursor._savedId c) = false ->
        Map.find (Cursor._savedId c) m = None ->
        (Cursor._isCapped c = true -> fst (Cursor.restore c m) = false)
        /\ (Cursor._isCapped c = false ->
            fst (Cursor.restore c m) = true
            /\ firstKeyAtLeast (Cursor._savedId c) m
                 (Cursor._it (snd (Cursor.restore c m)))
            /\ (Cursor._needFirstSeek c = false ->
                fst (Cursor.next (snd (Cursor.restore c m)) m)
                = Map.deref (Cursor._it (snd (Cursor.restore c m))) m)))
    /\ (forall c : ReverseCursor.t,
           RecordId.isNull (ReverseCursor._savedId c) = false ->
           Map.find (ReverseCursor._savedId c) m = None ->
           (ReverseCursor._isCapped c = true -> fst (ReverseCursor.restore c m) = false)
           /\ (ReverseCursor._isCapped c = false ->
               fst (ReverseCursor.restore c m) = true
               /\ firstKeyAtMost (ReverseCursor._savedId c) m
                    (ReverseCursor.key_of
                       (ReverseCursor._it (snd (ReverseCursor.restore c m))) m)
               /\ (ReverseCursor._needFirstSeek c = false ->
                   fst (ReverseCursor.next (snd (ReverseCursor.restore c m)) m)
                   = ReverseCursor.rderef
                       (ReverseCursor._it (snd (ReverseCursor.restore c m))) m))).
Proof.
  intros m O. split.
  - intros c NN Gone.
    assert (Moved : match Map.lower_bound (Cursor._savedId c) m with
                    | Some k => negb (k =? Cursor._savedId c)
                    | None => true
                    end = true).
    { pose proof (lower_bound_spec (Cursor._savedId c) m O) as L.
      destruct (Map.lower_bound (Cursor._savedId c) m) as [j|]; [|reflexivity].
      destruct L as (I & _). destruct (Z.eqb_spec j (Cursor._savedId c)) as [E|N];
        [|reflexivity].
      subst j. apply MapFacts.find_none_iff in Gone. contradiction. }
    unfold Cursor.restore. rewrite NN, Moved. simpl. split.
    + intros ->. reflexivity.
    + intros ->. split; [reflexivity|]. split; [now apply lower_bound_spec|].
      intros NF. unfold Cursor.next; simpl. rewrite NF. simpl.
      destruct (Map.lower_bound (Cursor._savedId c) m); reflexivity.
  - intros c NN Gone.
    set (k := ReverseCursor._savedId c) in *.
    assert (Moved : ReverseCursor.is_rend (Map.upper_bound k m) m
                    || match ReverseCursor.key_of (Map.upper_bound k m) m with
                       | Some j => negb (j =? k)
                       | None => true
                       end = true).
    { pose proof (decr_upper_bound_spec k m O) as L.
      unfold ReverseCursor.key_of.
      destruct (Map.decr (Map.upper_bound k m) m) as [j|]; [|apply orb_true_r].
      destruct L as (I & _). destruct (Z.eqb_spec j k) as [E|N];
        [|apply orb_true_r].
      subst j. apply MapFacts.find_none_iff in Gone. contradiction. }
    unfold ReverseCursor.restore. fold k. rewrite NN, Moved. simpl. split.
    + intros ->. reflexivity.
    + intros ->. split; [reflexivity|]. split; [now apply decr_upper_bound_spec|].
      intros NF. unfold ReverseCursor.next; simpl. rewrite NF. simpl.
      destruct (ReverseCursor.is_rend (Map.upper_bound k m) m) eqn:R; [|reflexivity].
      simpl. unfold ReverseCursor.rderef. rewrite (is_rend_key_of _ _ R). reflexivity.
Qed.

Lemma gapRecords_ordered : Map.ordered gapRecords.
Proof.
  unfold Map.ordered, gapRecords; simpl.
  repeat constructor; lia.
Qed.

Lemma restore_when_saved_key_is_gone_witness :
  (fst (Cursor.restore (Cursor.mk None false false 3 true) gapRecords) = false
   /\ fst (Cursor.restore (Cursor.mk None false false 3 false) gapRecords) = true
   /\ fst (Cursor.next (snd (Cursor.restore (Cursor.mk None false false 3 false)
                               gapRecords)) gapRecords)
      = Some (Rec.mk 4 payloadC))
  /\ (fst (ReverseCursor.restore (ReverseCursor.mk None false false 3 true) gapRecords)
      = false
      /\ fst (ReverseCursor.restore (ReverseCursor.mk None false false 3 false)
                gapRecords) = true
      /\ fst (ReverseCursor.next
                (snd (ReverseCursor.restore (ReverseCursor.mk None false false 3 false)
                        gapRecords)) gapRecords)
         = Some (Rec.mk 2 payloadB)).
Proof.
  pose proof (restore_when_saved_key_is_gone gapRecords gapRecords_ordered) as [F R].
  split.
  - split; [|split].
    + apply (proj1 (F (Cursor.mk None false false 3 true) eq_refl eq_refl) eq_refl).
    + apply (proj2 (F (Cursor.mk None false false 3 false) eq_refl eq_refl) eq_refl).
    + rewrite (proj2 (proj2 (proj2 (F (Cursor.mk None false false 3 false)
                                      eq_refl eq_refl) eq_refl)) eq_refl).
      reflexivity.
  - split; [|split].
    + apply (proj1 (R (ReverseCursor.mk None false false 3 true) eq_refl eq_refl) eq_refl).
    + apply (proj2 (R (ReverseCursor.mk None false false 3 false) eq_refl eq_refl)
               eq_refl).
    + rewrite (proj2 (proj2 (proj2 (R (ReverseCursor.mk None false false 3 false)
                                      eq_refl eq_refl) eq_refl)) eq_refl).
      reflexivity.
Defined.

(* ------------------------------------------------------------------ *)
(** ** Cursors: save, an insert elsewhere, restore *)

Section NonCappedInsert.

Import MapFacts.

Variable extractKey : list byte -> StatusWith RecordId.t.
Variable s : Store.
Hypothesis notCapped : _isCapped s = false.

Lemma cappedDeleteAsNeeded_noncapped w :
  cappedDeleteAsNeeded s w = (Returned tt, w).
Proof.
  rewrite cappedDeleteAsNeeded_eq, loop_unfold.
  unfold cappedAndNeedDelete. rewrite notCapped. reflexivity.
Qed.

(** In a non-capped store a successful insert of one record appends it to
    the map, under an id above every id present. *)
Lemma insertRecords_one_noncapped record w out w' :
  wfWorld w ->
  insertRecords extractKey s [record] w = (Returned (StatusOK, [out]), w') ->
  records (_data w') = records (_data w) ++ [entryOf out]
  /\ Forall (fun k => k < Rec.id out) (Map.keys (records (_data w)))
  /\ wfWorld w'.
Proof.
  intros W H.
  pose proof (insertRecords_wf extractKey s [record] w W) as W'.
  rewrite H in W'. simpl in W'.
  unfold insertRecords in H.
  destruct (existsb (exceedsCappedMaxSize s) [record]); [discriminate|].
  rewrite insertEach_cons in H.
  destruct (insertSingleFn extractKey s record w) as [[[st o]| | | ] w1] eqn:E1;
    try discriminate.
  destruct st; [|discriminate]. simpl in H. unfold ret in H.
  injection H as Ho Hw. subst o w1.
  split; [|split; [|exact W']].
  - rewrite insertSingleFn_unfold in E1. unfold finishInsert in E1.
    destruct (isOplog (_data w)) eqn:O.
    + destruct (extractAndCheckLocForOplog extractKey (_data w) (Rec.data record))
        as [loc|] eqn:X; [|discriminate].
      apply extractAndCheck_value in X as [_ X].
      rewrite cappedDeleteAsNeeded_noncapped in E1.
      injection E1 as Eo Ew. subst out w'. simpl.
      apply assign_last. apply fresh_above_last; [apply W | exact X].
    + destruct (RecordId.isNormal (nextId (_data w))); [|discriminate].
      rewrite cappedDeleteAsNeeded_noncapped in E1.
      injection E1 as Eo Ew. subst out w'. simpl.
      apply assign_last. apply W. exact O.
  - destruct (insertSingleFn_ok extractKey s record w out w' W E1)
      as (_ & ev & F & _). exact F.
Qed.

End NonCappedInsert.

Section SaveRestore.

Import MapFacts.

Lemma lower_bound_app_some k m x j :
  Map.lower_bound k m = Some j -> Map.lower_bound k (m ++ x) = Some j.
Proof.
  induction m as [|[k' v] m IH]; simpl; [discriminate|].
  destruct (k <=? k'); auto.
Qed.

Lemma lower_bound_in k m j : Map.lower_bound k m = Some j -> In j (Map.keys m).
Proof.
  induction m as [|[k' v] m IH]; simpl; [discriminate|].
  destruct (k <=? k'); [intros H; inversion H; now left | right; auto].
Qed.

(** C8 (amended).  A forward cursor on a non-capped store is saved, another
    record is inserted (it is given an id above every id present), and the
    cursor is restored.  When the cursor stood at the record with id [k]
    that its last [next()] or [seekExact()] returned ([k] not the null id),
    [restore()] returns true, the cursor is again at [k], and the next
    [next()] does not yield [k] a second time: it yields the record that
    follows [k] in id order.  The next [next()] yields the record with id
    [k] only when the cursor had been put at [k] by an earlier [restore()]
    that found its saved key gone, and has not returned [k] yet. *)
Theorem restore_after_insert_resumes_after_saved :
  forall (extractKey : list byte -> StatusWith RecordId.t) (s : Store)
         (w : World) (record out : Rec.t) (w' : World),
    wfWorld w ->
    _isCapped s = false ->
    insertRecords extractKey s [record] w = (Returned (StatusOK, [out]), w') ->
    (forall (c : Cursor.t) (k : RecordId.t),
        Cursor._needFirstSeek c = false ->
        Cursor._lastMoveWasRestore c = false ->
        Cursor._it c = Some k ->
        RecordId.isNull k = false ->
        In k (Map.keys (records (_data w))) ->
        fst (Cursor.restore (Cursor.save c) (records (_data w'))) = true
        /\ Cursor._it (snd (Cursor.restore (Cursor.save c) (records (_data w')))) = Some k
        /\ exists following,
             fst (Cursor.next (snd (Cursor.restore (Cursor.save c) (records (_data w'))))
                    (records (_data w')))
             = Some following
             /\ firstKeyAbove k (records (_data w')) (Some (Rec.id following)))
    /\ (forall (c : Cursor.t) (k : RecordId.t),
           Cursor._isCapped c = false ->
           Cursor._needFirstSeek c = false ->
           Cursor._lastMoveWasRestore c = true ->
           Cursor._it c = Some k ->
           RecordId.isNull (Cursor._savedId c) = false ->
           Map.lower_bound (Cursor._savedId c) (records (_data w)) = Some k ->
           k <> Cursor._savedId c ->
           fst (Cursor.restore (Cursor.save c) (records (_data w'))) = true
           /\ fst (Cursor.next (snd (Cursor.restore (Cursor.save c) (records (_data w'))))
                     (records (_data w')))
              = Map.deref (Some k) (records (_data w))
           /\ exists r, Map.deref (Some k) (records (_data w)) = Some r /\ Rec.id r = k).
Proof.
  intros extractKey s w record out w' W NC H.
  destruct (insertRecords_one_noncapped extractKey s NC record w out w' W H)
    as (R & F & W').
  assert (O' : Map.ordered (records (_data w'))) by apply W'.
  split.
  - intros c k NF NR It NN Ik.
    assert (Ik' : In k (Map.keys (records (_data w')))).
    { rewrite R. unfold Map.keys. rewrite map_app. apply in_or_app. now left. }
    destruct c as [it nfs lmr sid cap]. simpl in NF, NR, It. subst it nfs lmr.
    unfold Cursor.save, Cursor.restore. simpl. rewrite NN.
    rewrite (lower_bound_present k _ O' Ik'). rewrite Z.eqb_refl. simpl.
    rewrite andb_false_r. simpl.
    split; [reflexivity|]. split; [reflexivity|].
    unfold Cursor.next. simpl.
    pose proof (upper_bound_spec k _ O') as U.
    destruct (Map.upper_bound k (records (_data w'))) as [j|] eqn:E; simpl.
    + destruct U as (Ij & Lj & Min).
      destruct (find_present j _ Ij) as (r & Fr). rewrite Fr.
      eexists. split; [reflexivity|]. simpl. auto.
    + exfalso. rewrite Forall_forall in F. specialize (F _ Ik).
      assert (Io : In (Rec.id out) (Map.keys (records (_data w')))).
      { rewrite R. unfold Map.keys. rewrite map_app. apply in_or_app. right. now left. }
      specialize (U _ Io). lia.
  - intros c k Cap NF NR It NN LB Ne.
    pose proof (lower_bound_in _ _ _ LB) as Ik.
    destruct c as [it nfs lmr sid cap]. simpl in Cap, NF, NR, It, NN, LB, Ne.
    subst it nfs lmr cap.
    unfold Cursor.save, Cursor.restore. simpl. rewrite NN.
    rewrite R, (lower_bound_app_some _ _ _ _ LB).
    destruct (Z.eqb_spec k sid) as [E|_]; [contradiction|]. simpl.
    split; [reflexivity|].
    unfold Cursor.next, entryOf. simpl.
    rewrite (find_app_old _ _ _ _ Ik).
    destruct (find_present k _ Ik) as (r & Fr). rewrite Fr.
    split; [reflexivity|]. eexists. split; reflexivity.
Qed.

Lemma twoRecordWorld_wf : wfWorld twoRecordWorld.
Proof.
  unfold wfWorld, wfData, wfRecords, twoRecordWorld; simpl. repeat split.
  - unfold Map.ordered; simpl. repeat constructor; lia.
  - intros _. repeat constructor; lia.
  - constructor.
Qed.

Lemma restore_after_insert_resumes_after_saved_witness :
  (fst (Cursor.restore (Cursor.save (Cursor.mk (Some 1) false false 0 false))
          (twoRecords ++ [(3, EphemeralForTestRecord.ofBytes payloadC)])) = true
   /\ Cursor._it
        (snd (Cursor.restore (Cursor.save (Cursor.mk (Some 1) false false 0 false))
                (twoRecords ++ [(3, EphemeralForTestRecord.ofBytes payloadC)])))
      = Some 1
   /\ exists following,
        fst (Cursor.next
               (snd (Cursor.restore (Cursor.save (Cursor.mk (Some 1) false false 0 false))
                       (twoRecords ++ [(3, EphemeralForTestRecord.ofBytes payloadC)])))
               (twoRecords ++ [(3, EphemeralForTestRecord.ofBytes payloadC)]))
        = Some following
        /\ firstKeyAbove 1 (twoRecords ++ [(3, EphemeralForTestRecord.ofBytes payloadC)])
             (Some (Rec.id following)))
  /\ fst (Cursor.next
            (snd (Cursor.restore (Cursor.save (Cursor.mk (Some 1) false true (-5) false))
                    (twoRecords ++ [(3, EphemeralForTestRecord.ofBytes payloadC)])))
            (twoRecords ++ [(3, EphemeralForTestRecord.ofBytes payloadC)]))
     = Map.deref (Some 1) twoRecords.
Proof.
  pose proof (restore_after_insert_resumes_after_saved firstByteKey plainStore
                twoRecordWorld (Rec.mk 0 payloadC) (Rec.mk 3 payloadC)
                {| _data := {| records := twoRecords
                                          ++ [(3, EphemeralForTestRecord.ofBytes payloadC)];
                               dataSize := 13; nextId := 4; isOplog := false |};
                   _changes := [InsertChange 3] |}
                twoRecordWorld_wf eq_refl eq_refl) as [Returned_k Pending_k].
  split.
  - apply (Returned_k (Cursor.mk (Some 1) false false 0 false) 1);
      try reflexivity. simpl. auto.
  - apply (Pending_k (Cursor.mk (Some 1) false true (-5) false) 1);
      try reflexivity. discriminate.
Defined.

(** C8, as stated, fails: the cursor returned the record with id 1, was
    saved, a record was inserted (it got id 3), the cursor was restored; the
    next [next()] yields the record with id 2, not the one with id 1. *)
Lemma next_after_restore_skips_saved_record :
  Cursor.next (Cursor.new false) twoRecords
  = (Some (Rec.mk 1 payloadA), Cursor.mk (Some 1) false false 0 false)
  /\ insertRecords firstByteKey plainStore [Rec.mk 0 payloadC] twoRecordWorld
     = (Returned (StatusOK, [Rec.mk 3 payloadC]),
        {| _data := {| records := twoRecords
                                  ++ [(3, EphemeralForTestRecord.ofBytes payloadC)];
                       dataSize := 13; nextId := 4; isOplog := false |};
           _changes := [InsertChange 3] |})
  /\ Cursor.restore (Cursor.save (Cursor.mk (Some 1) false false 0 false))
       (twoRecords ++ [(3, EphemeralForTestRecord.ofBytes payloadC)])
     = (true, Cursor.mk (Some 1) false false 1 false)
  /\ fst (Cursor.next (Cursor.mk (Some 1) false false 1 false)
            (twoRecords ++ [(3, EphemeralForTestRecord.ofBytes payloadC)]))
     = Some (Rec.mk 2 payloadB).
Proof. repeat split. Qed.

End SaveRestore.

(* ------------------------------------------------------------------ *)
(** ** Cursors: saveUnpositioned *)

Section SaveUnpositioned.

Lemma Cursor_at_end_stays c ms :
  Cursor._it c = None -> Cursor._needFirstSeek c = false ->
  Forall (fun r => r = None) (Cursor_nexts c ms).
Proof.
  revert c. induction ms as [|m ms IH]; intros c It NF; simpl; [constructor|].
  destruct c as [it nfs lmr sid cap]. simpl in It, NF. subst it nfs.
  unfold Cursor.next. simpl. rewrite andb_false_r. simpl.
  constructor; [reflexivity|]. apply IH; reflexivity.
Qed.

Lemma ReverseCursor_at_end_stays m n : forall c,
  ReverseCursor._it c = Map.begin m -> ReverseCursor._needFirstSeek c = false ->
  Forall (fun r => r = None) (ReverseCursor_nexts c (repeat m n)).
Proof.
  induction n as [|n IH]; intros c It NF; simpl; [constructor|].
  destruct c as [it nfs lmr sid cap]. simpl in It, NF. subst it nfs.
  unfold ReverseCursor.next. simpl.
  unfold ReverseCursor.is_rend. rewrite iterator_eqb_refl. simpl.
  rewrite andb_false_r. simpl. rewrite iterator_eqb_refl.
  constructor; [reflexivity|]. apply IH; reflexivity.
Qed.

Lemma decr_upper_bound_present k m r :
  Map.ordered m -> Map.find k m = Some r ->
  Map.decr (Map.upper_bound k m) m = Some k.
Proof.
  intros O F. pose proof (MapFacts.find_some_in _ _ _ F) as I.
  pose proof (decr_upper_bound_spec k m O) as Sp.
  destruct (Map.decr (Map.upper_bound k m) m) as [j|]; simpl in Sp.
  - destruct Sp as (_ & Lj & Max). specialize (Max _ I). f_equal. lia.
  - specialize (Sp _ I). lia.
Qed.

(** C9 (amended).  For a forward cursor on which [next()] or [seekExact()]
    was called before, [saveUnpositioned()] then [restore()] returns true
    and leaves the cursor at end-of-stream: every [next()] after it returns
    nothing, whatever the map becomes, and a [seekExact()] of an id that is
    present returns its record.  For a reverse cursor on which [next()] or
    [seekExact()] was called before, the two calls return true and leave the
    cursor at the reverse end of the map as it is at the restore: every
    [next()] after it returns nothing while the map stays as it is, and a
    [seekExact()] of an id that is present returns its record; when a record
    is put below the first key afterwards, [next()] returns that record if
    the last move of the cursor was a restore that had lost its record.  A
    cursor that was never advanced, forward or reverse, is left unseeked
    instead: its first [next()] returns the first record of its direction
    (the lowest key for the forward cursor, the highest for the reverse
    one), and nothing when the map is empty. *)
Theorem saveUnpositioned_then_restore :
  (forall (c : Cursor.t) (m : Records),
      Cursor._needFirstSeek c = false ->
      fst (Cursor.restore (Cursor.saveUnpositioned c) m) = true
      /\ (forall ms,
             Forall (fun r => r = None)
               (Cursor_nexts (snd (Cursor.restore (Cursor.saveUnpositioned c) m)) ms))
      /\ (forall m' id r,
             Map.find id m' = Some r ->
             fst (Cursor.seekExact (snd (Cursor.restore (Cursor.saveUnpositioned c) m))
                    id m')
             = Some (Rec.mk id (EphemeralForTestRecord.toRecordData r))))
  /\ (forall (c : ReverseCursor.t) (m : Records),
         ReverseCursor._needFirstSeek c = false ->
         fst (ReverseCursor.restore (ReverseCursor.saveUnpositioned c) m) = true
         /\ (forall n,
                Forall (fun r => r = None)
                  (ReverseCursor_nexts
                     (snd (ReverseCursor.restore (ReverseCursor.saveUnpositioned c) m))
                     (repeat m n)))
         /\ (forall m' id r,
                Map.ordered m' ->
                Map.find id m' = Some r ->
                fst (ReverseCursor.seekExact
                       (snd (ReverseCursor.restore (ReverseCursor.saveUnpositioned c) m))
                       id m')
                = Some (Rec.mk id (EphemeralForTestRecord.toRecordData r)))
         /\ (forall j v,
                ReverseCursor._lastMoveWasRestore c = true ->
                Map.ordered ((j, v) :: m) ->
                fst (ReverseCursor.next
                       (snd (ReverseCursor.restore (ReverseCursor.saveUnpositioned c) m))
                       ((j, v) :: m))
                = Some (recordAt (j, v))))
  /\ (forall (c : Cursor.t) (m m' : Records),
         Cursor._needFirstSeek c = true ->
         fst (Cursor.restore (Cursor.saveUnpositioned c) m) = true
         /\ fst (Cursor.next (snd (Cursor.restore (Cursor.saveUnpositioned c) m)) m')
            = match m' with [] => None | p :: _ => Some (recordAt p) end)
  /\ (forall (c : ReverseCursor.t) (m m' : Records),
         ReverseCursor._needFirstSeek c = true ->
         Map.ordered m' ->
         fst (ReverseCursor.restore (ReverseCursor.saveUnpositioned c) m) = true
         /\ fst (ReverseCursor.next
                   (snd (ReverseCursor.restore (ReverseCursor.saveUnpositioned c) m)) m')
            = match rev m' with [] => None | p :: _ => Some (recordAt p) end).
Proof.
  split; [|split; [|split]].
  - intros c m NF. unfold Cursor.restore, Cursor.saveUnpositioned. simpl.
    split; [reflexivity|]. split.
    + intros ms. apply Cursor_at_end_stays; simpl; auto.
    + intros m' id r Found. unfold Cursor.seekExact. rewrite Found. simpl.
      rewrite Found. reflexivity.
  - intros c m NF. unfold ReverseCursor.restore, ReverseCursor.saveUnpositioned. simpl.
    split; [reflexivity|]. split; [|split].
    + intros n. apply ReverseCursor_at_end_stays; simpl; auto.
    + intros m' id r O' Found. unfold ReverseCursor.seekExact. rewrite Found.
      unfold ReverseCursor.rderef, ReverseCursor.key_of. simpl.
      rewrite (decr_upper_bound_present id m' r O' Found). simpl.
      rewrite Found. reflexivity.
    + intros j v LR O'. unfold ReverseCursor.next. simpl. rewrite NF, LR. simpl.
      unfold ReverseCursor.is_rend, ReverseCursor.rderef, ReverseCursor.key_of.
      destruct m as [|[k x] tl]; simpl.
      * rewrite Z.eqb_refl. reflexivity.
      * apply MapFacts.ordered_inv in O' as [_ F].
        inversion F as [|? ? L _]; subst.
        destruct (Z.eqb_spec k j); [lia|]. simpl.
        destruct (Z.ltb_spec j k); [|lia]. rewrite Z.ltb_irrefl. simpl.
        rewrite Z.eqb_refl. reflexivity.
  - intros c m m' NF. unfold Cursor.restore, Cursor.saveUnpositioned, Cursor.next.
    simpl. rewrite NF. simpl.
    split; [reflexivity|].
    destruct m' as [|[k v] tl]; simpl; [reflexivity|]. rewrite Z.eqb_refl. reflexivity.
  - intros c m m' NF O'.
    unfold ReverseCursor.restore, ReverseCursor.saveUnpositioned, ReverseCursor.next.
    simpl. rewrite NF. simpl.
    split; [reflexivity|].
    destruct m' as [|p0 pre _] using rev_ind; [reflexivity|].
    destruct p0 as [k v]. rewrite rev_app_distr. simpl rev. simpl app.
    unfold ReverseCursor.is_rend, ReverseCursor.rderef, ReverseCursor.key_of.
    assert (B : exists h, Map.begin (pre ++ [(k, v)]) = Some h)
      by (destruct pre as [|[a b] pre]; simpl; eauto).
    destruct B as (h & B). rewrite B. simpl.
    rewrite MapFacts.last_key_app. simpl.
    rewrite (find_suffix pre [(k, v)] k v O') by (simpl; now rewrite Z.eqb_refl).
    reflexivity.
Qed.

Lemma saveUnpositioned_then_restore_witness :
  (fst (Cursor.restore (Cursor.saveUnpositioned (Cursor.mk (Some 1) false false 0 false))
          twoRecords) = true
   /\ Forall (fun r => r = None)
        (Cursor_nexts
           (snd (Cursor.restore
                   (Cursor.saveUnpositioned (Cursor.mk (Some 1) false false 0 false))
                   twoRecords))
           [twoRecords; gapRecords; twoRecords]))
  /\ (fst (ReverseCursor.restore
             (ReverseCursor.saveUnpositioned (ReverseCursor.mk None false false 0 false))
             twoRecords) = true
      /\ Forall (fun r => r = None)
           (ReverseCursor_nexts
              (snd (ReverseCursor.restore
                      (ReverseCursor.saveUnpositioned
                         (ReverseCursor.mk None false false 0 false))
                      twoRecords))
              (repeat twoRecords 3)))
  /\ fst (ReverseCursor.next
            (snd (ReverseCursor.restore
                    (ReverseCursor.saveUnpositioned (ReverseCursor.new false)) twoRecords))
            twoRecords)
     = Some (Rec.mk 2 payloadB).
Proof.
  destruct saveUnpositioned_then_restore as (F & R & _ & U).
  split; [|split].
  - destruct (F (Cursor.mk (Some 1) false false 0 false) twoRecords eq_refl)
      as (Ok & Eof & _).
    split; [exact Ok | apply Eof].
  - destruct (R (ReverseCursor.mk None false false 0 false) twoRecords eq_refl)
      as (Ok & Eof & _).
    split; [exact Ok | apply Eof].
  - exact (proj2 (U (ReverseCursor.new false) twoRecords twoRecords eq_refl
                    (proj1 (proj1 twoRecordWorld_wf)))).
Defined.

(** C9, as stated, fails for a cursor on which [next()] was never called:
    after [saveUnpositioned()] and [restore()] its [next()] returns the
    first record. *)
Lemma unseeked_cursor_restarts_after_saveUnpositioned :
  Cursor.restore (Cursor.saveUnpositioned (Cursor.new false)) twoRecords
  = (true, Cursor.new false)
  /\ fst (Cursor.next (Cursor.new false) twoRecords) = Some (Rec.mk 1 payloadA).
Proof. split; reflexivity. Qed.

End SaveUnpositioned.

(* ------------------------------------------------------------------ *)
(** ** The scenarios of the test harness and of the specification

    The tests of [record_store_test_harness.cpp], run on the model. *)

Section HarnessScenarios.

Import Harness.

Example Simple1 :
  numRecords (_data (World_new false)) = 0
  /\ fst (insertRecords firstByteKey plainStore [Rec.mk 0 eliot] (World_new false))
     = Returned (StatusOK, [Rec.mk 1 eliot])
  /\ fst (dataFor 1 afterOneInsert) = Returned eliot
  /\ numRecords (_data afterOneInsert) = 1
  /\ fst (findRecord (111 * 2 ^ 32 + 17) afterOneInsert) = Returned None
  /\ fst (findRecord 1 afterOneInsert) = Returned (Some eliot)
  /\ numRecords (_data (insertCommitted eliot afterOneInsert)) = 2.
Proof. repeat split. Qed.

Example Delete1 :
  numRecords (_data afterOneInsert) = 1
  /\ fst (deleteRecord 1 afterOneInsert) = Returned tt
  /\ numRecords (_data (snd (deleteRecord 1 afterOneInsert))) = 0.
Proof. repeat split. Qed.

Example Update1 :
  fst (updateRecord plainStore 1 eliotAgain afterOneInsert) = Returned StatusOK
  /\ numRecords (_data (snd (updateRecord plainStore 1 eliotAgain afterOneInsert))) = 1
  /\ fst (dataFor 1 (snd (updateRecord plainStore 1 eliotAgain afterOneInsert)))
     = Returned eliotAgain.
Proof. repeat split. Qed.

Example UpdateInPlace1 :
  fst (updateWithDamages plainStore 1 damageSource222
         [mkDamage 0 3 3] (insertCommitted aaa111bbb (World_new false)))
  = Returned (SWValue aaa222bbb)
  /\ fst (dataFor 1
            (snd (updateWithDamages plainStore 1 damageSource222
                    [mkDamage 0 3 3] (insertCommitted aaa111bbb (World_new false)))))
     = Returned aaa222bbb.
Proof. split; reflexivity. Qed.

Example Truncate1 :
  numRecords (_data afterOneInsert) = 1
  /\ fst (truncate afterOneInsert) = Returned StatusOK
  /\ numRecords (_data (snd (commitUnitOfWork (snd (truncate afterOneInsert))))) = 0.
Proof. repeat split. Qed.

Example Cursor1 :
  numRecords (_data tenRecords) = 10
  /\ Cursor_nexts (Cursor.new false) (repeat (records (_data tenRecords)) 12)
     = List.map (fun i => Some (Rec.mk (Z.of_nat (S i)) (eliotN i))) (seq 0 10)
       ++ [None; None]
  /\ ReverseCursor_nexts (ReverseCursor.new false) (repeat (records (_data tenRecords)) 12)
     = List.map (fun i => Some (Rec.mk (Z.of_nat (S i)) (eliotN i))) (rev (seq 0 10))
       ++ [None; None].
Proof. repeat split. Qed.

(** The capped examples of the specification: a store of 8 bytes receives
    "A" then "B", 5 bytes each, and is left with the second only; a cursor
    that was saved at the first record cannot be restored. *)
Example capped_eviction :
  insertRecords firstByteKey capped8 [Rec.mk 0 payloadB]
    (snd (insertRecords firstByteKey capped8 [Rec.mk 0 payloadA] (World_new false)))
  = (Returned (StatusOK, [Rec.mk 2 payloadB]), cappedAfterAB)
  /\ records (_data cappedAfterAB) = [(2, EphemeralForTestRecord.ofBytes payloadB)]
  /\ dataSize (_data cappedAfterAB) = 5.
Proof. repeat split. Qed.

Example capped_restore_after_eviction :
  Cursor.next (Cursor.new true) [(1, EphemeralForTestRecord.ofBytes payloadA)]
  = (Some (Rec.mk 1 payloadA), Cursor.mk (Some 1) false false 0 true)
  /\ fst (Cursor.restore (Cursor.save (Cursor.mk (Some 1) false false 0 true))
            (records (_data cappedAfterAB))) = false.
Proof. split; reflexivity. Qed.

(** Rolling back a unit of work that inserted into the capped store puts
    the evicted record back and removes the inserted ones. *)
Example capped_rollback :
  _data (snd (abortUnitOfWork cappedAfterAB))
  = {| records := []; dataSize := 0; nextId := 3; isOplog := false |}.
Proof. reflexivity. Qed.

End HarnessScenarios.

(* ------------------------------------------------------------------ *)
(** ** Rolling back a unit of work *)

Section MapEdits.

Import MapFacts.

Lemma find_erase_same k m : Map.ordered m -> Map.find k (Map.erase k m) = None.
Proof.
  induction m as [|[k' v] m IH]; simpl; intros O; [reflexivity|].
  pose proof (ordered_inv _ _ _ O) as [Om F].
  destruct (Z.eqb_spec k' k) as [->|N].
  - apply find_none_iff. intros I. rewrite Forall_forall in F.
    specialize (F _ I). lia.
  - simpl. destruct (Z.eqb_spec k' k); [contradiction | auto].
Qed.

Lemma find_erase_other k j m : j <> k -> Map.find j (Map.erase k m) = Map.find j m.
Proof.
  intros N. induction m as [|[k' v] m IH]; simpl; [reflexivity|].
  destruct (Z.eqb_spec k' k) as [->|Nk].
  - destruct (Z.eqb_spec k j); [congruence | reflexivity].
  - simpl. destruct (Z.eqb_spec k' j); [reflexivity | exact IH].
Qed.

Lemma find_assign_other k j v m : j <> k -> Map.find j (Map.assign k v m) = Map.find j m.
Proof.
  intros N. induction m as [|[k' v'] m IH]; simpl.
  - destruct (Z.eqb_spec k j); [congruence | reflexivity].
  - destruct (Z.ltb_spec k k'); simpl.
    + destruct (Z.eqb_spec k j); [congruence | reflexivity].
    + destruct (Z.eqb_spec k k') as [->|Nk]; simpl.
      * destruct (Z.eqb_spec k' j); [congruence | reflexivity].
      * destruct (Z.eqb_spec k' j); [reflexivity | exact IH].
Qed.

Lemma assign_first k v m :
  Forall (fun k' => k < k') (Map.keys m) -> Map.assign k v m = (k, v) :: m.
Proof.
  destruct m as [|[k' v'] m]; simpl; intros F; [reflexivity|].
  inversion F; subst. destruct (Z.ltb_spec k k'); [reflexivity | lia].
Qed.

Lemma assign_assign k v v' m :
  Map.assign k v (Map.assign k v' m) = Map.assign k v m.
Proof.
  induction m as [|[k' w] m IH]; simpl.
  - rewrite Z.ltb_irrefl, Z.eqb_refl. reflexivity.
  - destruct (Z.ltb_spec k k') as [L|G]; simpl.
    + rewrite Z.ltb_irrefl, Z.eqb_refl. reflexivity.
    + destruct (Z.eqb_spec k k') as [->|N]; simpl.
      * rewrite Z.ltb_irrefl, Z.eqb_refl. reflexivity.
      * destruct (Z.ltb_spec k k'); [lia|].
        destruct (Z.eqb_spec k k'); [contradiction|]. now rewrite IH.
Qed.

Lemma assign_same k v m :
  Map.ordered m -> Map.find k m = Some v -> Map.assign k v m = m.
Proof.
  induction m as [|[k' v'] m IH]; simpl; intros O H; [discriminate|].
  pose proof (ordered_inv _ _ _ O) as [Om F].
  destruct (Z.eqb_spec k' k) as [->|N].
  - inversion H; subst. rewrite Z.ltb_irrefl, Z.eqb_refl. reflexivity.
  - pose proof (find_some_in _ _ _ H) as I. rewrite Forall_forall in F.
    specialize (F _ I).
    destruct (Z.ltb_spec k k'); [lia|].
    destruct (Z.eqb_spec k k'); [congruence|]. now rewrite IH.
Qed.

Lemma assign_erase k v m :
  Map.ordered m -> Map.find k m = Some v -> Map.assign k v (Map.erase k m) = m.
Proof.
  induction m as [|[k' v'] m IH]; simpl; intros O H; [discriminate|].
  pose proof (ordered_inv _ _ _ O) as [Om F].
  destruct (Z.eqb_spec k' k) as [->|N].
  - inversion H; subst. now apply assign_first.
  - pose proof (find_some_in _ _ _ H) as I. rewrite Forall_forall in F.
    specialize (F _ I). simpl.
    destruct (Z.ltb_spec k k'); [lia|].
    destruct (Z.eqb_spec k k'); [congruence|]. now rewrite IH.
Qed.

Lemma erase_assign k v m :
  Map.ordered m -> Map.find k m = None -> Map.erase k (Map.assign k v m) = m.
Proof.
  induction m as [|[k' v'] m IH]; simpl; intros O H.
  - now rewrite Z.eqb_refl.
  - pose proof (ordered_inv _ _ _ O) as [Om F].
    destruct (Z.eqb_spec k' k) as [E|N]; [discriminate|].
    destruct (Z.ltb_spec k k'); simpl.
    + now rewrite Z.eqb_refl.
    + destruct (Z.eqb_spec k k'); [congruence|]. simpl.
      destruct (Z.eqb_spec k' k); [contradiction|]. now rewrite IH.
Qed.

Lemma assign_app_right a b k v :
  Map.ordered (a ++ b) -> In k (Map.keys b) ->
  Map.assign k v (a ++ b) = a ++ Map.assign k v b.
Proof.
  intros O I. induction a as [|[k' v'] a IH]; simpl; [reflexivity|].
  assert (L : k' < k).
  { apply (ordered_app_lt ((k', v') :: a) b); simpl; auto. }
  destruct (Z.ltb_spec k k'); [lia|].
  destruct (Z.eqb_spec k k'); [lia|].
  f_equal. apply IH. simpl in O. apply ordered_inv in O. tauto.
Qed.

Lemma assign_middle keep k v rest :
  Map.ordered (keep ++ (k, v) :: rest) ->
  Map.assign k v (keep ++ rest) = keep ++ (k, v) :: rest.
Proof.
  induction keep as [|[k' v'] keep IH]; simpl; intros O.
  - apply ordered_inv in O as [_ F]. now apply assign_first.
  - assert (L : k' < k).
    { apply (ordered_app_lt ((k', v') :: keep) ((k, v) :: rest)); simpl; auto. }
    destruct (Z.ltb_spec k k'); [lia|].
    destruct (Z.eqb_spec k k'); [lia|].
    f_equal. apply IH. apply ordered_inv in O. tauto.
Qed.

Lemma find_middle_none keep k v rest :
  Map.ordered (keep ++ (k, v) :: rest) -> Map.find k (keep ++ rest) = None.
Proof.
  intros O. apply find_none_iff. intros I.
  unfold Map.keys in I. rewrite map_app in I. apply in_app_or in I as [I|I].
  - assert (k < k); [|lia].
    apply (ordered_app_lt keep ((k, v) :: rest)); simpl; auto.
  - apply ordered_app_r in O. apply ordered_inv in O as [_ F].
    rewrite Forall_forall in F. specialize (F _ I). lia.
Qed.

Lemma erase_app_last m k v :
  ~ In k (Map.keys m) -> Map.erase k (m ++ [(k, v)]) = m.
Proof.
  induction m as [|[k' v'] m IH]; simpl; intros N.
  - now rewrite Z.eqb_refl.
  - destruct (Z.eqb_spec k' k) as [E|_]; [exfalso; apply N; now left|].
    f_equal. apply IH. intros I; apply N; now right.
Qed.

End MapEdits.

Section Undo.

Import MapFacts.

Lemma sameContents_refl d : sameContents d d.
Proof. split; reflexivity. Qed.

Lemma sameContents_trans d1 d2 d3 :
  sameContents d1 d2 -> sameContents d2 d3 -> sameContents d1 d3.
Proof. intros [A B] [C D]. split; congruence. Qed.

Lemma rollback_returns c d : exists c', fst (rollback c d) = Returned c'.
Proof.
  destruct c as [loc|loc rec|ds recs]; simpl; unfold bind, get, modify, ret.
  - destruct (Map.find loc (records d)); simpl; eauto.
  - destruct (Map.find loc (records d)); simpl; eauto.
  - eauto.
Qed.

(** A rollback reads and writes the map and the byte counter only. *)
Lemma rollback_sameContents c d1 d2 :
  sameContents d1 d2 ->
  sameContents (snd (rollback c d1)) (snd (rollback c d2)).
Proof.
  intros [R D]. destruct c as [loc|loc rec|ds recs]; simpl;
    unfold bind, get, modify, ret.
  - rewrite R. destruct (Map.find loc (records d2)); simpl;
      split; simpl; congruence.
  - rewrite R. destruct (Map.find loc (records d2)); simpl;
      split; simpl; congruence.
  - split; reflexivity.
Qed.

Lemma rollbackEach_cons c cs d :
  rollbackEach (c :: cs) d = rollbackEach cs (snd (rollback c d)).
Proof.
  simpl. unfold bind. destruct (rollback_returns c d) as (c' & E).
  destruct (rollback c d) as [r d1]. simpl in *. subst r. reflexivity.
Qed.

Lemma rollbackEach_app a : forall b d,
  rollbackEach (a ++ b) d = rollbackEach b (snd (rollbackEach a d)).
Proof.
  induction a as [|c a IH]; intros b d; [reflexivity|].
  simpl app. rewrite !rollbackEach_cons. apply IH.
Qed.

Lemma rollbackEach_returns cs : forall d, fst (rollbackEach cs d) = Returned tt.
Proof.
  induction cs as [|c cs IH]; intros d; [reflexivity|].
  rewrite rollbackEach_cons. apply IH.
Qed.

Lemma rollbackEach_sameContents cs : forall d1 d2,
  sameContents d1 d2 ->
  sameContents (snd (rollbackEach cs d1)) (snd (rollbackEach cs d2)).
Proof.
  induction cs as [|c cs IH]; intros d1 d2 S; [exact S|].
  rewrite !rollbackEach_cons. apply IH. now apply rollback_sameContents.
Qed.

Lemma undoes_refl w w' :
  _changes w' = _changes w -> sameContents (_data w') (_data w) -> undoes [] w w'.
Proof. intros C S. split; [now rewrite app_nil_r | exact S]. Qed.

Lemma undoes_trans n1 n2 w w1 w2 :
  undoes n1 w w1 -> undoes n2 w1 w2 -> undoes (n1 ++ n2) w w2.
Proof.
  intros [C1 S1] [C2 S2]. split.
  - rewrite C2, C1, app_assoc. reflexivity.
  - rewrite rev_app_distr, rollbackEach_app.
    eapply sameContents_trans; [|exact S1].
    now apply rollbackEach_sameContents.
Qed.

(** Rolling the evictions back puts the evicted records at the front of the
    map again. *)
Lemma restore_evicted ev : forall d,
  Map.ordered (ev ++ records d) ->
  snd (rollbackEach (rev (map removeChangeOf ev)) d)
  = set_records (ev ++ records d) (set_dataSize (dataSize d + Map.sumSizes ev) d).
Proof.
  induction ev as [|[k v] ev IH]; intros d O.
  - simpl. destruct d; unfold set_records, set_dataSize, Map.sumSizes; simpl.
    f_equal. lia.
  - simpl map. simpl rev. rewrite rollbackEach_app.
    pose proof (ordered_inv _ _ _ O) as [Om F].
    rewrite (IH d Om). rewrite rollbackEach_cons. simpl rollbackEach.
    unfold removeChangeOf; simpl. unfold bind, get, modify, ret. simpl.
    assert (Fresh : Map.find k (ev ++ records d) = None).
    { apply find_none_iff. intros I. rewrite Forall_forall in F.
      specialize (F _ I). lia. }
    rewrite Fresh. simpl.
    rewrite assign_first by (eapply Forall_impl; [|exact F]; simpl; intros; lia).
    unfold set_records, set_dataSize; simpl. f_equal.
    rewrite sumSizes_cons. simpl. lia.
Qed.

Lemma undoes_evicts ev w w' :
  Map.ordered (records (_data w)) -> evicts ev w w' ->
  undoes (map removeChangeOf ev) w w'.
Proof.
  intros O (R & D & _ & _ & C). split; [exact C|].
  rewrite restore_evicted by (rewrite <- R; exact O).
  split; simpl; [now rewrite R | lia].
Qed.

Lemma undoes_afterInsert w loc rec :
  Map.ordered (records (_data w)) ->
  Map.find loc (records (_data w)) = None ->
  undoes [InsertChange loc] w (afterInsert w loc rec).
Proof.
  intros O Fresh. split; [reflexivity|].
  simpl. unfold bind, get, modify, ret. simpl.
  rewrite find_assign_same. simpl.
  split; simpl; [now apply erase_assign | lia].
Qed.

Lemma undoes_afterReplace w loc old new :
  Map.ordered (records (_data w)) ->
  Map.find loc (records (_data w)) = Some old ->
  undoes [RemoveChange loc old] w (afterReplace w loc old new).
Proof.
  intros O Found. split; [reflexivity|].
  simpl. unfold bind, get, modify, ret. simpl.
  rewrite find_assign_same. simpl.
  split; simpl; [|lia].
  rewrite assign_assign. now apply assign_same.
Qed.

Lemma undoes_bumpNextId w : undoes [] w (bumpNextId w).
Proof. apply undoes_refl; [reflexivity | split; reflexivity]. Qed.

End Undo.

Section UndoOperations.

Import MapFacts.

Variable extractKey : list byte -> StatusWith RecordId.t.
Variable s : Store.

Lemma cappedDeleteAsNeeded_undoes w :
  wfWorld w -> exists new, undoes new w (snd (cappedDeleteAsNeeded s w)).
Proof.
  intros W. destruct (cappedDeleteAsNeeded s w) as [r w'] eqn:E.
  apply cappedDeleteAsNeeded_shape in E as (ev & Ev & _).
  exists (map removeChangeOf ev). apply undoes_evicts; [apply W | exact Ev].
Qed.

Lemma finishInsert_undoes loc data w :
  wfWorld w ->
  Forall (fun k => k < loc) (Map.keys (records (_data w))) ->
  exists new, undoes new w (snd (finishInsert s loc data w)).
Proof.
  intros W F. unfold finishInsert.
  pose proof (Forall_lt_fresh _ _ F) as Fresh.
  assert (O : Map.ordered (records (_data w))) by apply W.
  pose proof (undoes_afterInsert w loc (EphemeralForTestRecord.ofBytes data) O Fresh) as U1.
  destruct (cappedDeleteAsNeeded s _) as [r w'] eqn:E.
  apply cappedDeleteAsNeeded_shape in E as (ev & Ev & _).
  assert (U2 : undoes (map removeChangeOf ev)
                 (afterInsert w loc (EphemeralForTestRecord.ofBytes data)) w').
  { apply undoes_evicts; [|exact Ev]. simpl. now apply ordered_assign. }
  exists ([InsertChange loc] ++ map removeChangeOf ev).
  pose proof (undoes_trans _ _ _ _ _ U1 U2) as U.
  destruct r; exact U.
Qed.

Lemma insertSingleFn_undoes record w :
  wfWorld w -> exists new, undoes new w (snd (insertSingleFn extractKey s record w)).
Proof.
  intros W. rewrite insertSingleFn_unfold.
  destruct (isOplog (_data w)) eqn:O.
  - destruct (extractAndCheckLocForOplog extractKey (_data w) (Rec.data record))
      as [loc|] eqn:X.
    + apply extractAndCheck_value in X as [_ X].
      apply finishInsert_undoes; [exact W|].
      apply fresh_above_last; [apply W | exact X].
    + exists []. apply undoes_refl; [reflexivity | apply sameContents_refl].
  - destruct (RecordId.isNormal (nextId (_data w))).
    + destruct (finishInsert_undoes (nextId (_data w)) (Rec.data record) (bumpNextId w))
        as (new & U).
      * now apply wfWorld_bumpNextId.
      * simpl. apply W. exact O.
      * exists ([] ++ new). eapply undoes_trans; [apply undoes_bumpNextId | exact U].
    + exists []. apply undoes_bumpNextId.
Qed.

Lemma insertEach_undoes batch : forall w,
  wfWorld w -> exists new, undoes new w (snd (insertEach extractKey s batch w)).
Proof.
  induction batch as [|record rest IH]; intros w W.
  - exists []. apply undoes_refl; [reflexivity | apply sameContents_refl].
  - rewrite insertEach_cons.
    pose proof (insertSingleFn_wf extractKey s record w W) as W1.
    destruct (insertSingleFn_undoes record w W) as (n1 & U1).
    destruct (insertSingleFn extractKey s record w) as [[[st out]| | | ] w1];
      simpl in W1, U1; try (exists n1; exact U1).
    destruct st; [|exists n1; exact U1].
    destruct (IH w1 W1) as (n2 & U2).
    exists (n1 ++ n2).
    pose proof (undoes_trans _ _ _ _ _ U1 U2) as U.
    destruct (insertEach extractKey s rest w1) as [[[st' outs]| | | ] w2]; exact U.
Qed.

Lemma insertRecords_undoes batch w :
  wfWorld w -> exists new, undoes new w (snd (insertRecords extractKey s batch w)).
Proof.
  intros W. unfold insertRecords.
  destruct (existsb (exceedsCappedMaxSize s) batch).
  - exists []. apply undoes_refl; [reflexivity | apply sameContents_refl].
  - now apply insertEach_undoes.
Qed.

Lemma deleteRecord_undoes loc w :
  wfWorld w -> exists new, undoes new w (snd (deleteRecord loc w)).
Proof.
  intros W. assert (O : Map.ordered (records (_data w))) by apply W.
  unfold deleteRecord, recordFor, bind, getData, registerChange, modifyData,
    invariant, ret, Map.erase_count; simpl.
  destruct (Map.find loc (records (_data w))) as [old|] eqn:Found; simpl.
  - rewrite Found. simpl. exists [RemoveChange loc old]. split; [reflexivity|].
    simpl. unfold bind, get, modify, ret. simpl.
    rewrite find_erase_same by exact O. simpl.
    split; simpl; [now apply assign_erase | lia].
  - exists []. apply undoes_refl; [reflexivity | apply sameContents_refl].
Qed.

Lemma updateRecord_undoes loc data w :
  wfWorld w -> exists new, undoes new w (snd (updateRecord s loc data w)).
Proof.
  intros W. assert (O : Map.ordered (records (_data w))) by apply W.
  unfold updateRecord, recordFor.
  unfold bind at 1. unfold bind at 1. unfold getData at 1.
  destruct (Map.find loc (records (_data w))) as [old|] eqn:Found;
    [|exists []; apply undoes_refl; [reflexivity | apply sameContents_refl]].
  unfold ret at 1. unfold bind at 1. unfold invariant at 1.
  destruct (negb (_isCapped s)
            || (Z.of_nat (length data) =? EphemeralForTestRecord.size old));
    [|exists []; apply undoes_refl; [reflexivity | apply sameContents_refl]].
  unfold bind at 1. unfold registerChange at 1.
  unfold bind at 1. unfold modifyData at 1.
  unfold bind at 1. unfold modifyData at 1. simpl _data. simpl _changes.
  unfold bind, ret.
  match goal with
  | |- context [cappedDeleteAsNeeded s ?w1] =>
      change w1 with (afterReplace w loc old (EphemeralForTestRecord.ofBytes data))
  end.
  pose proof (undoes_afterReplace w loc old (EphemeralForTestRecord.ofBytes data) O Found)
    as U1.
  destruct (cappedDeleteAsNeeded_undoes
              (afterReplace w loc old (EphemeralForTestRecord.ofBytes data)))
    as (n2 & U2).
  { now apply wfWorld_afterReplace. }
  exists ([RemoveChange loc old] ++ n2).
  pose proof (undoes_trans _ _ _ _ _ U1 U2) as U.
  destruct (cappedDeleteAsNeeded s
              (afterReplace w loc old (EphemeralForTestRecord.ofBytes data)))
    as [[ | | | ] w2]; exact U.
Qed.

Lemma truncate_undoes w : exists new, undoes new w (snd (truncate w)).
Proof.
  exists [TruncateChange (dataSize (_data w)) (records (_data w))].
  unfold truncate, TruncateChange_swap; simpl. split; [reflexivity|].
  simpl. split; reflexivity.
Qed.

End UndoOperations.

Section UndoDamages.

Import MapFacts.

Variable s : Store.

Lemma updateWithDamages_undoes loc damageSource damages w :
  wfWorld w ->
  exists new, undoes new w (snd (updateWithDamages s loc damageSource damages w)).
Proof.
  intros W. assert (O : Map.ordered (records (_data w))) by apply W.
  unfold updateWithDamages, recordFor.
  unfold bind at 1. unfold bind at 1. unfold getData at 1.
  destruct (Map.find loc (records (_data w))) as [old|] eqn:Found;
    [|exists []; apply undoes_refl; [reflexivity | apply sameContents_refl]].
  unfold ret at 1.
  unfold bind at 1. unfold registerChange at 1.
  unfold bind at 1. unfold modifyData at 1. simpl _data. simpl _changes.
  set (len := EphemeralForTestRecord.size old).
  set (newRecord := EphemeralForTestRecord.mk len
                      (firstn (Z.to_nat len) (EphemeralForTestRecord.data old))).
  set (w1 := {| _data := set_records (Map.assign loc newRecord (records (_data w))) (_data w);
                _changes := _changes w ++ [RemoveChange loc old] |}).
  assert (U1 : undoes [RemoveChange loc old] w w1).
  { split; [reflexivity|]. simpl. unfold bind, get, modify, ret. simpl.
    rewrite find_assign_same. simpl. split; simpl.
    - rewrite assign_assign. now apply assign_same.
    - subst len. lia. }
  assert (O1 : Map.ordered (records (_data w1))) by (simpl; now apply ordered_assign).
  unfold bind at 1.
  destruct (cappedDeleteAsNeeded s w1) as [r w2] eqn:E.
  apply cappedDeleteAsNeeded_shape in E as (ev & Ev & _).
  pose proof (undoes_evicts ev w1 w2 O1 Ev) as U2.
  pose proof (undoes_trans _ _ _ _ _ U1 U2) as U.
  exists ([RemoveChange loc old] ++ map removeChangeOf ev).
  destruct r; try exact U.
  unfold bind, modifyData, ret. simpl snd.
  destruct Ev as (R & D & _ & _ & C). simpl in R, D, C.
  assert (K : forall damaged, EphemeralForTestRecord.size damaged = len ->
              exists x, EphemeralForTestRecord.size x = len
                /\ ev ++ assignThrough loc damaged (records (_data w2))
                   = Map.assign loc x (records (_data w))).
  { intros damaged Sd. unfold assignThrough.
    destruct (Map.find loc (records (_data w2))) as [r'|] eqn:F2.
    - exists damaged. split; [exact Sd|].
      rewrite <- assign_app_right.
      + rewrite <- R. apply assign_assign.
      + rewrite <- R. now apply ordered_assign.
      + eapply find_some_in; eauto.
    - exists newRecord. split; [reflexivity|]. now rewrite <- R. }
  match goal with
  | |- context [assignThrough loc ?d _] =>
      destruct (K d eq_refl) as (x & Sx & Kx)
  end.
  split; [simpl; rewrite C; now rewrite <- app_assoc|].
  change (rev ([RemoveChange loc old] ++ map removeChangeOf ev))
    with (rev (RemoveChange loc old :: map removeChangeOf ev)).
  simpl rev. rewrite rollbackEach_app.
  rewrite restore_evicted
    by (cbn [records _data set_records]; rewrite Kx; now apply ordered_assign).
  cbn [records _data set_records dataSize set_dataSize]. rewrite Kx.
  rewrite rollbackEach_cons.
  cbn [rollbackEach rollback]. unfold bind, get, modify, ret.
  cbn [records dataSize set_records set_dataSize fst snd].
  rewrite find_assign_same.
  cbn [records dataSize set_records set_dataSize fst snd].
  split; cbn [records dataSize set_records set_dataSize].
  - rewrite assign_assign. now apply assign_same.
  - rewrite D, Sx. subst len. cbn [dataSize set_records]. lia.
Qed.

(** The loop of [cappedTruncateAfter] over the nodes [pending], the map
    being [keep ++ pending]: whatever the outcome, the changes it registered
    put the map back. *)
Lemma cappedTruncateAfter_loop_undoes pending : forall w keep,
  records (_data w) = keep ++ pending ->
  wfWorld w ->
  exists new, undoes new w (snd (cappedTruncateAfter_loop s pending w)).
Proof.
  induction pending as [|[id record] rest IH]; intros w keep R W.
  - exists []. apply undoes_refl; [reflexivity | apply sameContents_refl].
  - simpl. unfold bind at 1.
    assert (O : Map.ordered (keep ++ (id, record) :: rest))
      by (rewrite <- R; apply W).
    assert (Found : Map.find id (records (_data w)) = Some record).
    { rewrite R. apply find_suffix; [exact O|]. simpl. now rewrite Z.eqb_refl. }
    set (w1 := {| _data :=
                    set_records (Map.erase id (records (_data w)))
                      (set_dataSize
                         (dataSize (_data w) - EphemeralForTestRecord.size record)
                         (_data w));
                  _changes := _changes w ++ [RemoveChange id record] |}).
    assert (E1 : snd (deleteRecord id w) = w1).
    { unfold deleteRecord, recordFor, bind, getData, registerChange, modifyData,
        invariant, ret, Map.erase_count. simpl. rewrite Found. simpl.
      rewrite Found. reflexivity. }
    assert (K : exists new, undoes new w (snd (cappedTruncateAfter_loop s rest w1))).
    { destruct (deleteRecord_undoes id w W) as (n1 & U1). rewrite E1 in U1.
      destruct (IH w1 keep) as (n2 & U2).
      - simpl. rewrite R. now apply erase_middle.
      - rewrite <- E1. now apply deleteRecord_wf.
      - exists (n1 ++ n2). eapply undoes_trans; eauto. }
    destruct (_cappedCallback s) as [cb|]; unfold uassertStatusOK, ret, get.
    + unfold bind at 1.
      destruct (cb w id (EphemeralForTestRecord.toRecordData record)).
      * unfold bind, registerChange, modifyData. simpl. exact K.
      * exists []. apply undoes_refl; [reflexivity | apply sameContents_refl].
    + unfold bind, registerChange, modifyData. simpl. exact K.
Qed.

Lemma cappedTruncateAfter_undoes endId inclusive w :
  wfWorld w ->
  exists new, undoes new w (snd (cappedTruncateAfter s endId inclusive w)).
Proof.
  intros W. unfold cappedTruncateAfter, bind, getData.
  destruct (filter_from_bound endId inclusive (records (_data w))) as (keep & E);
    [apply W|].
  now apply cappedTruncateAfter_loop_undoes with (keep := keep).
Qed.

End UndoDamages.

Section UndoHistory.

Variable extractKey : list byte -> StatusWith RecordId.t.
Variable s : Store.

Lemma step_undoes w op :
  wfWorld w -> isCommit op = false -> op <> OpRollback ->
  exists new, undoes new w (step extractKey s w op).
Proof.
  intros W NC NR. destruct op; simpl; try discriminate; try contradiction.
  - now apply insertRecords_undoes.
  - now apply updateRecord_undoes.
  - now apply updateWithDamages_undoes.
  - now apply deleteRecord_undoes.
  - apply truncate_undoes.
  - now apply cappedTruncateAfter_undoes.
Qed.

(** What a rollback of the unit of work would leave is the same before and
    after a call that is not a commit. *)
Lemma step_keeps_rollback_target w op :
  wfWorld w -> isCommit op = false ->
  sameContents (_data (snd (abortUnitOfWork (step extractKey s w op))))
               (_data (snd (abortUnitOfWork w))).
Proof.
  intros W NC.
  assert (A : forall w0, _data (snd (abortUnitOfWork w0))
                         = snd (rollbackEach (rev (_changes w0)) (_data w0))).
  { intros w0. unfold abortUnitOfWork.
    destruct (rollbackEach (rev (_changes w0)) (_data w0)); reflexivity. }
  destruct op; try discriminate;
    try (match goal with
         | |- context [step extractKey s w ?o] =>
             destruct (step_undoes w o W eq_refl) as (new & C & S);
             [discriminate|];
             rewrite !A, C, rev_app_distr, rollbackEach_app;
             now apply rollbackEach_sameContents
         end).
  simpl step. rewrite A.
  unfold abortUnitOfWork at 1.
  destruct (rollbackEach (rev (_changes w)) (_data w)) as [r d] eqn:E.
  simpl. rewrite A, E. apply sameContents_refl.
Qed.

End UndoHistory.

(** X1.  Rolling a unit of work back undoes it: after any history of
    inserts, updates, deletes, truncates (with the evictions and callback
    vetoes they bring) and rollbacks, without a commit, on a consistent
    store, aborting the unit of work returns and leaves the map and the byte
    counter that aborting it before the history would have left; they are
    those of the start when no change was pending. *)
Theorem rollback_restores_contents :
  forall (extractKey : list byte -> StatusWith RecordId.t) (s : Store)
         (ops : list Op) (w : World),
    wfWorld w ->
    existsb isCommit ops = false ->
    fst (abortUnitOfWork (runOps extractKey s ops w)) = Returned tt
    /\ _changes (snd (abortUnitOfWork (runOps extractKey s ops w))) = []
    /\ sameContents (_data (snd (abortUnitOfWork (runOps extractKey s ops w))))
                    (_data (snd (abortUnitOfWork w)))
    /\ (_changes w = [] ->
        records (_data (snd (abortUnitOfWork (runOps extractKey s ops w))))
        = records (_data w)
        /\ dataSize (_data (snd (abortUnitOfWork (runOps extractKey s ops w))))
           = dataSize (_data w)).
Proof.
  intros extractKey s ops.
  assert (Main : forall w, wfWorld w -> existsb isCommit ops = false ->
            sameContents (_data (snd (abortUnitOfWork (runOps extractKey s ops w))))
                         (_data (snd (abortUnitOfWork w)))).
  { induction ops as [|op ops IH]; intros w W NC; [apply sameContents_refl|].
    simpl in NC. apply orb_false_iff in NC as [NC1 NC2]. simpl.
    eapply sameContents_trans.
    - apply IH; [now apply step_wf | exact NC2].
    - now apply step_keeps_rollback_target. }
  intros w W NC.
  assert (R : forall w0, fst (abortUnitOfWork w0) = Returned tt
                         /\ _changes (snd (abortUnitOfWork w0)) = []).
  { intros w0. unfold abortUnitOfWork.
    pose proof (rollbackEach_returns (rev (_changes w0)) (_data w0)) as E.
    destruct (rollbackEach (rev (_changes w0)) (_data w0)); simpl in *. auto. }
  split; [apply R|]. split; [apply R|]. split; [now apply Main|].
  intros Fresh. specialize (Main w W NC).
  unfold abortUnitOfWork at 2 in Main. rewrite Fresh in Main. exact Main.
Qed.

Lemma rollback_restores_contents_witness :
  records (_data (snd (abortUnitOfWork
     (runOps firstByteKey capped8 mixedHistory
        (Harness.insertCommitted payloadC (World_new false))))))
  = [(1, EphemeralForTestRecord.ofBytes payloadC)]
  /\ dataSize (_data (snd (abortUnitOfWork
       (runOps firstByteKey capped8 mixedHistory
          (Harness.insertCommitted payloadC (World_new false))))))
     = 3.
Proof.
  assert (W : wfWorld (Harness.insertCommitted payloadC (World_new false))).
  { unfold Harness.insertCommitted. apply commitUnitOfWork_wf, insertRecords_wf,
      wfWorld_new. }
  apply (proj2 (proj2 (proj2
           (rollback_restores_contents firstByteKey capped8 mixedHistory _ W eq_refl)))).
  reflexivity.
Defined.

(* ------------------------------------------------------------------ *)
(** ** The oplog start position *)

Section OplogStart.

Import MapFacts.

Lemma begin_is_least m h :
  Map.ordered m -> Map.begin m = Some h ->
  In h (Map.keys m) /\ forall i, In i (Map.keys m) -> h <= i.
Proof.
  destruct m as [|[k v] m]; simpl; intros O E; [discriminate|].
  inversion E; subst. split; [now left|].
  apply ordered_inv in O as [_ F]. rewrite Forall_forall in F.
  intros i [<-|I]; [lia|]. specialize (F _ I). lia.
Qed.

(** X2.  [oplogStartHack] answers nothing for a store that is not an oplog.
    For an oplog it answers the greatest key at or below the starting
    position, and the null id when the oplog is empty or every key is above
    the starting position. *)
Theorem oplogStartHack_greatest_key_at_most :
  forall (d : Data) (startingPosition : RecordId.t),
    Map.ordered (records d) ->
    (isOplog d = false -> oplogStartHack startingPosition d = None)
    /\ (isOplog d = true ->
        exists it,
          firstKeyAtMost startingPosition (records d) it
          /\ oplogStartHack startingPosition d
             = Some (match it with Some j => j | None => RecordId.null end)).
Proof.
  intros d sp O. unfold oplogStartHack. split; intros ->; simpl; [reflexivity|].
  destruct (records d) as [|[h v] tl] eqn:R.
  { exists None. split; [intros i []|reflexivity]. }
  rewrite <- R in *. assert (B : Map.begin (records d) = Some h) by now rewrite R.
  assert (NE : Map.empty (records d) = false) by now rewrite R.
  rewrite NE, B.
  destruct (begin_is_least _ _ O B) as [Ih Least].
  pose proof (lower_bound_spec sp _ O) as L.
  destruct (Map.lower_bound sp (records d)) as [k|]; simpl in L.
  - destruct L as (Ik & Lk & Min).
    destruct (Z.gtb_spec k sp) as [G|Le].
    + simpl. destruct (Z.eqb_spec k h) as [->|N].
      * exists None. split; [|reflexivity].
        intros i Ii. specialize (Least _ Ii). lia.
      * pose proof (below_spec k _ O) as Bl.
        destruct (Map.below k (records d)) as [j|].
        -- destruct Bl as (Ij & Lj & Max). exists (Some j). split; [|reflexivity].
           split; [exact Ij|]. split.
           ++ destruct (Z.le_gt_cases j sp) as [?|Gj]; [assumption|].
              assert (k <= j) by (apply Min; [exact Ij | lia]). lia.
           ++ intros i Ii Li. apply Max; [exact Ii | lia].
        -- exfalso. specialize (Bl _ Ih). specialize (Least _ Ik). lia.
    + exists (Some k). split; [|reflexivity].
      split; [exact Ik|]. split; [lia|]. intros i Ii Li.
      destruct (Z.le_gt_cases i k) as [?|Gi]; [assumption|]. lia.
  - simpl. pose proof (last_key_spec _ O) as Lk.
    destruct (Map.last_key (records d)) as [j|].
    + destruct Lk as (Ij & Max). exists (Some j). split; [|reflexivity].
      split; [exact Ij|]. split; [specialize (L _ Ij); lia | auto].
    + rewrite Lk in R. discriminate.
Qed.

(** An oplog with keys 5 and 10. *)
Lemma oplogStartHack_greatest_key_at_most_witness :
  oplogStartHack 7 (mkData twoRecords 10 1 false) = None
  /\ exists it,
       firstKeyAtMost 3 gapRecords it
       /\ oplogStartHack 3 (mkData gapRecords 13 1 true)
          = Some (match it with Some j => j | None => RecordId.null end).
Proof.
  split.
  - apply (proj1 (oplogStartHack_greatest_key_at_most
                    (mkData twoRecords 10 1 false) 7
                    (proj1 (proj1 twoRecordWorld_wf)))).
    reflexivity.
  - apply (proj2 (oplogStartHack_greatest_key_at_most
                    (mkData gapRecords 13 1 true) 3 gapRecords_ordered)).
    reflexivity.
Defined.

End OplogStart.

(* ------------------------------------------------------------------ *)
(** ** Writing a record and reading it back *)

Section RoundTrips.

Import MapFacts.

Lemma find_of_In k v m : Map.ordered m -> In (k, v) m -> Map.find k m = Some v.
Proof.
  induction m as [|[k' v'] m IH]; simpl; intros O I; [contradiction|].
  apply ordered_inv in O as [O F].
  destruct I as [E|I].
  - inversion E; subst. now rewrite Z.eqb_refl.
  - destruct (Z.eqb_spec k' k) as [->|N]; [|auto].
    rewrite Forall_forall in F.
    assert (k < k) by (apply F; change k with (fst (k, v)); now apply in_map).
    lia.
Qed.

Lemma length_erase k m r :
  Map.find k m = Some r -> length m = S (length (Map.erase k m)).
Proof.
  induction m as [|[k' v'] m IH]; simpl; [discriminate|].
  destruct (Z.eqb_spec k' k); [reflexivity|]. intros F. simpl. now rewrite <- IH.
Qed.

Lemma length_assign_present k v m r :
  Map.ordered m -> Map.find k m = Some r -> length (Map.assign k v m) = length m.
Proof.
  induction m as [|[k' v'] m IH]; simpl; [discriminate|]. intros O.
  apply ordered_inv in O as [O F].
  destruct (Z.eqb_spec k' k) as [E|N].
  - subst k'. intros _. rewrite Z.ltb_irrefl, Z.eqb_refl. reflexivity.
  - intros Fd. destruct (Z.ltb_spec k k') as [L|G].
    + apply find_some_in in Fd. rewrite Forall_forall in F.
      specialize (F _ Fd). lia.
    + destruct (Z.eqb_spec k k'); [congruence|]. simpl. now rewrite IH.
Qed.

Variable extractKey : list byte -> StatusWith RecordId.t.
Variable s : Store.

Lemma insertRecords_one record w :
  insertRecords extractKey s [record] w =
  if exceedsCappedMaxSize s record
  then (Returned (StatusError BadValue ExceedsCappedMaxSize, [record]), w)
  else match insertSingleFn extractKey s record w with
       | (Returned (st, out), w1) => (Returned (st, [out]), w1)
       | (Thrown x, w1) => (Thrown x, w1)
       | (InvariantFailed, w1) => (InvariantFailed, w1)
       | (OutOfFuel, w1) => (OutOfFuel, w1)
       end.
Proof.
  unfold insertRecords. cbn [existsb]. rewrite orb_false_r.
  destruct (exceedsCappedMaxSize s record); [reflexivity|].
  rewrite insertEach_cons.
  destruct (insertSingleFn extractKey s record w) as [[[[|c e] out]| | | ] w1];
    reflexivity.
Qed.

End RoundTrips.

Lemma cappedAfterAB_wf : wfWorld cappedAfterAB.
Proof.
  split; [split; [|split]|].
  - repeat constructor.
  - reflexivity.
  - intros _. repeat constructor.
  - repeat constructor; simpl; intros; lia.
Qed.

(** X3.  Insert then look up, in a store the constructor accepts, capped or
    not: after [insertRecords] returned OK for one record, the record is in
    the map under the id handed back, [findRecord] and [dataFor] return the
    bytes that were inserted, the id was not in use before, and every other
    record still present is as it was before the call. *)
Theorem insert_then_find :
  forall (extractKey : list byte -> StatusWith RecordId.t) (s : Store)
         (record out : Rec.t) (w w' : World),
    Store_valid s = true ->
    wfWorld w ->
    insertRecords extractKey s [record] w = (Returned (StatusOK, [out]), w') ->
    Rec.data out = Rec.data record
    /\ Map.find (Rec.id out) (records (_data w)) = None
    /\ findRecord (Rec.id out) w' = (Returned (Some (Rec.data record)), w')
    /\ dataFor (Rec.id out) w' = (Returned (Rec.data record), w')
    /\ (forall k r, k <> Rec.id out ->
          Map.find k (records (_data w')) = Some r ->
          Map.find k (records (_data w)) = Some r).
Proof.
  intros extractKey s record out w w' V W H.
  pose proof (insertRecords_wf extractKey s [record] w W) as W'.
  rewrite H in W'. simpl in W'.
  rewrite insertRecords_one in H.
  destruct (exceedsCappedMaxSize s record) eqn:Fit; [discriminate|].
  destruct (insertSingleFn extractKey s record w) as [[[st o]| | | ] w1] eqn:E1;
    try discriminate.
  injection H as Hs Ho Hw. subst st o w1.
  destruct (insertSingleFn_keeps extractKey s V record w out w' W Fit E1) as (kept & K).
  destruct (insertSingleFn_ok extractKey s record w out w' W E1)
    as (D & ev & F & R & _).
  assert (O' : Map.ordered (records (_data w'))) by apply W'.
  assert (Fresh : Map.find (Rec.id out) (records (_data w)) = None).
  { apply MapFacts.find_none_iff. intros I. rewrite Forall_forall in F.
    specialize (F _ I). lia. }
  assert (Here : Map.find (Rec.id out) (records (_data w'))
                 = Some (EphemeralForTestRecord.ofBytes (Rec.data record))).
  { apply find_of_In; [exact O'|]. rewrite K. apply in_or_app. right. left.
    unfold entryOf. now rewrite D. }
  split; [exact D|]. split; [exact Fresh|]. split; [|split].
  - unfold findRecord, bind, getData, ret. simpl. rewrite Here. reflexivity.
  - unfold dataFor, recordFor, bind, getData, ret. simpl. rewrite Here. reflexivity.
  - intros k r N Fk.
    assert (Oa : Map.ordered (records (_data w) ++ [entryOf out])).
    { unfold entryOf.
      rewrite <- (MapFacts.assign_last (Rec.id out)
                    (EphemeralForTestRecord.ofBytes (Rec.data out)) _ F).
      apply MapFacts.ordered_assign. apply W. }
    assert (Fa : Map.find k (records (_data w) ++ [entryOf out]) = Some r).
    { rewrite R. rewrite R in Oa. now apply find_suffix. }
    clear -Fa N. induction (records (_data w)) as [|[k' v'] m IH]; simpl in *.
    + destruct (Z.eqb_spec (Rec.id out) k); [congruence | discriminate].
    + destruct (k' =? k); auto.
Qed.

(** The capped store of 8 bytes holding "B" (5 bytes) takes "C" (3 bytes). *)
Lemma insert_then_find_witness :
  findRecord 3 (snd (insertRecords firstByteKey capped8 [Rec.mk 0 payloadC] cappedAfterAB))
  = (Returned (Some payloadC),
     snd (insertRecords firstByteKey capped8 [Rec.mk 0 payloadC] cappedAfterAB)).
Proof.
  exact (proj1 (proj2 (proj2
           (insert_then_find firstByteKey capped8 (Rec.mk 0 payloadC) (Rec.mk 3 payloadC)
              cappedAfterAB _ eq_refl cappedAfterAB_wf eq_refl)))).
Defined.

Section NonCappedBatch.

Import MapFacts.

Variable extractKey : list byte -> StatusWith RecordId.t.
Variable s : Store.
Hypothesis notCapped : _isCapped s = false.

Lemma find_app_l a b k r : Map.find k a = Some r -> Map.find k (a ++ b) = Some r.
Proof.
  induction a as [|[k' v'] a IH]; simpl; [discriminate|].
  destruct (k' =? k); auto.
Qed.

Lemma exceeds_noncapped batch : existsb (exceedsCappedMaxSize s) batch = false.
Proof.
  induction batch as [|r batch IH]; [reflexivity|].
  cbn [existsb]. rewrite IH. unfold exceedsCappedMaxSize. now rewrite notCapped.
Qed.

Lemma insertSingleFn_noncapped record w out w' :
  wfWorld w ->
  insertSingleFn extractKey s record w = (Returned (StatusOK, out), w') ->
  records (_data w') = records (_data w) ++ [entryOf out]
  /\ Rec.data out = Rec.data record.
Proof.
  intros W. rewrite insertSingleFn_unfold. unfold finishInsert.
  destruct (isOplog (_data w)) eqn:O.
  - destruct (extractAndCheckLocForOplog extractKey (_data w) (Rec.data record))
      as [loc|] eqn:X; [|discriminate].
    apply extractAndCheck_value in X as [_ X].
    rewrite (cappedDeleteAsNeeded_noncapped s notCapped).
    intros E1. injection E1 as Eo Ew. subst out w'. simpl. split; [|reflexivity].
    apply assign_last. apply fresh_above_last; [apply W | exact X].
  - destruct (RecordId.isNormal (nextId (_data w))); [|discriminate].
    rewrite (cappedDeleteAsNeeded_noncapped s notCapped).
    intros E1. injection E1 as Eo Ew. subst out w'. simpl. split; [|reflexivity].
    apply assign_last. apply W. exact O.
Qed.

Lemma insertEach_noncapped batch : forall w outs w',
  wfWorld w ->
  insertEach extractKey s batch w = (Returned (StatusOK, outs), w') ->
  records (_data w') = records (_data w) ++ map entryOf outs
  /\ map Rec.data outs = map Rec.data batch.
Proof.
  induction batch as [|record rest IH]; intros w outs w' W H.
  - inversion H; subst. simpl. now rewrite app_nil_r.
  - rewrite insertEach_cons in H.
    pose proof (insertSingleFn_wf extractKey s record w W) as W1.
    destruct (insertSingleFn extractKey s record w) as [[[st out]| | | ] w1] eqn:E1;
      try discriminate.
    destruct st; [|discriminate]. simpl in W1.
    destruct (insertSingleFn_noncapped _ _ _ _ W E1) as (R1 & D1).
    destruct (insertEach extractKey s rest w1) as [[[st' outs']| | | ] w2] eqn:E2;
      try discriminate.
    injection H as Hs Ho Hw. subst st' outs w2.
    destruct (IH _ _ _ W1 E2) as (R2 & D2).
    split.
    + rewrite R2, R1, <- app_assoc. reflexivity.
    + simpl. now rewrite D1, D2.
Qed.

End NonCappedBatch.

(** X4.  In a store that is not capped a batch that [insertRecords] accepted
    is appended to the map as it is: the records handed back carry the
    payloads of the batch in order, nothing that was there before is lost
    or changed, the number of records grows by the size of the batch and the
    byte counter by the bytes of the batch, and every record of the batch is
    found under its id. *)
Theorem noncapped_batch_is_appended :
  forall (extractKey : list byte -> StatusWith RecordId.t) (s : Store)
         (batch outs : list Rec.t) (w w' : World),
    _isCapped s = false ->
    wfWorld w ->
    insertRecords extractKey s batch w = (Returned (StatusOK, outs), w') ->
    map Rec.data outs = map Rec.data batch
    /\ records (_data w') = records (_data w) ++ map entryOf outs
    /\ numRecords (_data w') = numRecords (_data w) + Z.of_nat (length batch)
    /\ dataSize (_data w') = dataSize (_data w) + Map.sumSizes (map entryOf outs)
    /\ (forall out, In out outs ->
          findRecord (Rec.id out) w' = (Returned (Some (Rec.data out)), w'))
    /\ (forall k r, Map.find k (records (_data w)) = Some r ->
          findRecord k w' = (Returned (Some (EphemeralForTestRecord.toRecordData r)), w')).
Proof.
  intros extractKey s batch outs w w' NC W H.
  pose proof (insertRecords_wf extractKey s batch w W) as W'.
  rewrite H in W'. simpl in W'.
  unfold insertRecords in H. rewrite (exceeds_noncapped s NC) in H.
  destruct (insertEach_noncapped extractKey s NC batch w outs w' W H) as (R & D).
  assert (L : length outs = length batch).
  { rewrite <- (length_map Rec.data outs), D. apply length_map. }
  split; [exact D|]. split; [exact R|]. split; [|split; [|split]].
  - unfold numRecords, Map.size. rewrite R, length_app, length_map, L. lia.
  - destruct W as [(_ & Ds & _) _]. destruct W' as [(_ & Ds' & _) _].
    rewrite Ds', Ds, R. apply MapFacts.sumSizes_app.
  - intros out I.
    assert (F : Map.find (Rec.id out) (records (_data w'))
                = Some (EphemeralForTestRecord.ofBytes (Rec.data out))).
    { apply find_of_In; [apply W'|]. rewrite R. apply in_or_app. right.
      change (Rec.id out, EphemeralForTestRecord.ofBytes (Rec.data out))
        with (entryOf out). now apply in_map. }
    unfold findRecord, bind, getData, ret. simpl. rewrite F. reflexivity.
  - intros k r F.
    unfold findRecord, bind, getData, ret. simpl.
    rewrite R, (find_app_l _ _ _ _ F). reflexivity.
Qed.

(** Two records into the empty store. *)
Lemma noncapped_batch_is_appended_witness :
  numRecords (_data (snd (insertRecords firstByteKey plainStore
                            [Rec.mk 0 payloadA; Rec.mk 0 payloadB] (World_new false))))
  = numRecords (_data (World_new false)) + 2.
Proof.
  exact (proj1 (proj2 (proj2
           (noncapped_batch_is_appended firstByteKey plainStore
              [Rec.mk 0 payloadA; Rec.mk 0 payloadB]
              [Rec.mk 1 payloadA; Rec.mk 2 payloadB]
              (World_new false) _ eq_refl (wfWorld_new false) eq_refl)))).
Defined.

(* ------------------------------------------------------------------ *)
(** ** Deleting and replacing a record *)

(** X5.  [deleteRecord] of an id that is in the map returns; afterwards the
    id is not found, every other id is found as before, there is one record
    less, the byte counter went down by the size of the deleted record, and
    one [RemoveChange] holding the deleted record was registered. *)
Theorem delete_then_find :
  forall (loc : RecordId.t) (old : EFTRecord) (w : World),
    Map.ordered (records (_data w)) ->
    Map.find loc (records (_data w)) = Some old ->
    exists w',
      deleteRecord loc w = (Returned tt, w')
      /\ findRecord loc w' = (Returned None, w')
      /\ (forall k, k <> loc ->
            Map.find k (records (_data w')) = Map.find k (records (_data w)))
      /\ numRecords (_data w') = numRecords (_data w) - 1
      /\ dataSize (_data w') = dataSize (_data w) - EphemeralForTestRecord.size old
      /\ nextId (_data w') = nextId (_data w)
      /\ _changes w' = _changes w ++ [RemoveChange loc old].
Proof.
  intros loc old w O F.
  unfold deleteRecord, recordFor, bind, getData, registerChange, modifyData,
    invariant, ret, Map.erase_count; simpl.
  rewrite F; simpl. rewrite F. eexists. split; [reflexivity|]. simpl.
  split; [|split; [|split; [|split; [|split]]]]; try reflexivity.
  - unfold findRecord, bind, getData, ret. simpl.
    rewrite (find_erase_same _ _ O). reflexivity.
  - intros k N. now apply find_erase_other.
  - unfold numRecords, Map.size. simpl. rewrite (length_erase _ _ _ F). lia.
Qed.

Lemma delete_then_find_witness :
  exists w',
    deleteRecord 1 twoRecordWorld = (Returned tt, w')
    /\ findRecord 1 w' = (Returned None, w')
    /\ (forall k, k <> 1 ->
          Map.find k (records (_data w')) = Map.find k (records (_data twoRecordWorld)))
    /\ numRecords (_data w') = numRecords (_data twoRecordWorld) - 1
    /\ dataSize (_data w')
       = dataSize (_data twoRecordWorld)
         - EphemeralForTestRecord.size (EphemeralForTestRecord.ofBytes payloadA)
    /\ nextId (_data w') = nextId (_data twoRecordWorld)
    /\ _changes w'
       = _changes twoRecordWorld
         ++ [RemoveChange 1 (EphemeralForTestRecord.ofBytes payloadA)].
Proof.
  apply (delete_then_find 1 (EphemeralForTestRecord.ofBytes payloadA) twoRecordWorld).
  - apply twoRecordWorld_wf.
  - reflexivity.
Defined.

Section Update.

Variable s : Store.

Lemma updateRecord_unfold loc data w old :
  Map.find loc (records (_data w)) = Some old ->
  updateRecord s loc data w =
  if negb (_isCapped s) || (Z.of_nat (length data) =? EphemeralForTestRecord.size old)
  then match cappedDeleteAsNeeded s
               (afterReplace w loc old (EphemeralForTestRecord.ofBytes data)) with
       | (Returned _, w') => (Returned StatusOK, w')
       | (Thrown e, w') => (Thrown e, w')
       | (InvariantFailed, w') => (InvariantFailed, w')
       | (OutOfFuel, w') => (OutOfFuel, w')
       end
  else (InvariantFailed, w).
Proof.
  intros Found. unfold updateRecord, recordFor.
  unfold bind at 1. unfold bind at 1. unfold getData at 1. rewrite Found.
  unfold ret at 1. unfold bind at 1. unfold invariant at 1.
  destruct (negb (_isCapped s)
            || (Z.of_nat (length data) =? EphemeralForTestRecord.size old));
    [|reflexivity].
  unfold bind at 1. unfold registerChange at 1.
  unfold bind at 1. unfold modifyData at 1.
  unfold bind at 1. unfold modifyData at 1. simpl _data. simpl _changes.
  unfold bind, ret.
  match goal with
  | |- context [cappedDeleteAsNeeded s ?w1] =>
      change w1 with (afterReplace w loc old (EphemeralForTestRecord.ofBytes data))
  end.
  destruct (cappedDeleteAsNeeded s _) as [[ | | | ] w2]; reflexivity.
Qed.

Lemma need_same_counts d d' :
  dataSize d' = dataSize d ->
  length (records d') = length (records d) ->
  cappedAndNeedDelete s d' = cappedAndNeedDelete s d.
Proof.
  intros D L. unfold cappedAndNeedDelete, numRecords, Map.size. now rewrite D, L.
Qed.

End Update.

(** X6.  [updateRecord] of an id that is in the map.  In a capped store a
    payload of another length than the old one fails the invariant and
    changes nothing.  In a store that is not capped, and in a capped store
    within its bounds when the length is kept, the call returns OK:
    afterwards the id is found with the new bytes, every other id is found
    as before, the number of records is the same, the byte counter moved by
    the difference of the lengths, and one [RemoveChange] holding the old
    record was registered. *)
Theorem update_then_find :
  forall (s : Store) (loc : RecordId.t) (data : list byte) (old : EFTRecord)
         (w : World),
    Map.ordered (records (_data w)) ->
    Map.find loc (records (_data w)) = Some old ->
    (_isCapped s = true ->
     Z.of_nat (length data) <> EphemeralForTestRecord.size old ->
     updateRecord s loc data w = (InvariantFailed, w))
    /\ (_isCapped s = false
        \/ (Z.of_nat (length data) = EphemeralForTestRecord.size old
            /\ cappedAndNeedDelete s (_data w) = false) ->
        exists w',
          updateRecord s loc data w = (Returned StatusOK, w')
          /\ findRecord loc w' = (Returned (Some data), w')
          /\ (forall k, k <> loc ->
                Map.find k (records (_data w')) = Map.find k (records (_data w)))
          /\ numRecords (_data w') = numRecords (_data w)
          /\ dataSize (_data w')
             = dataSize (_data w)
               + (Z.of_nat (length data) - EphemeralForTestRecord.size old)
          /\ _changes w' = _changes w ++ [RemoveChange loc old]).
Proof.
  intros s loc data old w O Found.
  rewrite (updateRecord_unfold s loc data w old Found). split.
  - intros C N. rewrite C. simpl.
    destruct (Z.eqb_spec (Z.of_nat (length data)) (EphemeralForTestRecord.size old));
      [contradiction | reflexivity].
  - intros Ok.
    assert (G : negb (_isCapped s)
                || (Z.of_nat (length data) =? EphemeralForTestRecord.size old) = true).
    { destruct Ok as [->|[E _]]; [reflexivity|].
      rewrite E, Z.eqb_refl. apply orb_true_r. }
    rewrite G.
    assert (N : cappedAndNeedDelete s
                  (_data (afterReplace w loc old (EphemeralForTestRecord.ofBytes data)))
                = false).
    { destruct Ok as [NC|[E N]].
      - unfold cappedAndNeedDelete. now rewrite NC.
      - rewrite <- N. apply need_same_counts; simpl.
        + rewrite E. lia.
        + now apply (length_assign_present _ _ _ old). }
    rewrite cappedDeleteAsNeeded_eq, loop_unfold, N.
    eexists. split; [reflexivity|]. simpl.
    split; [|split; [|split; [|split]]]; try reflexivity.
    + unfold findRecord, bind, getData, ret. simpl.
      rewrite find_assign_same. reflexivity.
    + intros k Nk. now apply find_assign_other.
    + unfold numRecords, Map.size. simpl.
      now rewrite (length_assign_present _ _ _ old O Found).
Qed.

(** The test [Update1] on two records; and an update that changes the
    length in the capped store of 8 bytes. *)
Lemma update_then_find_witness :
  updateRecord capped8 2 payloadC cappedAfterAB = (InvariantFailed, cappedAfterAB)
  /\ exists w',
       updateRecord plainStore 1 payloadC twoRecordWorld = (Returned StatusOK, w')
       /\ findRecord 1 w' = (Returned (Some payloadC), w').
Proof.
  split.
  - apply (proj1 (update_then_find capped8 2 payloadC
                    (EphemeralForTestRecord.ofBytes payloadB) cappedAfterAB
                    ltac:(repeat constructor) eq_refl)).
    + reflexivity.
    + simpl. lia.
  - destruct (proj2 (update_then_find plainStore 1 payloadC
                       (EphemeralForTestRecord.ofBytes payloadA) twoRecordWorld
                       (proj1 (proj1 twoRecordWorld_wf)) eq_refl)
                (or_introl eq_refl)) as (w' & U & F & _).
    exists w'. split; [exact U | exact F].
Defined.

(* ------------------------------------------------------------------ *)
(** ** The allocator of ids *)

Section Allocator.

Variable extractKey : list byte -> StatusWith RecordId.t.
Variable s : Store.

Lemma adv_refl d : allocatorAdvances d d.
Proof. split; [lia | reflexivity]. Qed.

Lemma adv_trans d1 d2 d3 :
  allocatorAdvances d1 d2 -> allocatorAdvances d2 d3 -> allocatorAdvances d1 d3.
Proof. intros [L1 O1] [L2 O2]. split; [lia | congruence]. Qed.

Lemma adv_evicts ev w w' :
  evicts ev w w' -> allocatorAdvances (_data w) (_data w').
Proof. intros (_ & _ & N & O & _). split; [lia | exact O]. Qed.

Lemma cappedDeleteAsNeeded_adv w :
  allocatorAdvances (_data w) (_data (snd (cappedDeleteAsNeeded s w))).
Proof.
  destruct (cappedDeleteAsNeeded s w) as [r w'] eqn:E.
  apply cappedDeleteAsNeeded_shape in E as (ev & Ev & _).
  exact (adv_evicts _ _ _ Ev).
Qed.

Lemma finishInsert_adv loc data w :
  allocatorAdvances (_data w) (_data (snd (finishInsert s loc data w))).
Proof.
  unfold finishInsert.
  pose proof (cappedDeleteAsNeeded_adv
                (afterInsert w loc (EphemeralForTestRecord.ofBytes data))) as A.
  destruct (cappedDeleteAsNeeded s _) as [[ | | | ] w']; exact A.
Qed.

Lemma insertSingleFn_adv record w :
  allocatorAdvances (_data w) (_data (snd (insertSingleFn extractKey s record w))).
Proof.
  rewrite insertSingleFn_unfold.
  destruct (isOplog (_data w)).
  - destruct (extractAndCheckLocForOplog extractKey (_data w) (Rec.data record));
      [apply finishInsert_adv | apply adv_refl].
  - assert (B : allocatorAdvances (_data w) (_data (bumpNextId w)))
      by (split; simpl; [lia | reflexivity]).
    destruct (RecordId.isNormal (nextId (_data w))); [|exact B].
    exact (adv_trans _ _ _ B (finishInsert_adv _ _ _)).
Qed.

Lemma insertEach_adv batch : forall w,
  allocatorAdvances (_data w) (_data (snd (insertEach extractKey s batch w))).
Proof.
  induction batch as [|record rest IH]; intros w; [apply adv_refl|].
  rewrite insertEach_cons.
  pose proof (insertSingleFn_adv record w) as A1.
  destruct (insertSingleFn extractKey s record w) as [[[st out]| | | ] w1];
    simpl in A1; try exact A1.
  destruct st; [|exact A1].
  specialize (IH w1).
  destruct (insertEach extractKey s rest w1) as [[[st' outs]| | | ] w2];
    exact (adv_trans _ _ _ A1 IH).
Qed.

Lemma insertRecords_adv batch w :
  allocatorAdvances (_data w) (_data (snd (insertRecords extractKey s batch w))).
Proof.
  unfold insertRecords.
  destruct (existsb (exceedsCappedMaxSize s) batch); [apply adv_refl|].
  apply insertEach_adv.
Qed.

Lemma deleteRecord_adv loc w :
  allocatorAdvances (_data w) (_data (snd (deleteRecord loc w))).
Proof.
  unfold deleteRecord, recordFor, bind, getData, registerChange, modifyData,
    invariant, ret, Map.erase_count; simpl.
  destruct (Map.find loc (records (_data w))) as [old|] eqn:Found; simpl.
  - rewrite Found. simpl. split; simpl; [lia | reflexivity].
  - apply adv_refl.
Qed.

Lemma updateRecord_adv loc data w :
  allocatorAdvances (_data w) (_data (snd (updateRecord s loc data w))).
Proof.
  destruct (Map.find loc (records (_data w))) as [old|] eqn:Found.
  - rewrite (updateRecord_unfold s loc data w old Found).
    destruct (negb (_isCapped s) || _); [|apply adv_refl].
    pose proof (cappedDeleteAsNeeded_adv
                  (afterReplace w loc old (EphemeralForTestRecord.ofBytes data))) as A.
    destruct (cappedDeleteAsNeeded s _) as [[ | | | ] w']; exact A.
  - unfold updateRecord, recordFor, bind, getData, invariant, ret. simpl.
    rewrite Found. apply adv_refl.
Qed.

Lemma updateWithDamages_adv loc damageSource damages w :
  allocatorAdvances (_data w)
    (_data (snd (updateWithDamages s loc damageSource damages w))).
Proof.
  unfold updateWithDamages, recordFor.
  unfold bind at 1. unfold bind at 1. unfold getData at 1.
  destruct (Map.find loc (records (_data w))) as [old|] eqn:Found; [|apply adv_refl].
  unfold ret at 1.
  unfold bind at 1. unfold registerChange at 1.
  unfold bind at 1. unfold modifyData at 1. simpl _data. simpl _changes.
  unfold bind at 1.
  match goal with
  | |- context [cappedDeleteAsNeeded s ?w1] =>
      pose proof (cappedDeleteAsNeeded_adv w1) as A;
      destruct (cappedDeleteAsNeeded s w1) as [[ | | | ] w2]
  end; exact A.
Qed.

Lemma cappedTruncateAfter_loop_adv pending : forall w,
  allocatorAdvances (_data w) (_data (snd (cappedTruncateAfter_loop s pending w))).
Proof.
  induction pending as [|[id record] rest IH]; intros w; [apply adv_refl|].
  simpl. unfold bind at 1.
  destruct (_cappedCallback s) as [cb|]; unfold uassertStatusOK, ret, get.
  - unfold bind at 1.
    destruct (cb w id (EphemeralForTestRecord.toRecordData record)); [|apply adv_refl].
    unfold bind, registerChange, modifyData. simpl.
    match goal with |- context [cappedTruncateAfter_loop s rest ?w1] =>
      exact (IH w1) end.
  - unfold bind, registerChange, modifyData. simpl.
    match goal with |- context [cappedTruncateAfter_loop s rest ?w1] =>
      exact (IH w1) end.
Qed.

Lemma rollback_adv c d : allocatorAdvances d (snd (rollback c d)).
Proof.
  destruct c as [loc|loc rec|ds recs]; simpl; unfold bind, get, modify, ret;
    try destruct (Map.find loc (records d)); apply adv_refl || (split; simpl; [lia|reflexivity]).
Qed.

Lemma rollbackEach_adv cs : forall d, allocatorAdvances d (snd (rollbackEach cs d)).
Proof.
  induction cs as [|c cs IH]; intros d; [apply adv_refl|].
  simpl. unfold bind.
  pose proof (rollback_adv c d) as A.
  destruct (rollback_returns c d) as (c' & R).
  destruct (rollback c d) as [r d1]. simpl in *. subst r.
  exact (adv_trans _ _ _ A (IH d1)).
Qed.

Lemma step_adv w op :
  allocatorAdvances (_data w) (_data (step extractKey s w op)).
Proof.
  destruct op; simpl.
  - apply insertRecords_adv.
  - apply updateRecord_adv.
  - apply updateWithDamages_adv.
  - apply deleteRecord_adv.
  - unfold truncate, TruncateChange_swap. simpl. split; simpl; [lia | reflexivity].
  - unfold cappedTruncateAfter, bind, getData. apply cappedTruncateAfter_loop_adv.
  - apply adv_refl.
  - unfold abortUnitOfWork.
    pose proof (rollbackEach_adv (rev (_changes w)) (_data w)) as A.
    destruct (rollbackEach (rev (_changes w)) (_data w)) as [r d]. exact A.
Qed.

Lemma runOps_adv ops : forall w,
  allocatorAdvances (_data w) (_data (runOps extractKey s ops w)).
Proof.
  induction ops as [|op ops IH]; intros w; [apply adv_refl|].
  simpl. exact (adv_trans _ _ _ (step_adv w op) (IH _)).
Qed.

Lemma consecutiveIds_S first n :
  consecutiveIds first (S n) = first :: consecutiveIds (first + 1) n.
Proof.
  unfold consecutiveIds. simpl. rewrite Z.add_0_r. f_equal.
  rewrite <- seq_shift, map_map. apply map_ext. intros i. lia.
Qed.

Lemma In_consecutiveIds first n k : In k (consecutiveIds first n) -> first <= k.
Proof.
  unfold consecutiveIds. rewrite in_map_iff. intros (i & <- & _). lia.
Qed.

Lemma insertSingleFn_alloc record w out w' :
  isOplog (_data w) = false ->
  insertSingleFn extractKey s record w = (Returned (StatusOK, out), w') ->
  Rec.id out = nextId (_data w)
  /\ nextId (_data w') = nextId (_data w) + 1
  /\ isOplog (_data w') = false.
Proof.
  intros O. rewrite insertSingleFn_unfold, O.
  destruct (RecordId.isNormal (nextId (_data w))); [|discriminate].
  unfold finishInsert.
  destruct (cappedDeleteAsNeeded s _) as [r w1] eqn:E.
  apply cappedDeleteAsNeeded_shape in E as (ev & (_ & _ & N & I & _) & _).
  destruct r; try discriminate. intros H. injection H as Ho Hw. subst out w1.
  simpl in *. rewrite N, I. auto.
Qed.

Lemma insertEach_alloc batch : forall w outs w',
  isOplog (_data w) = false ->
  insertEach extractKey s batch w = (Returned (StatusOK, outs), w') ->
  map Rec.id outs = consecutiveIds (nextId (_data w)) (length batch)
  /\ nextId (_data w') = nextId (_data w) + Z.of_nat (length batch).
Proof.
  induction batch as [|record rest IH]; intros w outs w' O H.
  - inversion H; subst. split; [reflexivity | simpl; lia].
  - rewrite insertEach_cons in H.
    destruct (insertSingleFn extractKey s record w) as [[[st out]| | | ] w1] eqn:E1;
      try discriminate.
    destruct st; [|discriminate].
    destruct (insertSingleFn_alloc _ _ _ _ O E1) as (I1 & N1 & O1).
    destruct (insertEach extractKey s rest w1) as [[[st' outs']| | | ] w2] eqn:E2;
      try discriminate.
    injection H as Hs Ho Hw. subst st' outs w2.
    destruct (IH _ _ _ O1 E2) as (I2 & N2).
    split.
    + cbn [map length]. rewrite consecutiveIds_S, I1, I2, N1. reflexivity.
    + rewrite N2, N1. cbn [length]. lia.
Qed.

End Allocator.

(** X7.  In a store that allocates its ids (not an oplog) the records of a
    batch that [insertRecords] accepted get consecutive ids, starting at the
    value of the allocator before the call, whether or not records were
    evicted on the way; the allocator ends one above the last id. *)
Theorem insertRecords_allocates_consecutive_ids :
  forall (extractKey : list byte -> StatusWith RecordId.t) (s : Store)
         (batch outs : list Rec.t) (w w' : World),
    isOplog (_data w) = false ->
    insertRecords extractKey s batch w = (Returned (StatusOK, outs), w') ->
    map Rec.id outs = consecutiveIds (nextId (_data w)) (length batch)
    /\ nextId (_data w') = nextId (_data w) + Z.of_nat (length batch).
Proof.
  intros extractKey s batch outs w w' O H. unfold insertRecords in H.
  destruct (existsb (exceedsCappedMaxSize s) batch); [discriminate|].
  exact (insertEach_alloc extractKey s batch w outs w' O H).
Qed.

(** "A" and "B" into the capped store of 8 bytes that holds "C" under id 1:
    "C" and "A" are evicted, the ids are 2 and 3. *)
Lemma insertRecords_allocates_consecutive_ids_witness :
  map Rec.id [Rec.mk 2 payloadA; Rec.mk 3 payloadB] = consecutiveIds 2 2
  /\ nextId (_data (snd (insertRecords firstByteKey capped8
                           [Rec.mk 0 payloadA; Rec.mk 0 payloadB]
                           (Harness.insertCommitted payloadC (World_new false)))))
     = 2 + 2.
Proof.
  exact (insertRecords_allocates_consecutive_ids firstByteKey capped8
           [Rec.mk 0 payloadA; Rec.mk 0 payloadB] [Rec.mk 2 payloadA; Rec.mk 3 payloadB]
           (Harness.insertCommitted payloadC (World_new false)) _ eq_refl eq_refl).
Defined.

(** X8.  Ids are never used twice in a store that allocates its ids: an id
    that is in the map at some point of a history of calls (inserts,
    updates, deletes, truncations, commits, rollbacks) stays below the
    allocator for the rest of the history, and no later [insertRecords]
    hands it out again, even after the record was deleted, evicted or
    truncated away. *)
Theorem ids_are_never_reused :
  forall (extractKey : list byte -> StatusWith RecordId.t) (s : Store)
         (ops later : list Op) (w : World) (k : RecordId.t),
    wfWorld w ->
    isOplog (_data w) = false ->
    In k (Map.keys (records (_data (runOps extractKey s ops w)))) ->
    k < nextId (_data (runOps extractKey s (ops ++ later) w))
    /\ forall batch outs w',
         insertRecords extractKey s batch (runOps extractKey s (ops ++ later) w)
         = (Returned (StatusOK, outs), w') ->
         ~ In k (map Rec.id outs).
Proof.
  intros extractKey s ops later w k W O I.
  pose proof (runOps_wf extractKey s ops w W) as W1.
  destruct (runOps_adv extractKey s ops w) as [_ O1].
  assert (E : runOps extractKey s (ops ++ later) w
              = runOps extractKey s later (runOps extractKey s ops w))
    by (unfold runOps; apply fold_left_app).
  destruct (runOps_adv extractKey s later (runOps extractKey s ops w)) as [L2 O2].
  rewrite <- E in L2, O2.
  assert (K : k < nextId (_data (runOps extractKey s ops w))).
  { destruct W1 as [(_ & _ & F) _]. rewrite O1 in F. specialize (F O).
    rewrite Forall_forall in F. now apply F. }
  split; [lia|].
  intros batch outs w' H Ik. unfold insertRecords in H.
  destruct (existsb (exceedsCappedMaxSize s) batch); [discriminate|].
  assert (Of : isOplog (_data (runOps extractKey s (ops ++ later) w)) = false)
    by congruence.
  destruct (insertEach_alloc extractKey s batch _ outs w' Of H) as (Ids & _).
  rewrite Ids in Ik. apply In_consecutiveIds in Ik. lia.
Qed.

Lemma insertCommitted_wf data w : wfWorld w -> wfWorld (Harness.insertCommitted data w).
Proof.
  intros W. unfold Harness.insertCommitted.
  now apply commitUnitOfWork_wf, insertRecords_wf.
Qed.

(** Id 1 holds "C"; the history evicts and truncates it away. *)
Lemma ids_are_never_reused_witness :
  1 < nextId (_data (runOps firstByteKey capped8 ([] ++ mixedHistory)
                       (Harness.insertCommitted payloadC (World_new false)))).
Proof.
  exact (proj1 (ids_are_never_reused firstByteKey capped8 [] mixedHistory
                  (Harness.insertCommitted payloadC (World_new false)) 1
                  (insertCommitted_wf payloadC _ (wfWorld_new false)) eq_refl
                  (or_introl eq_refl))).
Defined.

(* ------------------------------------------------------------------ *)
(** ** The eviction loop on a consistent store *)

Section EvictionTotal.

Import MapFacts.

Variable s : Store.
Hypothesis valid : Store_valid s = true.

Lemma need_nonempty d :
  dataSize d = Map.sumSizes (records d) ->
  cappedAndNeedDelete s d = true ->
  records d <> [].
Proof.
  intros D N E. unfold cappedAndNeedDelete, numRecords, Map.size in N.
  unfold Store_valid in valid. rewrite E in *.
  change (Map.sumSizes []) with 0 in D. rewrite D in N. simpl in N.
  destruct (_isCapped s); simpl in N; [|discriminate].
  apply andb_true_iff in valid as [V1 V2].
  destruct (Z.ltb_spec 0 (_cappedMaxSize s)); [|discriminate].
  destruct (Z.gtb_spec 0 (_cappedMaxSize s)); [lia|].
  destruct (Z.eqb_spec (_cappedMaxDocs s) (-1)); simpl in *; [discriminate|].
  destruct (Z.ltb_spec 0 (_cappedMaxDocs s)); [|discriminate].
  destruct (Z.gtb_spec 0 (_cappedMaxDocs s)); [lia | discriminate].
Qed.

Lemma loop_total fuel : forall w,
  dataSize (_data w) = Map.sumSizes (records (_data w)) ->
  (length (records (_data w)) < fuel)%nat ->
  (exists w', cappedDeleteAsNeeded_loop s fuel w = (Returned tt, w'))
  \/ (exists cb id oldest tl c e w',
        cappedDeleteAsNeeded_loop s fuel w = (Thrown (StatusError c e), w')
        /\ _cappedCallback s = Some cb
        /\ records (_data w') = (id, oldest) :: tl
        /\ cb w' id (EphemeralForTestRecord.toRecordData oldest) = StatusError c e).
Proof.
  induction fuel as [|fuel IH]; intros w D L; [lia|].
  rewrite loop_unfold.
  destruct (cappedAndNeedDelete s (_data w)) eqn:N; [|left; eauto].
  pose proof (need_nonempty _ D N) as NE.
  destruct (records (_data w)) as [|[id oldest] tl] eqn:E; [contradiction|].
  assert (K : dataSize (_data (afterDeleteOldest w id oldest tl))
              = Map.sumSizes (records (_data (afterDeleteOldest w id oldest tl)))
              /\ (length (records (_data (afterDeleteOldest w id oldest tl))) < fuel)%nat).
  { simpl. rewrite D, sumSizes_cons. simpl in *. split; lia. }
  destruct K as [D' L'].
  destruct (_cappedCallback s) as [cb|] eqn:Cb; [|exact (IH _ D' L')].
  destruct (cb w id (EphemeralForTestRecord.toRecordData oldest)) as [|c e] eqn:Ans;
    [exact (IH _ D' L')|].
  right. exists cb, id, oldest, tl, c, e, w. auto.
Qed.

Lemma loop_accepts fuel : forall w w' st,
  callbackAccepts s ->
  cappedDeleteAsNeeded_loop s fuel w <> (Thrown st, w').
Proof.
  unfold callbackAccepts.
  induction fuel as [|fuel IH]; intros w w' st A; rewrite loop_unfold.
  - destruct (cappedAndNeedDelete s (_data w)); discriminate.
  - destruct (cappedAndNeedDelete s (_data w)); [|discriminate].
    destruct (records (_data w)) as [|[id oldest] tl]; [discriminate|].
    destruct (_cappedCallback s) as [cb|]; [|now apply IH].
    rewrite A. now apply IH.
Qed.

End EvictionTotal.

(** X9.  On a store the constructor accepts, whose byte counter is the sum
    of the sizes of its records, [cappedDeleteAsNeeded] never fails its
    invariant and its loop ends.  It deletes records one by one, each one
    only in a world where [cappedAndNeedDelete] holds, each one the record
    with the lowest key of that world, each one after the callback of the
    store, if any, answered OK for it: with nothing to evict it returns and
    changes nothing.  Either it returns, and then the test fails and the map
    is what is left when the oldest record is deleted while the store is
    over its bounds; or the callback turned a deletion down: then the status
    of the callback is thrown, the test still holds, the record the callback
    was asked about is still the oldest one in the map, and the records
    before it stay deleted.  With a callback that lets every deletion
    through, or none, the call returns. *)
Theorem eviction_returns_or_is_vetoed :
  forall (s : Store) (w : World),
    Store_valid s = true ->
    dataSize (_data w) = Map.sumSizes (records (_data w)) ->
    exists r w' evicted,
      cappedDeleteAsNeeded s w = (r, w')
      /\ evictsWhileNeeded s evicted w w'
      /\ evicts evicted w w'
      /\ (r = Returned tt
          /\ cappedAndNeedDelete s (_data w') = false
          /\ records (_data w') = evictOldest s (records (_data w))
          \/ exists cb id oldest tl c e,
               r = Thrown (StatusError c e)
               /\ cappedAndNeedDelete s (_data w') = true
               /\ _cappedCallback s = Some cb
               /\ records (_data w') = (id, oldest) :: tl
               /\ cb w' id (EphemeralForTestRecord.toRecordData oldest)
                  = StatusError c e)
      /\ (callbackAccepts s -> r = Returned tt)
      /\ (cappedAndNeedDelete s (_data w) = false ->
          r = Returned tt /\ evicted = [] /\ w' = w).
Proof.
  intros s w V D.
  destruct (cappedDeleteAsNeeded s w) as [r w'] eqn:E.
  destruct (cappedDeleteAsNeeded_minimal s w r w' E) as (ev & Ev & Done & Veto).
  exists r, w', ev. split; [reflexivity|]. split; [exact Ev|].
  split; [exact (evictsWhileNeeded_evicts s _ _ _ Ev)|].
  rewrite cappedDeleteAsNeeded_eq in E.
  destruct (loop_total s V (S (length (records (_data w)))) w D (Nat.lt_succ_diag_r _))
    as [(w1 & R)|(cb & id & oldest & tl & c & e & w1 & R & Cb & Rs & Ans)];
    rewrite R in E; injection E as Er Ew; subst r w1.
  - split; [|split; [reflexivity|]].
    + left. split; [reflexivity|]. split; [now apply Done|].
      apply (evictsWhileNeeded_evictOldest s _ _ _ Ev D). now apply Done.
    + intros N. destruct (evictsWhileNeeded_none s _ _ _ Ev N) as [-> ->]. auto.
  - destruct (Veto _ eq_refl) as (N' & _).
    split; [right; exists cb, id, oldest, tl, c, e; auto|]. split.
    + intros A. exfalso. exact (loop_accepts s _ _ _ _ A R).
    + intros N. destruct (evictsWhileNeeded_none s _ _ _ Ev N) as [_ ->]. congruence.
Qed.

(** The capped store of 8 bytes holding "B", right after "A" was put into
    the map under id 3: 10 bytes, "B" has to go, and "A" stays. *)
Lemma eviction_returns_or_is_vetoed_witness :
  exists r w' evicted,
    cappedDeleteAsNeeded capped8
      (afterInsert cappedAfterAB 3 (EphemeralForTestRecord.ofBytes payloadA)) = (r, w')
    /\ evictsWhileNeeded capped8 evicted
         (afterInsert cappedAfterAB 3 (EphemeralForTestRecord.ofBytes payloadA)) w'
    /\ evicts evicted
         (afterInsert cappedAfterAB 3 (EphemeralForTestRecord.ofBytes payloadA)) w'
    /\ (r = Returned tt
        /\ cappedAndNeedDelete capped8 (_data w') = false
        /\ records (_data w')
           = evictOldest capped8
               (records (_data (afterInsert cappedAfterAB 3
                                  (EphemeralForTestRecord.ofBytes payloadA))))
        \/ exists cb id oldest tl c e,
             r = Thrown (StatusError c e)
             /\ cappedAndNeedDelete capped8 (_data w') = true
             /\ _cappedCallback capped8 = Some cb
             /\ records (_data w') = (id, oldest) :: tl
             /\ cb w' id (EphemeralForTestRecord.toRecordData oldest)
                = StatusError c e)
    /\ (callbackAccepts capped8 -> r = Returned tt)
    /\ (cappedAndNeedDelete capped8
          (_data (afterInsert cappedAfterAB 3 (EphemeralForTestRecord.ofBytes payloadA)))
        = false ->
        r = Returned tt /\ evicted = []
        /\ w' = afterInsert cappedAfterAB 3 (EphemeralForTestRecord.ofBytes payloadA)).
Proof.
  apply (eviction_returns_or_is_vetoed capped8
           (afterInsert cappedAfterAB 3 (EphemeralForTestRecord.ofBytes payloadA)));
    reflexivity.
Defined.

Section InsertSucceeds.

Import MapFacts.

Variable extractKey : list byte -> StatusWith RecordId.t.
Variable s : Store.
Hypothesis valid : Store_valid s = true.
Hypothesis accepts : callbackAccepts s.

Lemma cappedDeleteAsNeeded_returns w :
  dataSize (_data w) = Map.sumSizes (records (_data w)) ->
  exists w', cappedDeleteAsNeeded s w = (Returned tt, w').
Proof.
  intros D. rewrite cappedDeleteAsNeeded_eq.
  destruct (loop_total s valid (S (length (records (_data w)))) w D
              (Nat.lt_succ_diag_r _))
    as [R|(cb & id & oldest & tl & c & e & w1 & R & _)]; [exact R|].
  exfalso. exact (loop_accepts s _ _ _ _ accepts R).
Qed.

Lemma insertSingleFn_succeeds record w :
  wfWorld w ->
  isOplog (_data w) = false ->
  RecordId.isNormal (nextId (_data w)) = true ->
  exists w',
    insertSingleFn extractKey s record w
    = (Returned (StatusOK, Rec.mk (nextId (_data w)) (Rec.data record)), w').
Proof.
  intros W O N. rewrite insertSingleFn_unfold, O, N. unfold finishInsert.
  assert (W1 : wfWorld (afterInsert (bumpNextId w) (nextId (_data w))
                          (EphemeralForTestRecord.ofBytes (Rec.data record)))).
  { apply wfWorld_afterInsert.
    - now apply wfWorld_bumpNextId.
    - simpl. now apply fresh_nextId.
    - simpl. lia. }
  destruct (cappedDeleteAsNeeded_returns _ (proj1 (proj2 (proj1 W1)))) as (w' & R).
  rewrite R. eauto.
Qed.

Lemma insertEach_succeeds batch : forall w,
  wfWorld w ->
  isOplog (_data w) = false ->
  0 < nextId (_data w) ->
  nextId (_data w) + Z.of_nat (length batch) <= RecordId.kMaxRepr ->
  exists outs w', insertEach extractKey s batch w = (Returned (StatusOK, outs), w').
Proof.
  induction batch as [|record rest IH]; intros w W O P B.
  - exists [], w. reflexivity.
  - cbn [length] in B.
    assert (N : RecordId.isNormal (nextId (_data w)) = true).
    { unfold RecordId.isNormal. apply andb_true_iff. split.
      - apply Z.ltb_lt. lia.
      - apply Z.ltb_lt. lia. }
    destruct (insertSingleFn_succeeds record w W O N) as (w1 & E1).
    pose proof (insertSingleFn_wf extractKey s record w W) as W1.
    rewrite E1 in W1. simpl in W1.
    destruct (insertSingleFn_alloc extractKey s record w _ w1 O E1) as (_ & N1 & O1).
    destruct (IH w1 W1 O1 ltac:(lia) ltac:(lia)) as (outs & w' & E2).
    rewrite insertEach_cons, E1, E2. eauto.
Qed.

End InsertSucceeds.

(** X10.  A store that allocates its ids (not an oplog) turns no record
    down once the sizes passed the check against [cappedMaxSize]: on a store
    the constructor accepts, with a callback that lets every deletion
    through, [insertRecords] returns OK for the whole batch as long as the
    allocator stays within the normal ids.  When the allocator is not a
    normal id, the first insert fails the invariant of [allocateLoc]:
    nothing was put into the map, the byte counter is as before and no
    change was registered. *)
Theorem insert_succeeds_while_ids_remain :
  forall (extractKey : list byte -> StatusWith RecordId.t) (s : Store)
         (batch : list Rec.t) (w : World),
    isOplog (_data w) = false ->
    existsb (exceedsCappedMaxSize s) batch = false ->
    (Store_valid s = true -> callbackAccepts s -> wfWorld w ->
     0 < nextId (_data w) ->
     nextId (_data w) + Z.of_nat (length batch) <= RecordId.kMaxRepr ->
     exists outs w',
       insertRecords extractKey s batch w = (Returned (StatusOK, outs), w'))
    /\ (batch <> [] -> RecordId.isNormal (nextId (_data w)) = false ->
        fst (insertRecords extractKey s batch w) = InvariantFailed
        /\ records (_data (snd (insertRecords extractKey s batch w)))
           = records (_data w)
        /\ dataSize (_data (snd (insertRecords extractKey s batch w)))
           = dataSize (_data w)
        /\ _changes (snd (insertRecords extractKey s batch w)) = _changes w).
Proof.
  intros extractKey s batch w O Fit. unfold insertRecords. rewrite Fit. split.
  - intros V A W P B. exact (insertEach_succeeds extractKey s V A batch w W O P B).
  - intros NE N. destruct batch as [|record rest]; [contradiction|].
    rewrite insertEach_cons, insertSingleFn_unfold, O, N. simpl. auto.
Qed.

(** "A" and a record of 8 bytes into the capped store of 8 bytes that holds
    "B"; and an insert when the allocator has reached the largest id, which
    is not a normal one. *)
Lemma insert_succeeds_while_ids_remain_witness :
  (exists outs w',
     insertRecords firstByteKey capped8 [Rec.mk 0 payloadA; Rec.mk 0 payload8]
       cappedAfterAB = (Returned (StatusOK, outs), w'))
  /\ fst (insertRecords firstByteKey plainStore [Rec.mk 0 payloadA]
            (mkWorld (mkData twoRecords 10 RecordId.kMaxRepr false) []))
     = InvariantFailed
  /\ records (_data (snd (insertRecords firstByteKey plainStore [Rec.mk 0 payloadA]
                            (mkWorld (mkData twoRecords 10 RecordId.kMaxRepr false) []))))
     = twoRecords.
Proof.
  split.
  - apply (proj1 (insert_succeeds_while_ids_remain firstByteKey capped8
                    [Rec.mk 0 payloadA; Rec.mk 0 payload8] cappedAfterAB
                    eq_refl eq_refl)).
    + reflexivity.
    + exact I.
    + exact cappedAfterAB_wf.
    + simpl. lia.
    + unfold RecordId.kMaxRepr. simpl. lia.
  - destruct (proj2 (insert_succeeds_while_ids_remain firstByteKey plainStore
                       [Rec.mk 0 payloadA]
                       (mkWorld (mkData twoRecords 10 RecordId.kMaxRepr false) [])
                       eq_refl eq_refl)
                ltac:(discriminate) eq_refl) as (F & R & _).
    split; [exact F | exact R].
Defined.

(* ------------------------------------------------------------------ *)
(** ** Truncating a capped store from a bound on *)

Section TruncateAfter.

Import MapFacts.

Variable s : Store.
Hypothesis accepts : callbackAccepts s.

Lemma find_filter (Q : RecordId.t -> bool) k m :
  Map.find k (filter (fun p => Q (fst p)) m) = if Q k then Map.find k m else None.
Proof.
  induction m as [|[k' v] m IH]; simpl; [now destruct (Q k)|].
  destruct (Q k') eqn:Qk'; simpl.
  - destruct (Z.eqb_spec k' k) as [->|N]; [now rewrite Qk' | exact IH].
  - destruct (Z.eqb_spec k' k) as [->|N]; [|exact IH].
    rewrite IH, Qk'. reflexivity.
Qed.

Lemma filter_none {A : Type} (P : A -> bool) (l : list A) :
  Forall (fun x => P x = false) l -> filter P l = [].
Proof.
  induction 1 as [|x l Px F IH]; simpl; [reflexivity|]. now rewrite Px.
Qed.

(** In an ordered map the nodes below a bound are a prefix, the others the
    suffix. *)
Lemma split_at_bound (endId : RecordId.t) (inclusive : bool) m :
  Map.ordered m ->
  filter (fun p => negb (if inclusive then endId <=? fst p else endId <? fst p)) m
  ++ filter (fun p => if inclusive then endId <=? fst p else endId <? fst p) m
  = m.
Proof.
  induction m as [|[k v] m IH]; intros O; [reflexivity|].
  pose proof (ordered_inv _ _ _ O) as [Om F].
  simpl filter. simpl fst.
  destruct (if inclusive then endId <=? k else endId <? k) eqn:P; simpl.
  - assert (All : Forall (fun p : RecordId.t * EFTRecord =>
                    (if inclusive then endId <=? fst p else endId <? fst p) = true) m).
    { unfold Map.keys in F. rewrite Forall_map in F.
      eapply Forall_impl; [|exact F]. simpl. intros [k' v'] L. simpl in *.
      destruct inclusive.
      + apply Z.leb_le in P. apply Z.leb_le. lia.
      + apply Z.ltb_lt in P. apply Z.ltb_lt. lia. }
    rewrite (filter_all _ _ All), filter_none; [reflexivity|].
    eapply Forall_impl; [|exact All]. simpl. intros p ->. reflexivity.
  - f_equal. exact (IH Om).
Qed.

Lemma cappedTruncateAfter_loop_accepted pending : forall w keep,
  records (_data w) = keep ++ pending ->
  Map.ordered (records (_data w)) ->
  cappedTruncateAfter_loop s pending w
  = (Returned tt,
     {| _data := set_records keep
                   (set_dataSize (dataSize (_data w) - Map.sumSizes pending) (_data w));
        _changes := _changes w ++ map removeChangeOf pending |}).
Proof.
  induction pending as [|[id record] rest IH]; intros w keep R O.
  - simpl. unfold ret. f_equal. destruct w as [[m ds nid op] cs]. simpl in *.
    rewrite app_nil_r in *. subst m. unfold set_records, set_dataSize. simpl.
    change (Map.sumSizes []) with 0. now rewrite Z.sub_0_r.
  - assert (K : forall w1,
              w1 = {| _data :=
                        set_records (Map.erase id (records (_data w)))
                          (set_dataSize
                             (dataSize (_data w) - EphemeralForTestRecord.size record)
                             (_data w));
                      _changes := _changes w ++ [RemoveChange id record] |} ->
              cappedTruncateAfter_loop s rest w1
              = (Returned tt,
                 {| _data := set_records keep
                               (set_dataSize
                                  (dataSize (_data w)
                                   - Map.sumSizes ((id, record) :: rest)) (_data w));
                    _changes := _changes w ++ map removeChangeOf ((id, record) :: rest) |})).
    { intros w1 ->. rewrite (IH _ keep).
      - simpl. unfold set_records, set_dataSize. simpl.
        rewrite sumSizes_cons, <- app_assoc. simpl.
        f_equal. f_equal. f_equal. lia.
      - simpl. rewrite R. apply erase_middle. now rewrite <- R.
      - simpl. now apply ordered_erase. }
    simpl. unfold bind at 1. unfold callbackAccepts in accepts.
    destruct (_cappedCallback s) as [cb|]; unfold uassertStatusOK, ret, get.
    + unfold bind at 1. rewrite accepts.
      unfold bind, registerChange, modifyData. simpl. now apply K.
    + unfold bind, registerChange, modifyData. simpl. now apply K.
Qed.

End TruncateAfter.

(** X11.  [cappedTruncateAfter(end, inclusive)] on an ordered map, with a
    callback that lets every deletion through or none: the call returns;
    afterwards exactly the ids below [end] (and [end] itself when the call is
    not inclusive) are found, with their records as before; the byte counter
    went down by the sizes of the removed records, and one [RemoveChange] per
    removed record was registered, in ascending order of the ids. *)
Theorem cappedTruncateAfter_removes_from_bound :
  forall (s : Store) (endId : RecordId.t) (inclusive : bool) (w : World),
    Map.ordered (records (_data w)) ->
    callbackAccepts s ->
    exists w' removed,
      cappedTruncateAfter s endId inclusive w = (Returned tt, w')
      /\ records (_data w') ++ removed = records (_data w)
      /\ Forall (fun k => if inclusive then endId <= k else endId < k) (Map.keys removed)
      /\ (forall k,
            Map.find k (records (_data w'))
            = if (if inclusive then endId <=? k else endId <? k)
              then None else Map.find k (records (_data w)))
      /\ dataSize (_data w') = dataSize (_data w) - Map.sumSizes removed
      /\ nextId (_data w') = nextId (_data w)
      /\ _changes w' = _changes w ++ map removeChangeOf removed.
Proof.
  intros s endId inclusive w O A.
  pose proof (split_at_bound endId inclusive _ O) as Sp.
  unfold cappedTruncateAfter, bind, getData.
  rewrite (cappedTruncateAfter_loop_accepted s A _ w _ (eq_sym Sp) O).
  eexists. eexists. split; [reflexivity|]. simpl.
  split; [exact Sp|]. split; [|split; [|split; [|split]]]; try reflexivity.
  - unfold Map.keys. rewrite Forall_map. apply Forall_forall.
    intros [k v] I. apply filter_In in I as [_ P]. simpl in *.
    destruct inclusive; [now apply Z.leb_le | now apply Z.ltb_lt].
  - intros k.
    rewrite (find_filter
               (fun k => negb (if inclusive then endId <=? k else endId <? k))).
    now destruct (if inclusive then endId <=? k else endId <? k).
Qed.

(** The map with the keys 1, 2 and 4, truncated after 2, 2 included. *)
Lemma cappedTruncateAfter_removes_from_bound_witness :
  exists w' removed,
    cappedTruncateAfter capped8 2 true (mkWorld (mkData gapRecords 13 5 false) [])
    = (Returned tt, w')
    /\ records (_data w') ++ removed = gapRecords
    /\ Forall (fun k => 2 <= k) (Map.keys removed)
    /\ (forall k,
          Map.find k (records (_data w'))
          = if 2 <=? k then None else Map.find k gapRecords)
    /\ dataSize (_data w') = 13 - Map.sumSizes removed
    /\ nextId (_data w') = 5
    /\ _changes w' = [] ++ map removeChangeOf removed.
Proof.
  exact (cappedTruncateAfter_removes_from_bound capped8 2 true
           (mkWorld (mkData gapRecords 13 5 false) []) gapRecords_ordered I).
Defined.

(* ------------------------------------------------------------------ *)
(** ** Cursors: a full scan *)

Section Scan.

Import MapFacts.

Lemma upper_bound_next pre k v post :
  Map.ordered (pre ++ (k, v) :: post) ->
  Map.upper_bound k (pre ++ (k, v) :: post) = Map.begin post.
Proof.
  induction pre as [|[k' v'] pre IH]; simpl; intros O.
  - rewrite Z.ltb_irrefl. destruct post as [|[k2 v2] post]; [reflexivity|].
    apply ordered_inv in O as [_ F]. inversion F as [|? ? L _]; subst. simpl.
    destruct (Z.ltb_spec k k2); [reflexivity | lia].
  - pose proof (ordered_inv _ _ _ O) as [O' F]. rewrite Forall_forall in F.
    assert (k' < k).
    { apply F. unfold Map.keys. rewrite map_app. apply in_or_app. right. now left. }
    destruct (Z.ltb_spec k k'); [lia|]. now apply IH.
Qed.

Lemma below_prev pre k0 v0 k v post :
  Map.ordered (pre ++ (k0, v0) :: (k, v) :: post) ->
  Map.below k (pre ++ (k0, v0) :: (k, v) :: post) = Some k0.
Proof.
  induction pre as [|[k' v'] pre IH]; simpl; intros O.
  - apply ordered_inv in O as [_ F]. inversion F as [|? ? L _]; subst.
    destruct (Z.ltb_spec k0 k); [|lia]. now rewrite Z.ltb_irrefl.
  - pose proof (ordered_inv _ _ _ O) as [O' F]. rewrite Forall_forall in F.
    assert (k' < k).
    { apply F. unfold Map.keys. rewrite map_app. apply in_or_app. right.
      right. now left. }
    destruct (Z.ltb_spec k' k); [|lia]. now rewrite IH.
Qed.

Lemma find_middle pre k v post :
  Map.ordered (pre ++ (k, v) :: post) ->
  Map.find k (pre ++ (k, v) :: post) = Some v.
Proof.
  intros O. apply find_suffix; [exact O|]. simpl. now rewrite Z.eqb_refl.
Qed.

Lemma Cursor_nexts_at_end m n : forall c,
  Cursor._it c = None -> Cursor._needFirstSeek c = false ->
  Cursor_nexts c (repeat m n) = repeat None n.
Proof.
  induction n as [|n IH]; intros c It NF; simpl; [reflexivity|].
  destruct c as [it nfs lmr sid cap]. simpl in It, NF. subst it nfs.
  unfold Cursor.next. simpl. rewrite andb_false_r. simpl.
  f_equal. apply IH; reflexivity.
Qed.

Lemma ReverseCursor_nexts_at_end m n : forall c,
  ReverseCursor._it c = Map.begin m -> ReverseCursor._needFirstSeek c = false ->
  ReverseCursor_nexts c (repeat m n) = repeat None n.
Proof.
  induction n as [|n IH]; intros c It NF; simpl; [reflexivity|].
  destruct c as [it nfs lmr sid cap]. simpl in It, NF. subst it nfs.
  unfold ReverseCursor.next. simpl.
  unfold ReverseCursor.is_rend. rewrite iterator_eqb_refl. simpl.
  rewrite andb_false_r. simpl. rewrite iterator_eqb_refl.
  f_equal. apply IH; reflexivity.
Qed.

(** A forward cursor on the node [k] returns the nodes after it, then
    nothing. *)
Lemma Cursor_nexts_from post : forall m pre k v c n,
  m = pre ++ (k, v) :: post ->
  Map.ordered m ->
  Cursor._it c = Some k ->
  Cursor._needFirstSeek c = false ->
  Cursor._lastMoveWasRestore c = false ->
  Cursor_nexts c (repeat m (length post + n))
  = map (fun p => Some (recordAt p)) post ++ repeat None n.
Proof.
  induction post as [|[k2 v2] post IH]; intros m pre k v c n E O It NF LR;
    destruct c as [it nfs lmr sid cap]; simpl in It, NF, LR; subst it nfs lmr.
  - simpl. destruct n as [|n]; [reflexivity|]. simpl.
    assert (U : Map.upper_bound k m = None).
    { rewrite E. rewrite upper_bound_next by (rewrite <- E; exact O). reflexivity. }
    unfold Cursor.next. simpl. rewrite U. simpl.
    f_equal. apply Cursor_nexts_at_end; reflexivity.
  - cbn [length Nat.add repeat Cursor_nexts map app].
    assert (U : Map.upper_bound k m = Some k2).
    { rewrite E. rewrite upper_bound_next by (rewrite <- E; exact O). reflexivity. }
    assert (E' : m = (pre ++ [(k, v)]) ++ (k2, v2) :: post)
      by (rewrite <- app_assoc; exact E).
    assert (F : Map.find k2 m = Some v2).
    { rewrite E'. apply find_middle. rewrite <- E'. exact O. }
    unfold Cursor.next. simpl. rewrite U. simpl. rewrite F. f_equal.
    apply (IH m (pre ++ [(k, v)]) k2 v2); auto.
Qed.

(** A reverse cursor on the node [k] returns the nodes before it, last one
    first, then nothing. *)
Lemma ReverseCursor_nexts_from pre : forall m k v post c n,
  m = pre ++ (k, v) :: post ->
  Map.ordered m ->
  ReverseCursor._it c = Map.begin post ->
  ReverseCursor._needFirstSeek c = false ->
  ReverseCursor._lastMoveWasRestore c = false ->
  ReverseCursor_nexts c (repeat m (length pre + n))
  = map (fun p => Some (recordAt p)) (rev pre) ++ repeat None n.
Proof.
  induction pre as [|[k0 v0] pre IH] using rev_ind;
    intros m k v post c n E O It NF LR;
    destruct c as [it nfs lmr sid cap]; simpl in It, NF, LR; subst it nfs lmr.
  - (* [k] is the first node: the next call reaches [rend()] *)
    simpl in E. simpl. destruct n as [|n]; [reflexivity|].
    assert (D : Map.decr (Map.begin post) m = Some k).
    { destruct post as [|[k2 v2] post]; simpl.
      - rewrite E. reflexivity.
      - rewrite E. exact (below_prev [] k v k2 v2 post ltac:(rewrite <- E; exact O)). }
    assert (NR : ReverseCursor.is_rend (Map.begin post) m = false).
    { unfold ReverseCursor.is_rend. rewrite E. simpl.
      destruct post as [|[k2 v2] post]; simpl; [reflexivity|].
      rewrite E in O. apply ordered_inv in O as [_ F].
      inversion F as [|? ? L _]; subst. apply Z.eqb_neq. lia. }
    cbn [repeat ReverseCursor_nexts]. unfold ReverseCursor.next. simpl.
    rewrite NR. simpl. rewrite D.
    assert (R : ReverseCursor.is_rend (Some k) m = true).
    { unfold ReverseCursor.is_rend. rewrite E. simpl. apply Z.eqb_refl. }
    rewrite R. simpl. f_equal.
    apply ReverseCursor_nexts_at_end; [|reflexivity].
    simpl. rewrite E. reflexivity.
  - rewrite length_app, rev_app_distr. cbn [length rev app Nat.add map].
    replace (length pre + 1 + n)%nat with (S (length pre + n)) by lia.
    assert (E' : m = pre ++ (k0, v0) :: (k, v) :: post)
      by (rewrite E, <- app_assoc; reflexivity).
    assert (D : Map.decr (Map.begin post) m = Some k).
    { destruct post as [|[k2 v2] post]; simpl.
      - rewrite E. apply last_key_app.
      - rewrite E. apply below_prev. rewrite <- E. exact O. }
    assert (H0 : exists h tl, m = h :: tl /\ fst h < k).
    { rewrite E' in O |- *. destruct pre as [|[a b] pre]; simpl in *.
      - exists (k0, v0), ((k, v) :: post). split; [reflexivity|].
        apply ordered_inv in O as [_ F]. inversion F; subst. assumption.
      - exists (a, b), (pre ++ (k0, v0) :: (k, v) :: post). split; [reflexivity|].
        apply ordered_inv in O as [_ F]. rewrite Forall_forall in F. apply F.
        unfold Map.keys. rewrite map_app. apply in_or_app. right. right. now left. }
    destruct H0 as ([h hv] & tl & Em & Lh). simpl in Lh.
    assert (NR : ReverseCursor.is_rend (Map.begin post) m = false).
    { unfold ReverseCursor.is_rend. rewrite Em. simpl.
      destruct post as [|[k2 v2] post]; simpl; [reflexivity|].
      rewrite E' in O. apply ordered_app_r in O.
      apply ordered_inv in O as [O _]. apply ordered_inv in O as [_ F].
      inversion F as [|? ? L _]; subst. apply Z.eqb_neq. lia. }
    assert (NR' : ReverseCursor.is_rend (Some k) m = false).
    { unfold ReverseCursor.is_rend. rewrite Em. simpl. apply Z.eqb_neq. lia. }
    assert (P : Map.below k m = Some k0).
    { rewrite E'. apply below_prev. rewrite <- E'. exact O. }
    assert (F0 : Map.find k0 m = Some v0).
    { rewrite E'. apply find_middle. rewrite <- E'. exact O. }
    cbn [repeat ReverseCursor_nexts]. unfold ReverseCursor.next. simpl.
    rewrite NR. simpl. rewrite D, NR'.
    unfold ReverseCursor.rderef, ReverseCursor.key_of. simpl.
    rewrite P. simpl. rewrite F0. f_equal.
    apply (IH m k0 v0 ((k, v) :: post)); auto.
Qed.

End Scan.

(** X12.  A forward cursor over a map that does not change returns every
    record once, in ascending order of the ids, and then nothing, however
    often [next()] is called again. *)
Theorem forward_scan_returns_every_record :
  forall (isCapped : bool) (m : Records) (n : nat),
    Map.ordered m ->
    Cursor_nexts (Cursor.new isCapped) (repeat m (length m + n))
    = map (fun p => Some (recordAt p)) m ++ repeat None n.
Proof.
  intros cap m n O. destruct m as [|[k v] post].
  - simpl. destruct n as [|n]; [reflexivity|]. simpl. f_equal.
    apply Cursor_nexts_at_end; reflexivity.
  - cbn [length Nat.add repeat Cursor_nexts map app].
    unfold Cursor.next at 1 2. simpl. rewrite Z.eqb_refl. f_equal.
    apply (Cursor_nexts_from post ((k, v) :: post) [] k v); auto.
Qed.

Lemma forward_scan_returns_every_record_witness :
  Cursor_nexts (Cursor.new true) (repeat gapRecords (3 + 2))
  = map (fun p => Some (recordAt p)) gapRecords ++ repeat None 2.
Proof.
  exact (forward_scan_returns_every_record true gapRecords 2 gapRecords_ordered).
Defined.

(** X13.  A reverse cursor over a map that does not change returns every
    record once, in descending order of the ids, and then nothing, however
    often [next()] is called again. *)
Theorem reverse_scan_returns_every_record :
  forall (isCapped : bool) (m : Records) (n : nat),
    Map.ordered m ->
    ReverseCursor_nexts (ReverseCursor.new isCapped) (repeat m (length m + n))
    = map (fun p => Some (recordAt p)) (rev m) ++ repeat None n.
Proof.
  intros cap m n O. destruct m as [|p0 m0] using rev_ind.
  - simpl. destruct n as [|n]; [reflexivity|]. simpl. f_equal.
    apply ReverseCursor_nexts_at_end; reflexivity.
  - clear IHm0. destruct p0 as [k v].
    rewrite length_app, rev_app_distr. cbn [length rev app Nat.add map].
    replace (length m0 + 1 + n)%nat with (S (length m0 + n)) by lia.
    cbn [repeat ReverseCursor_nexts].
    assert (F : Map.find k (m0 ++ [(k, v)]) = Some v) by now apply find_middle.
    unfold ReverseCursor.next at 1 2. simpl.
    destruct (Map.begin (m0 ++ [(k, v)])) as [h|] eqn:B;
      [|destruct m0 as [|[a b] m0]; discriminate].
    unfold ReverseCursor.rderef, ReverseCursor.key_of. simpl.
    rewrite MapFacts.last_key_app. simpl. rewrite F. f_equal.
    apply (ReverseCursor_nexts_from m0 (m0 ++ [(k, v)]) k v []); auto.
Qed.

Lemma reverse_scan_returns_every_record_witness :
  ReverseCursor_nexts (ReverseCursor.new true) (repeat gapRecords (3 + 2))
  = map (fun p => Some (recordAt p)) (rev gapRecords) ++ repeat None 2.
Proof.
  exact (reverse_scan_returns_every_record true gapRecords 2 gapRecords_ordered).
Defined.

(* ------------------------------------------------------------------ *)
(** ** Cursors: positioning on a record *)

Section Positioned.

Import MapFacts.

Lemma decr_begin_post pre k v post :
  Map.ordered (pre ++ (k, v) :: post) ->
  Map.decr (Map.begin post) (pre ++ (k, v) :: post) = Some k.
Proof.
  intros O. destruct post as [|[k2 v2] post]; simpl.
  - apply last_key_app.
  - now apply below_prev.
Qed.

Lemma is_rend_begin_post pre k v post :
  Map.ordered (pre ++ (k, v) :: post) ->
  ReverseCursor.is_rend (Map.begin post) (pre ++ (k, v) :: post) = false.
Proof.
  intros O. unfold ReverseCursor.is_rend.
  assert (H : exists h, Map.begin (pre ++ (k, v) :: post) = Some h /\ h <= k).
  { destruct pre as [|[a b] pre]; simpl.
    - exists k. split; [reflexivity | lia].
    - exists a. split; [reflexivity|]. simpl in O.
      apply ordered_inv in O as [_ F]. rewrite Forall_forall in F.
      assert (a < k); [|lia].
      apply F. unfold Map.keys. rewrite map_app. apply in_or_app. right. now left. }
  destruct H as (h & -> & Lh).
  destruct post as [|[k2 v2] post]; simpl; [reflexivity|].
  apply ordered_app_r in O. apply ordered_inv in O as [_ F].
  inversion F as [|? ? L _]; subst. apply Z.eqb_neq. lia.
Qed.

Lemma in_keys_middle pre k (v : EFTRecord) post : In k (Map.keys (pre ++ (k, v) :: post)).
Proof.
  unfold Map.keys. rewrite map_app. apply in_or_app. right. now left.
Qed.

End Positioned.

(** X14.  [seekExact] of an id that is in the map returns its record and
    leaves the cursor on it, whatever the cursor did before: the forward
    cursor then returns the records after it in ascending order, the reverse
    cursor the records before it in descending order, and then nothing.
    [seekExact] of an id that is not in the map returns nothing and leaves
    the cursor at its end: every [next()] returns nothing. *)
Theorem seekExact_positions_the_cursor :
  forall (m : Records) (c : Cursor.t) (rc : ReverseCursor.t) (n : nat),
    Map.ordered m ->
    (forall pre k v post,
       m = pre ++ (k, v) :: post ->
       fst (Cursor.seekExact c k m) = Some (recordAt (k, v))
       /\ Cursor_nexts (snd (Cursor.seekExact c k m)) (repeat m (length post + n))
          = map (fun p => Some (recordAt p)) post ++ repeat None n
       /\ fst (ReverseCursor.seekExact rc k m) = Some (recordAt (k, v))
       /\ ReverseCursor_nexts (snd (ReverseCursor.seekExact rc k m))
            (repeat m (length pre + n))
          = map (fun p => Some (recordAt p)) (rev pre) ++ repeat None n)
    /\ (forall id,
          Map.find id m = None ->
          fst (Cursor.seekExact c id m) = None
          /\ Cursor_nexts (snd (Cursor.seekExact c id m)) (repeat m n) = repeat None n
          /\ fst (ReverseCursor.seekExact rc id m) = None
          /\ ReverseCursor_nexts (snd (ReverseCursor.seekExact rc id m)) (repeat m n)
             = repeat None n).
Proof.
  intros m c rc n O. split.
  - intros pre k v post E.
    assert (F : Map.find k m = Some v)
      by (rewrite E; apply find_middle; rewrite <- E; exact O).
    assert (U : Map.upper_bound k m = Map.begin post)
      by (rewrite E; apply upper_bound_next; rewrite <- E; exact O).
    assert (D : Map.decr (Map.begin post) m = Some k)
      by (rewrite E; apply decr_begin_post; rewrite <- E; exact O).
    unfold Cursor.seekExact, ReverseCursor.seekExact. rewrite F. simpl.
    rewrite F, U. unfold ReverseCursor.rderef, ReverseCursor.key_of.
    rewrite D. simpl. rewrite F.
    split; [reflexivity|]. split; [|split; [reflexivity|]].
    + apply (Cursor_nexts_from post m pre k v); auto.
    + apply (ReverseCursor_nexts_from pre m k v post); auto.
  - intros id F. unfold Cursor.seekExact, ReverseCursor.seekExact. rewrite F. simpl.
    split; [reflexivity|]. split; [|split; [reflexivity|]].
    + apply Cursor_nexts_at_end; reflexivity.
    + apply ReverseCursor_nexts_at_end; reflexivity.
Qed.

(** The map with the keys 1, 2 and 4: [seekExact(2)], then three calls of
    [next()]. *)
Lemma seekExact_positions_the_cursor_witness :
  Cursor_nexts (snd (Cursor.seekExact (Cursor.new false) 2 gapRecords))
    (repeat gapRecords (1 + 2))
  = map (fun p => Some (recordAt p)) [(4, EphemeralForTestRecord.ofBytes payloadC)]
    ++ repeat None 2.
Proof.
  exact (proj1 (proj2
           (proj1 (seekExact_positions_the_cursor gapRecords (Cursor.new false)
                     (ReverseCursor.new false) 2 gapRecords_ordered)
              [(1, EphemeralForTestRecord.ofBytes payloadA)] 2
              (EphemeralForTestRecord.ofBytes payloadB)
              [(4, EphemeralForTestRecord.ofBytes payloadC)] eq_refl))).
Defined.

(* ------------------------------------------------------------------ *)
(** ** Cursors: save and restore on a record that is still there *)

(** X15.  A cursor that is on the record with id [k], not the null id, is
    saved (the forward iterator designates [k]; the base of the reverse
    iterator is the node after [k]); the map changes in any way that keeps
    [k] (records inserted, deleted, evicted or replaced around it); the
    cursor is restored.  [restore()] returns true, on a capped store as
    well, and the scan goes on from [k]: the forward cursor returns the
    records that are now after [k], the reverse cursor those that are now
    before it, and then nothing. *)
Theorem restore_on_surviving_record_resumes :
  forall (m m' pre post pre' post' : Records) (k : RecordId.t) (v v' : EFTRecord)
         (c : Cursor.t) (rc : ReverseCursor.t) (n : nat),
    RecordId.isNull k = false ->
    m = pre ++ (k, v) :: post -> Map.ordered m ->
    m' = pre' ++ (k, v') :: post' -> Map.ordered m' ->
    Cursor._it c = Some k ->
    Cursor._needFirstSeek c = false -> Cursor._lastMoveWasRestore c = false ->
    ReverseCursor._it rc = Map.begin post ->
    ReverseCursor._needFirstSeek rc = false ->
    ReverseCursor._lastMoveWasRestore rc = false ->
    fst (Cursor.restore (Cursor.save c) m') = true
    /\ Cursor_nexts (snd (Cursor.restore (Cursor.save c) m'))
         (repeat m' (length post' + n))
       = map (fun p => Some (recordAt p)) post' ++ repeat None n
    /\ fst (ReverseCursor.restore (ReverseCursor.save rc m) m') = true
    /\ ReverseCursor_nexts (snd (ReverseCursor.restore (ReverseCursor.save rc m) m'))
         (repeat m' (length pre' + n))
       = map (fun p => Some (recordAt p)) (rev pre') ++ repeat None n.
Proof.
  intros m m' pre post pre' post' k v v' c rc n NN E O E' O' It NF LR RIt RNF RLR.
  destruct c as [it nfs lmr sid cap]. simpl in It, NF, LR. subst it nfs lmr.
  destruct rc as [rit rnfs rlmr rsid rcap]. simpl in RIt, RNF, RLR. subst rit rnfs rlmr.
  assert (L : Map.lower_bound k m' = Some k).
  { apply lower_bound_present; [exact O'|]. rewrite E'. apply in_keys_middle. }
  assert (D : Map.decr (Map.begin post) m = Some k)
    by (rewrite E; apply decr_begin_post; rewrite <- E; exact O).
  assert (NR : ReverseCursor.is_rend (Map.begin post) m = false)
    by (rewrite E; apply is_rend_begin_post; rewrite <- E; exact O).
  assert (U' : Map.upper_bound k m' = Map.begin post')
    by (rewrite E'; apply upper_bound_next; rewrite <- E'; exact O').
  assert (D' : Map.decr (Map.begin post') m' = Some k)
    by (rewrite E'; apply decr_begin_post; rewrite <- E'; exact O').
  assert (NR' : ReverseCursor.is_rend (Map.begin post') m' = false)
    by (rewrite E'; apply is_rend_begin_post; rewrite <- E'; exact O').
  unfold Cursor.save, Cursor.restore, ReverseCursor.save, ReverseCursor.restore.
  cbn [Cursor._it Cursor._needFirstSeek Cursor._lastMoveWasRestore Cursor._savedId
       Cursor._isCapped ReverseCursor._it ReverseCursor._needFirstSeek
       ReverseCursor._lastMoveWasRestore ReverseCursor._savedId
       ReverseCursor._isCapped negb andb].
  unfold ReverseCursor.key_of. rewrite NR, D.
  cbn [Cursor._it Cursor._needFirstSeek Cursor._lastMoveWasRestore Cursor._savedId
       Cursor._isCapped ReverseCursor._it ReverseCursor._needFirstSeek
       ReverseCursor._lastMoveWasRestore ReverseCursor._savedId
       ReverseCursor._isCapped].
  rewrite NN, L, U', NR', D', Z.eqb_refl.
  cbn [negb orb andb fst snd]. rewrite !andb_false_r. cbn [negb].
  split; [reflexivity|]. split; [|split; [reflexivity|]].
  - apply (Cursor_nexts_from post' m' pre' k v'); auto.
  - apply (ReverseCursor_nexts_from pre' m' k v' post'); auto.
Qed.

(** Cursors of a capped store on id 2 of the map with the keys 1, 2, 4; id 1
    is evicted and id 5 inserted while they are saved. *)
Lemma restore_on_surviving_record_resumes_witness :
  fst (Cursor.restore
         (Cursor.save (snd (Cursor.seekExact (Cursor.new true) 2 gapRecords)))
         [(2, EphemeralForTestRecord.ofBytes payloadB);
          (4, EphemeralForTestRecord.ofBytes payloadC);
          (5, EphemeralForTestRecord.ofBytes payloadA)]) = true
  /\ fst (ReverseCursor.restore
            (ReverseCursor.save
               (snd (ReverseCursor.seekExact (ReverseCursor.new true) 2 gapRecords))
               gapRecords)
            [(2, EphemeralForTestRecord.ofBytes payloadB);
             (4, EphemeralForTestRecord.ofBytes payloadC);
             (5, EphemeralForTestRecord.ofBytes payloadA)]) = true.
Proof.
  pose proof (restore_on_surviving_record_resumes
                gapRecords
                [(2, EphemeralForTestRecord.ofBytes payloadB);
                 (4, EphemeralForTestRecord.ofBytes payloadC);
                 (5, EphemeralForTestRecord.ofBytes payloadA)]
                [(1, EphemeralForTestRecord.ofBytes payloadA)]
                [(4, EphemeralForTestRecord.ofBytes payloadC)]
                []
                [(4, EphemeralForTestRecord.ofBytes payloadC);
                 (5, EphemeralForTestRecord.ofBytes payloadA)]
                2 (EphemeralForTestRecord.ofBytes payloadB)
                (EphemeralForTestRecord.ofBytes payloadB)
                (snd (Cursor.seekExact (Cursor.new true) 2 gapRecords))
                (snd (ReverseCursor.seekExact (ReverseCursor.new true) 2 gapRecords))
                0%nat eq_refl eq_refl gapRecords_ordered eq_refl
                ltac:(repeat constructor) eq_refl eq_refl eq_refl eq_refl eq_refl eq_refl)
    as (A & _ & B & _).
  split; [exact A | exact B].
Defined.

(* ------------------------------------------------------------------ *)
(** ** Updating a record in place *)

Section Damages.

Lemma length_overwrite target : forall src,
  length (overwrite target src) = length target.
Proof.
  induction target as [|t ts IH]; intros [|b bs]; simpl; auto.
Qed.

Lemma overwrite_fits target : forall src,
  (length src <= length target)%nat ->
  overwrite target src = src ++ skipn (length src) target.
Proof.
  induction target as [|t ts IH]; intros [|b bs]; simpl; intros L;
    try reflexivity; try lia.
  f_equal. apply IH. lia.
Qed.

Lemma length_applyDamage damageSource root ev :
  length (applyDamage damageSource root ev) = length root.
Proof.
  unfold applyDamage, memcpy_at.
  rewrite length_app, length_overwrite, <- length_app, firstn_skipn. reflexivity.
Qed.

Lemma length_applyDamages damageSource damages : forall root,
  length (fold_left (applyDamage damageSource) damages root) = length root.
Proof.
  induction damages as [|ev damages IH]; intros root; simpl; [reflexivity|].
  now rewrite IH, length_applyDamage.
Qed.

(** One damage that lies within the record and within the source replaces
    the bytes of its range and no other. *)
Lemma applyDamage_in_bounds damageSource root ev :
  (targetOffset ev + size ev <= length root)%nat ->
  (sourceOffset ev + size ev <= length damageSource)%nat ->
  applyDamage damageSource root ev
  = firstn (targetOffset ev) root
    ++ firstn (size ev) (skipn (sourceOffset ev) damageSource)
    ++ skipn (targetOffset ev + size ev) root.
Proof.
  intros T S. unfold applyDamage, memcpy_at. f_equal.
  assert (L : length (firstn (size ev) (skipn (sourceOffset ev) damageSource)) = size ev).
  { rewrite length_firstn, length_skipn. lia. }
  rewrite overwrite_fits by (rewrite L, length_skipn; lia).
  rewrite L, skipn_skipn. f_equal. f_equal. lia.
Qed.

Variable s : Store.

Lemma updateWithDamages_unfold loc damageSource damages w old :
  Map.find loc (records (_data w)) = Some old ->
  updateWithDamages s loc damageSource damages w =
  let len := EphemeralForTestRecord.size old in
  let copied := firstn (Z.to_nat len) (EphemeralForTestRecord.data old) in
  let damaged := fold_left (applyDamage damageSource) damages copied in
  match cappedDeleteAsNeeded s
          {| _data := set_records
                        (Map.assign loc (EphemeralForTestRecord.mk len copied)
                           (records (_data w))) (_data w);
             _changes := _changes w ++ [RemoveChange loc old] |} with
  | (Returned _, w2) =>
      (Returned (SWValue damaged),
       {| _data := set_records
                     (assignThrough loc (EphemeralForTestRecord.mk len damaged)
                        (records (_data w2))) (_data w2);
          _changes := _changes w2 |})
  | (Thrown e, w2) => (Thrown e, w2)
  | (InvariantFailed, w2) => (InvariantFailed, w2)
  | (OutOfFuel, w2) => (OutOfFuel, w2)
  end.
Proof.
  intros Found. unfold updateWithDamages, recordFor.
  unfold bind at 1. unfold bind at 1. unfold getData at 1. rewrite Found.
  unfold ret at 1.
  unfold bind at 1. unfold registerChange at 1.
  unfold bind at 1. unfold modifyData at 1. simpl _data. simpl _changes.
  unfold bind at 1. cbv zeta.
  destruct (cappedDeleteAsNeeded s _) as [[ | | | ] w2]; reflexivity.
Qed.

End Damages.

Section DamagedBytes.

Lemma nth_error_applyDamage damageSource root ev i :
  (targetOffset ev + size ev <= length root)%nat ->
  (sourceOffset ev + size ev <= length damageSource)%nat ->
  nth_error (applyDamage damageSource root ev) i
  = if damageCovers ev i
    then nth_error damageSource (sourceOffset ev + (i - targetOffset ev))
    else nth_error root i.
Proof.
  intros T S. rewrite applyDamage_in_bounds by assumption.
  assert (L1 : length (firstn (targetOffset ev) root) = targetOffset ev)
    by (rewrite length_firstn; lia).
  assert (L2 : length (firstn (size ev) (skipn (sourceOffset ev) damageSource))
               = size ev)
    by (rewrite length_firstn, length_skipn; lia).
  unfold damageCovers.
  rewrite nth_error_app, L1.
  destruct (Nat.ltb_spec i (targetOffset ev)) as [Lt|Ge].
  - rewrite nth_error_firstn.
    destruct (Nat.ltb_spec i (targetOffset ev)); [|lia].
    destruct (Nat.leb_spec (targetOffset ev) i); [lia | reflexivity].
  - destruct (Nat.leb_spec (targetOffset ev) i); [|lia]. cbn [andb].
    rewrite nth_error_app, L2.
    destruct (Nat.ltb_spec (i - targetOffset ev) (size ev)) as [In|Out].
    + destruct (Nat.ltb_spec i (targetOffset ev + size ev)); [|lia].
      rewrite nth_error_firstn.
      destruct (Nat.ltb_spec (i - targetOffset ev) (size ev)); [|lia].
      apply nth_error_skipn.
    + destruct (Nat.ltb_spec i (targetOffset ev + size ev)); [lia|].
      rewrite nth_error_skipn. f_equal. lia.
Qed.

Lemma nth_error_applyDamages damageSource old damages :
  damagesInBounds (length old) (length damageSource) damages ->
  forall i,
    nth_error (fold_left (applyDamage damageSource) damages old) i
    = byteAfterDamages damageSource damages old i.
Proof.
  unfold byteAfterDamages.
  induction damages as [|ev damages IH] using rev_ind; intros B i; [reflexivity|].
  apply Forall_app in B as [B Bev]. inversion Bev as [|? ? [T S] _]; subst.
  rewrite fold_left_app. cbn [fold_left].
  rewrite nth_error_applyDamage by (rewrite ?length_applyDamages; assumption).
  rewrite rev_app_distr. cbn [rev app List.find].
  destruct (damageCovers ev i); [reflexivity|]. now apply IH.
Qed.

End DamagedBytes.

(** X16.  [updateWithDamages] of a record that is in the map, in a store
    that has nothing to evict (not capped, or capped and within its bounds),
    the record holding as many bytes as its size says, every damage lying
    within the record and reading within the damage source.  The call
    returns the new bytes: as many as before, so the byte counter and the
    number of records do not move; at every offset the byte is the one the
    last damage that covers the offset copies there from the source, and the
    old byte where no damage covers the offset.  Afterwards the id is found
    with the new bytes, every other id as before, and one [RemoveChange]
    holding the old record was registered. *)
Theorem updateWithDamages_in_place :
  forall (s : Store) (loc : RecordId.t) (damageSource : list byte)
         (damages : list DamageEvent) (old : EFTRecord) (w : World),
    Map.ordered (records (_data w)) ->
    Map.find loc (records (_data w)) = Some old ->
    EphemeralForTestRecord.size old = Z.of_nat (length (EphemeralForTestRecord.data old)) ->
    _isCapped s = false \/ cappedAndNeedDelete s (_data w) = false ->
    damagesInBounds (length (EphemeralForTestRecord.data old)) (length damageSource)
      damages ->
    exists bytes w',
      updateWithDamages s loc damageSource damages w = (Returned (SWValue bytes), w')
      /\ length bytes = length (EphemeralForTestRecord.data old)
      /\ (forall i,
            nth_error bytes i
            = byteAfterDamages damageSource damages (EphemeralForTestRecord.data old) i)
      /\ findRecord loc w' = (Returned (Some bytes), w')
      /\ (forall k, k <> loc ->
            Map.find k (records (_data w')) = Map.find k (records (_data w)))
      /\ dataSize (_data w') = dataSize (_data w)
      /\ numRecords (_data w') = numRecords (_data w)
      /\ _changes w' = _changes w ++ [RemoveChange loc old].
Proof.
  intros s loc src damages old w O Found Sz Quiet InB.
  rewrite (updateWithDamages_unfold s loc src damages w old Found). cbv zeta.
  assert (Cp : firstn (Z.to_nat (EphemeralForTestRecord.size old))
                 (EphemeralForTestRecord.data old) = EphemeralForTestRecord.data old).
  { rewrite Sz, Nat2Z.id. apply firstn_all. }
  rewrite Cp.
  set (newRecord := EphemeralForTestRecord.mk (EphemeralForTestRecord.size old)
                      (EphemeralForTestRecord.data old)).
  set (w1 := {| _data := set_records (Map.assign loc newRecord (records (_data w)))
                           (_data w);
                _changes := _changes w ++ [RemoveChange loc old] |}).
  assert (N : cappedAndNeedDelete s (_data w1) = false).
  { destruct Quiet as [NC|N].
    - unfold cappedAndNeedDelete. now rewrite NC.
    - rewrite <- N. apply need_same_counts; simpl; [reflexivity|].
      now apply (length_assign_present _ _ _ old). }
  rewrite cappedDeleteAsNeeded_eq, loop_unfold, N.
  assert (A : forall r, assignThrough loc r (records (_data w1))
                        = Map.assign loc r (records (_data w))).
  { intros r. unfold assignThrough. simpl.
    rewrite find_assign_same. apply assign_assign. }
  eexists. eexists. split; [reflexivity|].
  cbn [_data _changes records dataSize nextId set_records].
  rewrite A.
  split; [apply length_applyDamages|].
  split; [|split; [|split; [|split; [|split]]]]; try reflexivity.
  - now apply nth_error_applyDamages.
  - unfold findRecord, bind, getData, ret. simpl.
    rewrite find_assign_same. reflexivity.
  - intros k Nk. now apply find_assign_other.
  - unfold numRecords, Map.size. simpl.
    now rewrite (length_assign_present _ _ _ old O Found).
Qed.

(** The test [UpdateInPlace1]: "aaa111bbb" becomes "aaa222bbb"; the byte at
    offset 3 is the first byte of the source, the byte at offset 0 the old
    one. *)
Lemma updateWithDamages_in_place_witness :
  exists bytes w',
    updateWithDamages plainStore 1 Harness.damageSource222 [mkDamage 0 3 3]
      (Harness.insertCommitted Harness.aaa111bbb (World_new false))
    = (Returned (SWValue bytes), w')
    /\ nth_error bytes 3 = nth_error Harness.damageSource222 0
    /\ nth_error bytes 0 = nth_error Harness.aaa111bbb 0.
Proof.
  destruct (updateWithDamages_in_place plainStore 1 Harness.damageSource222
              [mkDamage 0 3 3] (EphemeralForTestRecord.ofBytes Harness.aaa111bbb)
              (Harness.insertCommitted Harness.aaa111bbb (World_new false))
              ltac:(repeat constructor) eq_refl eq_refl (or_introl eq_refl)
              ltac:(repeat constructor; simpl; lia))
    as (bytes & w' & U & _ & B & _).
  exists bytes, w'. split; [exact U|]. split; [exact (B 3%nat) | exact (B 0%nat)].
Defined.

(* ------------------------------------------------------------------ *)
(** ** The ids of an oplog *)

Section OplogIds.

Import MapFacts.

Variable extractKey : list byte -> StatusWith RecordId.t.
Variable s : Store.
Hypothesis valid : Store_valid s = true.



End OplogIds.



(* ------------------------------------------------------------------ *)
(** ** An insert whose eviction is turned down *)

Section Veto.

Import MapFacts.

Variable extractKey : list byte -> StatusWith RecordId.t.
Variable s : Store.
Hypothesis valid : Store_valid s = true.

Lemma app_last_nonempty {A : Type} (a ev b : list A) (x : A) :
  a ++ [x] = ev ++ b -> b <> [] -> exists b', b = b' ++ [x].
Proof.
  intros E NE. destruct (exists_last NE) as (b' & y & ->).
  rewrite app_assoc in E. apply app_inj_tail in E as [_ ->]. now exists b'.
Qed.

Lemma cappedDeleteAsNeeded_thrown w st w' :
  dataSize (_data w) = Map.sumSizes (records (_data w)) ->
  cappedDeleteAsNeeded s w = (Thrown st, w') ->
  exists cb id oldest tl,
    _cappedCallback s = Some cb
    /\ records (_data w') = (id, oldest) :: tl
    /\ cb w' id (EphemeralForTestRecord.toRecordData oldest) = st
    /\ st <> StatusOK.
Proof.
  intros D H. rewrite cappedDeleteAsNeeded_eq in H.
  destruct (loop_total s valid (S (length (records (_data w)))) w D
              (Nat.lt_succ_diag_r _))
    as [(w1 & R)|(cb & id & oldest & tl & c & e & w1 & R & Cb & Rs & Ans)];
    rewrite R in H; [discriminate|].
  injection H as Hs Hw. subst st w1.
  exists cb, id, oldest, tl. repeat split; auto. discriminate.
Qed.

Lemma finishInsert_thrown loc data w st w' :
  wfWorld w ->
  Forall (fun k => k < loc) (Map.keys (records (_data w))) ->
  (isOplog (_data w) = false -> loc < nextId (_data w)) ->
  finishInsert s loc data w = (Thrown st, w') ->
  (exists cb id oldest tl,
     _cappedCallback s = Some cb
     /\ records (_data w') = (id, oldest) :: tl
     /\ cb w' id (EphemeralForTestRecord.toRecordData oldest) = st
     /\ st <> StatusOK)
  /\ (exists kept, records (_data w')
                   = kept ++ [(loc, EphemeralForTestRecord.ofBytes data)])
  /\ In (InsertChange loc) (_changes w').
Proof.
  intros W F L H. unfold finishInsert in H.
  pose proof (wfWorld_afterInsert w loc (EphemeralForTestRecord.ofBytes data) W
                (Forall_lt_fresh _ _ F) L) as W1.
  destruct (cappedDeleteAsNeeded s _) as [r w1] eqn:E.
  destruct r; try discriminate. injection H as Hs Hw. subst s0 w1.
  pose proof (cappedDeleteAsNeeded_thrown _ _ _ (proj1 (proj2 (proj1 W1))) E) as V.
  apply cappedDeleteAsNeeded_shape in E as (ev & (R & _ & _ & _ & C) & _).
  split; [exact V|].
  destruct V as (cb & id & oldest & tl & _ & Rs & _).
  simpl in R, C. rewrite (assign_last _ _ _ F) in R.
  split.
  - apply (app_last_nonempty _ _ _ _ R). rewrite Rs. discriminate.
  - rewrite C. apply in_or_app. left. apply in_or_app. right. now left.
Qed.

End Veto.

(** X18.  When the callback turns down a deletion that an insert made
    necessary, [insertRecords] throws the status of the callback, and the
    insert is not undone by the store: the new record is in the map and is
    found under its id, its [InsertChange] is registered, and the record the
    callback was asked about is still the oldest one.  Only the rollback of
    the unit of work takes the new record out again. *)
Theorem vetoed_insert_leaves_the_record :
  forall (extractKey : list byte -> StatusWith RecordId.t) (s : Store)
         (record : Rec.t) (w w' : World) (st : Status),
    Store_valid s = true ->
    wfWorld w ->
    insertRecords extractKey s [record] w = (Thrown st, w') ->
    (exists cb id oldest tl,
       _cappedCallback s = Some cb
       /\ records (_data w') = (id, oldest) :: tl
       /\ cb w' id (EphemeralForTestRecord.toRecordData oldest) = st
       /\ st <> StatusOK)
    /\ exists loc,
         Map.find loc (records (_data w)) = None
         /\ findRecord loc w' = (Returned (Some (Rec.data record)), w')
         /\ In (InsertChange loc) (_changes w').
Proof.
  intros extractKey s record w w' st V W H.
  pose proof (insertRecords_wf extractKey s [record] w W) as W'.
  rewrite H in W'. simpl in W'.
  rewrite insertRecords_one in H.
  destruct (exceedsCappedMaxSize s record); [discriminate|].
  destruct (insertSingleFn extractKey s record w) as [[[st0 o]| | | ] w1] eqn:E1;
    try discriminate.
  injection H as Hs Hw. subst s0 w1.
  rewrite insertSingleFn_unfold in E1.
  assert (K : forall loc w0,
            records (_data w0) = records (_data w) ->
            wfWorld w0 ->
            Forall (fun k => k < loc) (Map.keys (records (_data w0))) ->
            (isOplog (_data w0) = false -> loc < nextId (_data w0)) ->
            finishInsert s loc (Rec.data record) w0 = (Thrown st, w') ->
            (exists cb id oldest tl,
               _cappedCallback s = Some cb
               /\ records (_data w') = (id, oldest) :: tl
               /\ cb w' id (EphemeralForTestRecord.toRecordData oldest) = st
               /\ st <> StatusOK)
            /\ exists loc,
                 Map.find loc (records (_data w)) = None
                 /\ findRecord loc w' = (Returned (Some (Rec.data record)), w')
                 /\ In (InsertChange loc) (_changes w')).
  { intros loc w0 Same W0 F L Fin.
    destruct (finishInsert_thrown s V loc (Rec.data record) w0 st w' W0 F L Fin)
      as (Veto & (kept & Kp) & Chg).
    split; [exact Veto|]. exists loc. split; [|split; [|exact Chg]].
    - rewrite <- Same. now apply Forall_lt_fresh.
    - unfold findRecord, bind, getData, ret. simpl.
      rewrite (find_of_In loc (EphemeralForTestRecord.ofBytes (Rec.data record)));
        [reflexivity | apply W' |].
      rewrite Kp. apply in_or_app. right. now left. }
  destruct (isOplog (_data w)) eqn:O.
  - destruct (extractAndCheckLocForOplog extractKey (_data w) (Rec.data record))
      as [loc|] eqn:X; [|discriminate].
    apply extractAndCheck_value in X as [_ X].
    apply (K loc w); auto.
    + apply fresh_above_last; [apply W | exact X].
    + rewrite O. discriminate.
  - destruct (RecordId.isNormal (nextId (_data w))); [|discriminate].
    apply (K (nextId (_data w)) (bumpNextId w)); auto.
    + now apply wfWorld_bumpNextId.
    + simpl. apply W. exact O.
    + simpl. lia.
Qed.

(** "A" into the capped store of 8 bytes that holds "B", with a callback
    that turns every deletion down. *)
Lemma vetoed_insert_leaves_the_record_witness :
  exists loc,
    Map.find loc (records (_data cappedAfterAB)) = None
    /\ findRecord loc
         (snd (insertRecords firstByteKey capped8Veto [Rec.mk 0 payloadA] cappedAfterAB))
       = (Returned (Some payloadA),
          snd (insertRecords firstByteKey capped8Veto [Rec.mk 0 payloadA] cappedAfterAB))
    /\ In (InsertChange loc)
         (_changes
            (snd (insertRecords firstByteKey capped8Veto [Rec.mk 0 payloadA]
                    cappedAfterAB))).
Proof.
  exact (proj2 (vetoed_insert_leaves_the_record firstByteKey capped8Veto
                  (Rec.mk 0 payloadA) cappedAfterAB _
                  (StatusError BadValue (OtherReason String.EmptyString))
                  eq_refl cappedAfterAB_wf eq_refl)).
Defined.

(* ------------------------------------------------------------------ *)
(** ** Cursors: save and restore at the end of the scan *)

(** X19.  A cursor that has reached the end of its scan is saved with the
    null id, and [restore()] puts it at the end again and returns true,
    whatever the map has become.  The forward cursor then returns nothing
    for ever, also when records are inserted after the ones it has seen; the
    reverse cursor returns nothing while the map stays as it is at the
    restore. *)
Theorem cursor_saved_at_end_stays_at_end :
  forall (c : Cursor.t) (rc : ReverseCursor.t) (m m' : Records) (ms : list Records)
         (n : nat),
    Cursor._it c = None ->
    Cursor._needFirstSeek c = false -> Cursor._lastMoveWasRestore c = false ->
    ReverseCursor._it rc = Map.begin m ->
    ReverseCursor._needFirstSeek rc = false ->
    ReverseCursor._lastMoveWasRestore rc = false ->
    fst (Cursor.restore (Cursor.save c) m') = true
    /\ Forall (fun r => r = None) (Cursor_nexts (snd (Cursor.restore (Cursor.save c) m')) ms)
    /\ fst (ReverseCursor.restore (ReverseCursor.save rc m) m') = true
    /\ ReverseCursor_nexts (snd (ReverseCursor.restore (ReverseCursor.save rc m) m'))
         (repeat m' n)
       = repeat None n.
Proof.
  intros c rc m m' ms n It NF LR RIt RNF RLR.
  destruct c as [it nfs lmr sid cap]. simpl in It, NF, LR. subst it nfs lmr.
  destruct rc as [rit rnfs rlmr rsid rcap]. simpl in RIt, RNF, RLR. subst rit rnfs rlmr.
  unfold Cursor.save, Cursor.restore, ReverseCursor.save, ReverseCursor.restore.
  cbn [Cursor._it Cursor._needFirstSeek Cursor._lastMoveWasRestore Cursor._savedId
       Cursor._isCapped ReverseCursor._it ReverseCursor._needFirstSeek
       ReverseCursor._lastMoveWasRestore ReverseCursor._savedId
       ReverseCursor._isCapped negb andb].
  unfold ReverseCursor.is_rend. rewrite iterator_eqb_refl.
  cbn [Cursor._it Cursor._needFirstSeek Cursor._lastMoveWasRestore Cursor._savedId
       Cursor._isCapped ReverseCursor._it ReverseCursor._needFirstSeek
       ReverseCursor._lastMoveWasRestore ReverseCursor._savedId
       ReverseCursor._isCapped].
  change (RecordId.isNull RecordId.null) with true. cbn [fst snd].
  split; [reflexivity|]. split; [|split; [reflexivity|]].
  - apply Cursor_at_end_stays; reflexivity.
  - apply ReverseCursor_nexts_at_end; reflexivity.
Qed.

(** A forward cursor scans the two records and hits the end; it is saved,
    a third record is inserted, it is restored. *)
Lemma cursor_saved_at_end_stays_at_end_witness :
  Forall (fun r => r = None)
    (Cursor_nexts
       (snd (Cursor.restore
               (Cursor.save
                  (snd (Cursor.next
                          (snd (Cursor.next (snd (Cursor.next (Cursor.new false) twoRecords))
                                  twoRecords))
                          twoRecords)))
               (twoRecords ++ [(3, EphemeralForTestRecord.ofBytes payloadC)])))
       [twoRecords ++ [(3, EphemeralForTestRecord.ofBytes payloadC)]]).
Proof.
  exact (proj1 (proj2
           (cursor_saved_at_end_stays_at_end
              (snd (Cursor.next
                      (snd (Cursor.next (snd (Cursor.next (Cursor.new false) twoRecords))
                              twoRecords))
                      twoRecords))
              (ReverseCursor.mk None false false 0 false) []
              (twoRecords ++ [(3, EphemeralForTestRecord.ofBytes payloadC)])
              [twoRecords ++ [(3, EphemeralForTestRecord.ofBytes payloadC)]] 0%nat
              eq_refl eq_refl eq_refl eq_refl eq_refl eq_refl))).
Defined.
